(** * A recursive-descent calculator: tokenizer and evaluator

    Shallow embedding of [src/src/tokenizer.py], [src/src/calculator.py]
    and the loop of [src/src/main.py], followed by the properties of the
    specification that were checked against it and by further properties
    of the code.

    Conventions of the embedding.
    - A Python [str] is a [string]; its characters are the code points
      below 256, so the character predicates of the Python runtime
      ([str.isdigit], [str.strip]) are given on that range.
    - A Python [int] is a [Z]; a Python [float] is a binary64 number
      (Rocq's primitive [float]); [complex] is a pair of floats.
    - A raised exception is a value of type [exn]; a method that can
      raise returns [exn + A] or runs in the monad [M] of the evaluator,
      which threads the calculator object.
    - Memory and recursion limits of the interpreter are not modelled. *)

From Stdlib Require Import ZArith Floats Ascii String List Lia Bool.
From stdpp Require Import gmap strings list.

Local Open Scope char_scope.

(** ** Python strings *)

Module PyStr.

Definition code (c : ascii) : N := N_of_ascii c.

Definition in_range (lo hi c : ascii) : bool :=
  ((code lo <=? code c) && (code c <=? code hi))%N.

Definition is_ascii_digit (c : ascii) : bool := in_range "0" "9" c.

(** Characters [c] with [c.isdigit()]: the decimal digits and the
    superscripts U+00B2, U+00B3 and U+00B9. *)
Definition is_digit_char (c : ascii) : bool :=
  is_ascii_digit c || (code c =? 178)%N || (code c =? 179)%N || (code c =? 185)%N.

(** Characters removed by [str.strip()]. *)
Definition is_whitespace (c : ascii) : bool :=
  in_range "009" "013" c || in_range "028" "032" c
  || (code c =? 133)%N || (code c =? 160)%N.

Fixpoint lstrip (s : list ascii) : list ascii :=
  match s with
  | c :: s' => if is_whitespace c then lstrip s' else s
  | [] => []
  end.

Definition rstrip (s : list ascii) : list ascii := rev (lstrip (rev s)).

Definition strip (s : list ascii) : list ascii := rstrip (lstrip s).

(** [s.replace(c, '')] for a one-character [c]. *)
Definition remove (c : ascii) (s : list ascii) : list ascii :=
  List.filter (fun x => negb (Ascii.eqb x c)) s.

(** [c in s] for a one-character [c]. *)
Definition contains (c : ascii) (s : list ascii) : bool :=
  existsb (Ascii.eqb c) s.

(** [s.isdigit()]: every character is a digit and there is at least one. *)
Definition isdigit (s : list ascii) : bool :=
  match s with
  | [] => false
  | _ => forallb is_digit_char s
  end.

Definition chars (s : string) : list ascii := list_ascii_of_string s.
Definition text (s : list ascii) : string := string_of_list_ascii s.

End PyStr.

(** ** Regular expressions

    The fragment of Python's [re] that the two patterns of the program
    use: characters, character classes, sequence, ordered alternation and the
    greedy quantifiers, matched by backtracking. *)

Module Re.
Import PyStr.

Inductive regex : Type :=
| Eps
| Chr (c : ascii)
| Class (ranges : list (ascii * ascii))
| Seq (r1 r2 : regex)
| Alt (r1 r2 : regex)
| Star (r : regex).

Definition Plus (r : regex) : regex := Seq r (Star r).
Definition Opt (r : regex) : regex := Alt r Eps.

Fixpoint Lit (s : list ascii) : regex :=
  match s with
  | [] => Eps
  | c :: s' => Seq (Chr c) (Lit s')
  end.

Definition in_class (ranges : list (ascii * ascii)) (c : ascii) : bool :=
  existsb (fun r => in_range (fst r) (snd r) c) ranges.

(** [run r s k] matches [r] at the start of [s] and hands the rest of the
    input to the continuation [k]; when [k] refuses, the matcher backtracks
    into [r].  Alternatives are tried from left to right and a star takes
    as many iterations as it can, each of them consuming input. *)
Fixpoint run {X : Type} (r : regex) (s : list ascii)
         (k : list ascii -> option X) : option X :=
  match r with
  | Eps => k s
  | Chr c =>
      match s with
      | x :: s' => if Ascii.eqb x c then k s' else None
      | [] => None
      end
  | Class ranges =>
      match s with
      | x :: s' => if in_class ranges x then k s' else None
      | [] => None
      end
  | Seq r1 r2 => run r1 s (fun s' => run r2 s' k)
  | Alt r1 r2 =>
      match run r1 s k with
      | Some x => Some x
      | None => run r2 s k
      end
  | Star r1 =>
      (fix iterate (n : nat) (s : list ascii) {struct n} : option X :=
         match n with
         | O => k s
         | S n' =>
             match run r1 s (fun s' =>
                       if (length s' <? length s)%nat then iterate n' s' else None) with
             | Some x => Some x
             | None => k s
             end
         end) (length s) s
  end.

(** The rest of the input after the match of [r] at the start of [s]. *)
Definition match_prefix (r : regex) (s : list ascii) : option (list ascii) :=
  run r s Some.

(** [re.fullmatch(r, s)] as a truth value. *)
Definition fullmatch (r : regex) (s : list ascii) : bool :=
  match run r s (fun rest => match rest with [] => Some tt | _ => None end) with
  | Some _ => true
  | None => false
  end.

(** Left-to-right scan of [re.findall]: [skip] counts the characters of the
    current position that belong to the match found last.  At a position
    where the pattern matches, the matched text is emitted and the scan
    resumes behind it (an empty match emits the empty text and moves on by
    one character); where it does not match, the character is passed over. *)
Fixpoint scan (r : regex) (s : list ascii) (skip : nat) : list (list ascii) :=
  match skip with
  | S skip' =>
      match s with
      | [] => []
      | _ :: s' => scan r s' skip'
      end
  | O =>
      match match_prefix r s with
      | Some rest =>
          let n := (length s - length rest)%nat in
          take n s ::
            match s with
            | [] => []
            | _ :: s' => scan r s' (n - 1)
            end
      | None =>
          match s with
          | [] => []
          | _ :: s' => scan r s' 0
          end
      end
  end.

Definition findall (r : regex) (s : list ascii) : list (list ascii) :=
  scan r s 0.

End Re.

(** ** Exceptions and objects of the Python runtime *)

(** The text of an exception.  The table [ERROR_MESSAGES] of the module
    [constants] is not among the sources: a message taken from it is kept
    as its key and the arguments of [format], [Template key args].  The
    other constructors are the messages written out in the source and those
    of the runtime. *)
Inductive message : Type :=
| Template (key : string) (args : list string)
| NotAString                     (* tokenizer.py, line 33 *)
| EmptyExpression                (* tokenizer.py, line 38 *)
| ExpectedOperand                (* calculator.py, line 126 *)
| ExpectedOperandGot (token : string)            (* line 150 *)
| IntegersOnly (operator : string)               (* lines 273 and 280 *)
| CallFailed (function_name : string) (cause : message)   (* line 185 *)
| PositionalArguments (function_name : string) (takes given : nat)
| RuntimeText (s : string).

Inductive exn : Type :=
| ValueError (m : message)
| TypeError (m : message)
| ZeroDivisionError (m : message)
| OverflowError (m : message).

Definition str_of_exn (e : exn) : message :=
  match e with
  | ValueError m | TypeError m | ZeroDivisionError m | OverflowError m => m
  end.

Abbreviation Ok := inr (only parsing).
Abbreviation Raise := inl (only parsing).

(** Sequencing of computations that can raise. *)
Definition and_then {A B : Type} (r : exn + A) (k : A -> exn + B) : exn + B :=
  match r with
  | Raise e => Raise e
  | Ok a => k a
  end.

Declare Scope exn_scope.
Delimit Scope exn_scope with exn.
Notation "x <- r ;; k" := (and_then r (fun x => k))
  (at level 100, r at next level, right associativity) : exn_scope.

(** The state of a [Tokenizer] instance. *)
Record TokenizerObject : Type := { _token_pattern : Re.regex }.

(** The objects that reach the string predicates and the entry points: a
    string, [None], or an instance of [Tokenizer]. *)
Inductive object : Type :=
| Str (s : string)
| NoneObject
| TokenizerInstance (self : TokenizerObject).

Definition object_of_token (token : option string) : object :=
  match token with
  | Some s => Str s
  | None => NoneObject
  end.

(** [str(x)] as [str.format] prints an optional token. *)
Definition format_arg (token : option string) : string :=
  match token with
  | Some s => s
  | None => "None"%string
  end.

(** Call of a function declared with one positional parameter. *)
Definition call1 {A : Type} (name : string) (f : object -> A)
           (args : list object) : exn + A :=
  match args with
  | [a] => Ok (f a)
  | _ => Raise (TypeError (PositionalArguments name 1 (length args)))
  end.

(** [C.f(args)]: the function is looked up on the class and receives
    [args]. *)
Definition call_on_class {A : Type} (name : string) (f : object -> A)
           (args : list object) : exn + A :=
  call1 name f args.

(** [obj.f(args)]: a function of the class body looked up on an instance is
    a bound method, which passes the instance as first positional
    argument. *)
Definition call_on_instance {A : Type} (self : object) (name : string)
           (f : object -> A) (args : list object) : exn + A :=
  call1 name f (self :: args).

(** ** tokenizer.py *)

Module Tokenizer.
Import PyStr Re.

(** The pattern of [is_identifier] (line 72), [[a-zA-Z_][a-zA-Z0-9_]*], and
    its character classes. *)
Definition DIGIT : regex := Class [("0", "9")].
Definition ALPHA_ : list (ascii * ascii) := [("a", "z"); ("A", "Z"); ("_", "_")].
Definition IDENTIFIER : regex :=
  Seq (Class ALPHA_) (Star (Class (ALPHA_ ++ [("0", "9")]))).

(** Modelled from the spec: the number of the lexical grammar,
    [DIGIT+ ('.' DIGIT+)?]. *)
Definition NUMBER : regex :=
  Seq (Plus DIGIT) (Opt (Seq (Chr ".") (Plus DIGIT))).

(** Modelled from the spec: the one-character operators and punctuation of
    the lexical grammar. *)
Definition OPERATOR_CHAR : regex :=
  Class [("+", "+"); ("-", "-"); ("*", "*"); ("/", "/"); ("%", "%");
         ("=", "="); ("(", "("); (")", ")"); (",", ",")].

(** Modelled from the spec: the constant [TOKEN_PATTERN] of the module
    [constants], which is not among the sources.  The alternatives are
    those of the lexical grammar, in the priority order the specification
    gives: the two-character operators, numbers, identifiers, and the
    one-character operators and punctuation. *)
Definition TOKEN_PATTERN : regex :=
  Alt (Lit (chars "**")) (Alt (Lit (chars "//"))
    (Alt NUMBER (Alt IDENTIFIER OPERATOR_CHAR))).

(** [Tokenizer.__init__] *)
Definition init : TokenizerObject := {| _token_pattern := TOKEN_PATTERN |}.

(** [Tokenizer.tokenize] *)
Definition tokenize (self : TokenizerObject) (expression : object)
  : exn + list string :=
  match expression with
  | Str expression =>
      let expression := strip (chars expression) in
      match expression with
      | [] => Raise (ValueError EmptyExpression)
      | _ =>
          let expression := remove " " expression in
          let tokens := findall (_token_pattern self) expression in
          Ok (map text tokens)
      end
  | _ => Raise (ValueError NotAString)
  end.

(** [Tokenizer.is_digit_token]: declared with the single parameter
    [token]. *)
Definition is_digit_token (token : object) : bool :=
  match token with
  | Str token => isdigit (remove "." (chars token))
  | _ => false
  end.

(** [Tokenizer.is_identifier]: declared with the single parameter
    [token]; the pattern is [[a-zA-Z_][a-zA-Z0-9_]*]. *)
Definition is_identifier (token : object) : bool :=
  match token with
  | Str token => fullmatch IDENTIFIER (chars token)
  | _ => false
  end.

End Tokenizer.

(** ** Numbers of the Python runtime *)

Module Numeric.
Import PyStr.

(** A number as the evaluator holds it: [int], [float], or the [complex]
    that a power of a negative base can produce. *)
Inductive value : Type :=
| VInt (z : Z)
| VFloat (f : float)
| VComplex (re im : float).

(** The results of the runtime's floating-point power. *)
Inductive inexact : Type :=
| Float (f : float)
| Complex (re im : float).

Definition value_of_inexact (x : inexact) : value :=
  match x with
  | Float f => VFloat f
  | Complex re im => VComplex re im
  end.

Inductive operator : Type := Add | Sub | Mul | TrueDiv | Pow.

Inductive builtin : Type :=
| Abs | Sqrt | PowF | Max | Min | Sin | Cos | Tan | Log | Log10 | Exp.

(** What the program takes from the platform without fixing it: the
    floating-point power behind [**] (the C library's [pow] and the cases
    CPython sorts out before it), arithmetic with a [complex] operand,
    the built-in callables of the function table, and the limit on the
    length of a decimal string that [int] converts (0: no limit). *)
Record Runtime : Type := {
  float_pow : float -> float -> exn + inexact;
  complex_arith : operator -> value -> value -> exn + (float * float);
  call_builtin : builtin -> list value -> exn + value;
  int_max_str_digits : nat
}.

(** [isinstance(v, int)] *)
Definition is_int (v : value) : bool :=
  match v with VInt _ => true | _ => false end.

Definition is_float (v : value) : bool :=
  match v with VFloat _ => true | _ => false end.

(** [v == 0] *)
Definition eq_zero (v : value) : bool :=
  match v with
  | VInt z => (z =? 0)%Z
  | VFloat f => (f =? 0)%float
  | VComplex re im => ((re =? 0) && (im =? 0))%float
  end.

(** An integer as an unrounded binary number. *)
Definition exact (z : Z) : spec_float :=
  match z with
  | Z0 => S754_zero false
  | Zpos p => S754_finite false p 0
  | Zneg p => S754_finite true p 0
  end.

(** [float(z)]: rounding to nearest, ties to even; an integer that rounds
    beyond the largest float raises. *)
Definition float_of_int (z : Z) : exn + float :=
  let f := SF2Prim (binary_normalize prec emax z 0 false) in
  if is_infinity f
  then Raise (OverflowError (RuntimeText "int too large to convert to float"))
  else Ok f.

(** The quotient of two integers rounded once, to nearest. *)
Definition ratio (a b : Z) : float :=
  SF2Prim (SFdiv prec emax (exact a) (exact b)).

(** [a / b] on [int], [b] not zero: the quotient rounded once; one that
    rounds beyond the largest float raises. *)
Definition int_true_divide (a b : Z) : exn + float :=
  let q := ratio a b in
  if is_infinity q
  then Raise (OverflowError
                (RuntimeText "integer division result too large for a float"))
  else Ok q.

(** The value of a string of the digits 0 to 9. *)
Fixpoint digits_value (acc : Z) (s : list ascii) : option Z :=
  match s with
  | [] => Some acc
  | c :: s' =>
      if is_ascii_digit c
      then digits_value (10 * acc + (Z.of_N (code c) - 48)) s'
      else None
  end.

(** [int(s)] on the strings that [is_digit_token] lets through: digits
    only, and no more of them than the runtime converts. *)
Definition int_of_string (R : Runtime) (s : list ascii) : option Z :=
  match s with
  | [] => None
  | _ =>
      let limit := int_max_str_digits R in
      if negb (limit =? 0)%nat && (limit <? length s)%nat then None
      else digits_value 0 s
  end.

Fixpoint split_at_dot (s : list ascii) : list ascii * option (list ascii) :=
  match s with
  | [] => ([], None)
  | c :: s' =>
      if Ascii.eqb c "." then ([], Some s')
      else let (whole, fraction) := split_at_dot s' in (c :: whole, fraction)
  end.

(** [float(s)] on the strings that [is_digit_token] lets through: digits
    around at most one point, at least one digit; the decimal value is
    rounded once. *)
Definition float_of_string (s : list ascii) : option float :=
  let (whole, fraction) := split_at_dot s in
  let fraction := default [] fraction in
  match whole ++ fraction with
  | [] => None
  | digits =>
      match digits_value 0 digits with
      | Some m => Some (ratio m (10 ^ Z.of_nat (length fraction)))
      | None => None
      end
  end.

Section Operators.
Variable R : Runtime.

Definition to_float (v : value) : exn + float :=
  match v with
  | VInt z => float_of_int z
  | VFloat f => Ok f
  | VComplex _ _ =>
      Raise (TypeError (RuntimeText "float() argument must be a real number"))
  end.

Definition complex_op (op : operator) (a b : value) : exn + value :=
  (c <- complex_arith R op a b ;; Ok (VComplex (fst c) (snd c)))%exn.

(** The binary operators [+], [-] and [*]: exact on two integers; an
    integer next to a float is converted first. *)
Definition arith (op : operator) (on_int : Z -> Z -> Z)
  (on_float : float -> float -> float) (a b : value) : exn + value :=
  match a, b with
  | VInt x, VInt y => Ok (VInt (on_int x y))
  | VComplex _ _, _ | _, VComplex _ _ => complex_op op a b
  | _, _ =>
      (x <- to_float a ;; y <- to_float b ;; Ok (VFloat (on_float x y)))%exn
  end.

Definition py_add : value -> value -> exn + value := arith Add Z.add PrimFloat.add.
Definition py_sub : value -> value -> exn + value := arith Sub Z.sub PrimFloat.sub.
Definition py_mul : value -> value -> exn + value := arith Mul Z.mul PrimFloat.mul.

(** [a / b].  The zero divisor is found on the operand itself: an
    integer that is not zero converts to a float that is not zero. *)
Definition py_truediv (a b : value) : exn + value :=
  match a, b with
  | VComplex _ _, _ | _, VComplex _ _ => complex_op TrueDiv a b
  | _, _ =>
      if eq_zero b
      then Raise (ZeroDivisionError (RuntimeText "division by zero"))
      else
        match a, b with
        | VInt x, VInt y => (q <- int_true_divide x y ;; Ok (VFloat q))%exn
        | _, _ =>
            (x <- to_float a ;; y <- to_float b ;; Ok (VFloat (x / y)))%exn
        end
  end.

(** The floating-point power of the runtime on the converted operands. *)
Definition inexact_pow (a b : value) : exn + value :=
  (x <- to_float a ;; y <- to_float b ;;
   r <- float_pow R x y ;; Ok (value_of_inexact r))%exn.

(** [a ** b]: exact on two integers when the exponent is not negative. *)
Definition py_pow (a b : value) : exn + value :=
  match a, b with
  | VInt x, VInt y =>
      if (0 <=? y)%Z then Ok (VInt (x ^ y)) else inexact_pow a b
  | VComplex _ _, _ | _, VComplex _ _ => complex_op Pow a b
  | _, _ => inexact_pow a b
  end.

(** [-a] *)
Definition py_neg (a : value) : value :=
  match a with
  | VInt z => VInt (- z)
  | VFloat f => VFloat (- f)
  | VComplex re im => VComplex (- re) (- im)
  end.

End Operators.

End Numeric.

(** ** calculator.py *)

Module Calculator.
Import PyStr Numeric.

(** The state of a [Calculator] instance. *)
Record t : Type := {
  _tokenizer : TokenizerObject;
  _variables : gmap string value;
  _tokens : list string;
  _current_position : nat;
  _functions : gmap string builtin
}.

(** [Calculator.initialize_functions] *)
Definition initialize_functions : gmap string builtin :=
  list_to_map
    [("abs", Abs); ("sqrt", Sqrt); ("pow", PowF); ("max", Max); ("min", Min);
     ("sin", Sin); ("cos", Cos); ("tan", Tan); ("log", Log);
     ("log10", Log10); ("exp", Exp)]%string.

(** [Calculator.__init__] *)
Definition init : t :=
  {| _tokenizer := Tokenizer.init;
     _variables := ∅;
     _tokens := [];
     _current_position := 0;
     _functions := initialize_functions |}.

Definition set_tokens (tokens : list string) (self : t) : t :=
  {| _tokenizer := _tokenizer self; _variables := _variables self;
     _tokens := tokens; _current_position := _current_position self;
     _functions := _functions self |}.

Definition set_current_position (n : nat) (self : t) : t :=
  {| _tokenizer := _tokenizer self; _variables := _variables self;
     _tokens := _tokens self; _current_position := n;
     _functions := _functions self |}.

Definition set_variables (vars : gmap string value) (self : t) : t :=
  {| _tokenizer := _tokenizer self; _variables := vars;
     _tokens := _tokens self; _current_position := _current_position self;
     _functions := _functions self |}.

(** *** The monad of the methods

    A method transforms the calculator object and returns, raises, or,
    in this model only, runs out of the fuel that bounds its recursion. *)
Inductive outcome (A : Type) : Type :=
| Returns (a : A)
| Raises (e : exn)
| OutOfFuel.
Arguments Returns {A} a.
Arguments Raises {A} e.
Arguments OutOfFuel {A}.

Definition M (A : Type) : Type := t -> outcome A * t.

Definition ret {A : Type} (a : A) : M A := fun self => (Returns a, self).
Definition raise {A : Type} (e : exn) : M A := fun self => (Raises e, self).
Definition out_of_fuel {A : Type} : M A := fun self => (OutOfFuel, self).

Definition bind {A B : Type} (m : M A) (k : A -> M B) : M B :=
  fun self =>
    match m self with
    | (Returns a, self') => k a self'
    | (Raises e, self') => (Raises e, self')
    | (OutOfFuel, self') => (OutOfFuel, self')
    end.

Definition lift {A : Type} (r : exn + A) : M A :=
  match r with
  | Ok a => ret a
  | Raise e => raise e
  end.

Definition get : M t := fun self => (Returns self, self).
Definition modify (f : t -> t) : M unit := fun self => (Returns tt, f self).

Declare Scope M_scope.
Delimit Scope M_scope with M.
Notation "x <- m ;; k" := (bind m (fun x => k))
  (at level 100, m at next level, right associativity) : M_scope.
Notation "m ;; k" := (bind m (fun _ => k))
  (at level 100, right associativity) : M_scope.
Local Open Scope M_scope.
Local Open Scope string_scope.

(** [Calculator.get_current_token] *)
Definition get_current_token : M (option string) :=
  self <- get ;;
  ret (_tokens self !! _current_position self).

(** [Calculator.consume_token]; an [expected_token] that is [None] or empty
    is not compared. *)
Definition consume_token (expected_token : option string) : M string :=
  self <- get ;;
  match _tokens self !! _current_position self with
  | None => raise (ValueError (Template "unexpected_end" []))
  | Some current_token =>
      match expected_token with
      | Some (String c e as expected) =>
          if negb (current_token =? expected)
          then raise (ValueError
                        (Template "unexpected_token" [expected; current_token]))
          else modify (set_current_position (S (_current_position self))) ;;
               ret current_token
      | _ =>
          modify (set_current_position (S (_current_position self))) ;;
          ret current_token
      end
  end.

Section Evaluator.
Variable R : Runtime.

(** [Calculator.parse_number], on the string that [consume_token]
    returned. *)
Definition parse_number (token : string) : exn + value :=
  if contains "." (chars token)
  then match float_of_string (chars token) with
       | Some f => Ok (VFloat f)
       | None => Raise (ValueError (Template "invalid_number" [token]))
       end
  else match int_of_string R (chars token) with
       | Some z => Ok (VInt z)
       | None => Raise (ValueError (Template "invalid_number" [token]))
       end.

(** [Calculator.handle_variable_reference] *)
Definition handle_variable_reference (variable_name : string) : M value :=
  self <- get ;;
  match _variables self !! variable_name with
  | None => raise (ValueError (Template "unknown_variable" [variable_name]))
  | Some v => ret v
  end.

(** The body of the loop of [handle_multiplicative_expression]
    (lines 261 to 280): [result] combined with [right_operand] under
    the operator [token]. *)
Definition apply_multiplicative (token : string) (result right_operand : value)
  : exn + value :=
  if token =? "*" then py_mul R result right_operand
  else if token =? "/" then
    if eq_zero right_operand
    then Raise (ValueError (Template "division_by_zero" []))
    else py_truediv R result right_operand
  else if token =? "//" then
    if eq_zero right_operand
    then Raise (ValueError (Template "integer_division_by_zero" []))
    else match result, right_operand with
         | VInt a, VInt b => Ok (VInt (a / b))
         | _, _ => Raise (ValueError (IntegersOnly "//"))
         end
  else if token =? "%" then
    if eq_zero right_operand
    then Raise (ValueError (Template "modulo_by_zero" []))
    else match result, right_operand with
         | VInt a, VInt b => Ok (VInt (a mod b))
         | _, _ => Raise (ValueError (IntegersOnly "%"))
         end
  else Ok result.

(** The body of the loop of [handle_additive_expression] (lines 301 to
    304). *)
Definition apply_additive (token : string) (result right_operand : value)
  : exn + value :=
  if token =? "+" then py_add R result right_operand
  else py_sub R result right_operand.

(** The last step of [handle_function_call] (lines 182 to 185): any
    exception of the callable is raised again as a [ValueError]. *)
Definition invoke (function_name : string) (f : builtin) (arguments : list value)
  : exn + value :=
  match call_builtin R f arguments with
  | Ok v => Ok v
  | Raise error => Raise (ValueError (CallFailed function_name (str_of_exn error)))
  end.

Definition is_sign (token : option string) : bool :=
  match token with
  | Some tok => (tok =? "+") || (tok =? "-")
  | None => false
  end.

Definition is_multiplicative (token : option string) : bool :=
  match token with
  | Some tok => (tok =? "*") || (tok =? "/") || (tok =? "//") || (tok =? "%")
  | None => false
  end.

Definition token_is (token : option string) (s : string) : bool :=
  match token with
  | Some tok => tok =? s
  | None => false
  end.

(** The mutually recursive methods of the grammar.  Every call spends one
    unit of [fuel]; the two [while] loops and the argument loop are the
    functions [..._loop]. *)
Fixpoint handle_expression (fuel : nat) : M value :=
  match fuel with
  | O => out_of_fuel
  | S fuel => handle_assignment fuel
  end

with handle_assignment (fuel : nat) : M value :=
  match fuel with
  | O => out_of_fuel
  | S fuel =>
      token <- get_current_token ;;
      if token_is token "let" then
        consume_token (Some "let") ;;
        variable_name <- get_current_token ;;
        self <- get ;;
        valid <- lift (call_on_instance (TokenizerInstance (_tokenizer self))
                         "is_identifier" Tokenizer.is_identifier
                         [object_of_token variable_name]) ;;
        if negb valid
        then raise (ValueError
                      (Template "invalid_identifier" [format_arg variable_name]))
        else
          consume_token None ;;
          consume_token (Some "=") ;;
          value <- handle_expression fuel ;;
          modify (fun self =>
                    match variable_name with
                    | Some name => set_variables (<[name := value]> (_variables self)) self
                    | None => self
                    end) ;;
          ret value
      else handle_additive_expression fuel
  end

with handle_additive_expression (fuel : nat) : M value :=
  match fuel with
  | O => out_of_fuel
  | S fuel =>
      result <- handle_multiplicative_expression fuel ;;
      additive_loop fuel result
  end

with additive_loop (fuel : nat) (result : value) : M value :=
  match fuel with
  | O => out_of_fuel
  | S fuel =>
      token <- get_current_token ;;
      if is_sign token then
        consume_token None ;;
        right_operand <- handle_multiplicative_expression fuel ;;
        result <- lift (apply_additive (default "" token) result right_operand) ;;
        additive_loop fuel result
      else ret result
  end

with handle_multiplicative_expression (fuel : nat) : M value :=
  match fuel with
  | O => out_of_fuel
  | S fuel =>
      result <- handle_power_expression fuel ;;
      multiplicative_loop fuel result
  end

with multiplicative_loop (fuel : nat) (result : value) : M value :=
  match fuel with
  | O => out_of_fuel
  | S fuel =>
      token <- get_current_token ;;
      if is_multiplicative token then
        consume_token None ;;
        right_operand <- handle_power_expression fuel ;;
        result <- lift (apply_multiplicative (default "" token) result right_operand) ;;
        multiplicative_loop fuel result
      else ret result
  end

with handle_power_expression (fuel : nat) : M value :=
  match fuel with
  | O => out_of_fuel
  | S fuel =>
      left_operand <- handle_unary_expression fuel ;;
      token <- get_current_token ;;
      if token_is token "**" then
        consume_token (Some "**") ;;
        right_operand <- handle_power_expression fuel ;;
        lift (py_pow R left_operand right_operand)
      else ret left_operand
  end

with handle_unary_expression (fuel : nat) : M value :=
  match fuel with
  | O => out_of_fuel
  | S fuel =>
      token <- get_current_token ;;
      if is_sign token then
        consume_token None ;;
        operand <- handle_unary_expression fuel ;;
        if token_is token "+" then ret operand else ret (py_neg operand)
      else handle_primary_expression fuel
  end

with handle_primary_expression (fuel : nat) : M value :=
  match fuel with
  | O => out_of_fuel
  | S fuel =>
      token <- get_current_token ;;
      match token with
      | None => raise (ValueError ExpectedOperand)
      | Some token =>
          if token =? "(" then
            consume_token (Some "(") ;;
            result <- handle_expression fuel ;;
            consume_token (Some ")") ;;
            ret result
          else
            is_number <- lift (call_on_class "is_digit_token"
                                 Tokenizer.is_digit_token [Str token]) ;;
            if is_number then
              number_token <- consume_token None ;;
              lift (parse_number number_token)
            else
              is_name <- lift (call_on_class "is_identifier"
                                 Tokenizer.is_identifier [Str token]) ;;
              if is_name then
                identifier <- consume_token None ;;
                next_token <- get_current_token ;;
                if token_is next_token "("
                then handle_function_call fuel identifier
                else handle_variable_reference identifier
              else raise (ValueError (ExpectedOperandGot token))
      end
  end

with handle_function_call (fuel : nat) (function_name : string) : M value :=
  match fuel with
  | O => out_of_fuel
  | S fuel =>
      self <- get ;;
      match _functions self !! function_name with
      | None => raise (ValueError (Template "unknown_function" [function_name]))
      | Some f =>
          consume_token (Some "(") ;;
          token <- get_current_token ;;
          arguments <-
            (if negb (token_is token ")") then
               argument <- handle_expression fuel ;;
               arguments_loop fuel [argument]
             else ret []) ;;
          consume_token (Some ")") ;;
          lift (invoke function_name f arguments)
      end
  end

with arguments_loop (fuel : nat) (arguments : list value) : M (list value) :=
  match fuel with
  | O => out_of_fuel
  | S fuel =>
      token <- get_current_token ;;
      if token_is token "," then
        consume_token (Some ",") ;;
        argument <- handle_expression fuel ;;
        arguments_loop fuel (arguments ++ [argument])
      else ret arguments
  end.

(** Fuel that the parse of [tokens] cannot use up. *)
Definition fuel_for (tokens : list string) : nat := 8 * length tokens + 7.

(** [Calculator.calculate] *)
Definition calculate (expression : object) : M value :=
  match expression with
  | Str source =>
      match strip (chars source) with
      | [] => raise (ValueError (Template "empty_expression" []))
      | _ =>
          self <- get ;;
          tokens <- lift (Tokenizer.tokenize (_tokenizer self) expression) ;;
          modify (set_tokens tokens) ;;
          modify (set_current_position 0) ;;
          result <- handle_expression (fuel_for tokens) ;;
          self <- get ;;
          if negb (_current_position self =? length (_tokens self))%nat
          then raise (ValueError (Template "unprocessed_tokens" []))
          else ret result
      end
  | _ => raise (ValueError (Template "invalid_expression" []))
  end.

End Evaluator.

(** [Calculator.get_variables], [clear_variables], [get_variable_value] *)
Definition get_variables (self : t) : gmap string value := _variables self.
Definition clear_variables (self : t) : t := set_variables ∅ self.
Definition get_variable_value (self : t) (variable_name : string) : option value :=
  _variables self !! variable_name.

End Calculator.

(** ** A runtime to run examples on

    The power function of this runtime is the exactly rounded power at the
    integral exponents and fails elsewhere; its built-ins are [abs], [pow],
    [max] and [min] on integers and the square root; it never produces a
    [complex].  The properties below are proved for every runtime; this
    one evaluates the examples. *)

Module ExampleRuntime.
Import Numeric.

Definition unsupported {A : Type} : exn + A :=
  Raise (ValueError (RuntimeText "math domain error")).

(** The integer that a float holds, when it holds one. *)
Definition integral (y : float) : option Z :=
  match Prim2SF y with
  | S754_zero _ => Some 0%Z
  | S754_finite s m e =>
      let m := if s then Zneg m else Zpos m in
      if (0 <=? e)%Z then Some (m * 2 ^ e)%Z
      else if (m mod 2 ^ (- e) =? 0)%Z then Some (m / 2 ^ (- e))%Z
      else None
  | _ => None
  end.

Definition checked (r : spec_float) : exn + inexact :=
  let f := SF2Prim r in
  if is_infinity f
  then Raise (OverflowError (RuntimeText "Numerical result out of range"))
  else Ok (Float f).

Definition float_pow (x y : float) : exn + inexact :=
  match Prim2SF x, integral y with
  | _, Some Z0 => Ok (Float 1)
  | S754_finite s m e, Some (Zpos n) =>
      let m := if s then Zneg m else Zpos m in
      checked (binary_normalize prec emax (m ^ Zpos n) (e * Zpos n) false)
  | S754_finite s m e, Some (Zneg n) =>
      checked (SFdiv prec emax (S754_finite false 1 0)
                 (S754_finite (s && Z.odd (Zpos n)) (m ^ n) (e * Zpos n)))
  | S754_zero s, Some (Zpos n) => Ok (Float (if Z.odd (Zpos n) then x else 0))
  | S754_zero s, Some (Zneg n) =>
      Raise (ZeroDivisionError
               (RuntimeText "0.0 cannot be raised to a negative power"))
  | _, _ => unsupported
  end.

Definition ints (arguments : list value) : option (list Z) :=
  mapM (fun v => match v with VInt z => Some z | _ => None end) arguments.

Definition runtime : Runtime :=
  {| Numeric.float_pow := float_pow;
     complex_arith := fun _ _ _ => unsupported;
     call_builtin := fun f arguments =>
       match f, arguments with
       | Abs, [VInt z] => Ok (VInt (Z.abs z))
       | Abs, [VFloat x] => Ok (VFloat (abs x))
       | Sqrt, [VInt z] =>
           if (z <? 0)%Z then unsupported
           else (x <- float_of_int z ;; Ok (VFloat (sqrt x)))%exn
       | Sqrt, [VFloat x] =>
           if (x <? 0)%float then unsupported else Ok (VFloat (sqrt x))
       | PowF, [VInt x; VInt y] =>
           if (0 <=? y)%Z then Ok (VInt (x ^ y)) else unsupported
       | Max, _ :: _ :: _ =>
           match ints arguments with
           | Some (z :: zs) => Ok (VInt (fold_left Z.max zs z))
           | _ => unsupported
           end
       | Min, _ :: _ :: _ =>
           match ints arguments with
           | Some (z :: zs) => Ok (VInt (fold_left Z.min zs z))
           | _ => unsupported
           end
       | _, _ => unsupported
       end;
     int_max_str_digits := 4300 |}.

End ExampleRuntime.

(** ** Notions used in the statements *)

Module Notions.
Import PyStr Re Numeric Calculator.

(** The characters that [r] can consume. *)
Fixpoint accepts (r : regex) (c : ascii) : bool :=
  match r with
  | Eps => false
  | Chr x => Ascii.eqb c x
  | Class ranges => in_class ranges c
  | Seq r1 r2 | Alt r1 r2 => accepts r1 c || accepts r2 c
  | Star r1 => accepts r1 c
  end.

(** [r] can match the empty text. *)
Fixpoint nullable (r : regex) : bool :=
  match r with
  | Eps | Star _ => true
  | Chr _ | Class _ => false
  | Seq r1 r2 => nullable r1 && nullable r2
  | Alt r1 r2 => nullable r1 || nullable r2
  end.

(** The characters that occur in tokens: those of the lexical grammar. *)
Definition token_char (c : ascii) : bool := accepts Tokenizer.TOKEN_PATTERN c.

(** The token characters other than the decimal point: each of them
    starts or continues a token wherever it stands. *)
Definition core_char (c : ascii) : bool :=
  accepts Tokenizer.DIGIT c || accepts Tokenizer.IDENTIFIER c
  || accepts Tokenizer.OPERATOR_CHAR c.

(** The text of the tokens put together again. *)
Definition reassemble (tokens : list string) : list ascii :=
  concat (map chars tokens).

(** The input without its whitespace. *)
Definition without_whitespace (s : list ascii) : list ascii :=
  List.filter (fun c => negb (is_whitespace c)) s.

(** The shape [DIGIT+ ('.' DIGIT+)?] of a number of the lexical grammar. *)
Definition number_shape (s : string) : bool :=
  fullmatch Tokenizer.NUMBER (chars s).

(** The tokens left when a method returned. *)
Definition remaining (self : Calculator.t) : nat :=
  length (_tokens self) - _current_position self.

(** What the methods of the grammar leave alone: they move the cursor
    forward and change nothing else. *)
Record advances (self self' : Calculator.t) : Prop := {
  same_tokenizer : _tokenizer self' = _tokenizer self;
  same_variables : _variables self' = _variables self;
  same_tokens : _tokens self' = _tokens self;
  same_functions : _functions self' = _functions self;
  cursor_forward : _current_position self <= _current_position self'
}.

(** A method call that ends, having only moved the cursor. *)
Definition sound {A : Type} (m : M A) (self : Calculator.t) : Prop :=
  match m self with
  | (OutOfFuel, _) => False
  | (_, self') => advances self self'
  end.

(** The calculator as [calculate] sets it up for the parse of [tokens]. *)
Definition start (tokens : list string) (self : Calculator.t) : Calculator.t :=
  set_current_position 0 (set_tokens tokens self).

(** The binary operators of the evaluator by their token. *)
Definition binary (R : Runtime) (token : string) (a b : value) : exn + value :=
  if (token =? "+")%string || (token =? "-")%string then apply_additive R token a b
  else if (token =? "**")%string then py_pow R a b
  else apply_multiplicative R token a b.

(** A number that is not a [complex]. *)
Definition is_real (v : value) : bool := is_int v || is_float v.

(** The quotient of two real numbers as a float, as the true division of
    Python gives it: two integers are divided exactly and the quotient is
    rounded once; otherwise the operands are converted to floats and the
    floats are divided. *)
Definition quotient (a b : value) : exn + float :=
  match a, b with
  | VInt x, VInt y => int_true_divide x y
  | _, _ => (x <- to_float a ;; y <- to_float b ;; Ok (x / y)%float)%exn
  end.

Definition outcome_of {A : Type} (r : exn + A) : outcome A :=
  match r with
  | Ok a => Returns a
  | Raise e => Raises e
  end.

(** The value of an expression on a fresh calculator of the example
    runtime. *)
Definition evaluates (expression : string) (expected : value) : Prop :=
  fst (calculate ExampleRuntime.runtime (Str expression) Calculator.init)
  = Returns expected.

(** A pattern that tries the keyword [let] before the identifiers, the
    other way in which [TOKEN_PATTERN] can treat the keyword, and a fresh
    calculator whose tokenizer uses it. *)
Definition KEYWORD_FIRST : regex :=
  Alt (Lit (chars "let")) Tokenizer.TOKEN_PATTERN.

Definition init_keyword_first : Calculator.t :=
  {| _tokenizer := {| _token_pattern := KEYWORD_FIRST |};
     _variables := ∅;
     _tokens := [];
     _current_position := 0;
     _functions := initialize_functions |}.

End Notions.

(** ** The expressions of the grammar

    The expressions that the methods of the grammar accept, without the
    assignment: the tree of an expression, its tokens, and its value by the
    operators of the evaluator, operands from left to right. *)

Module Grammar.
Import PyStr Numeric Calculator.
Local Open Scope string_scope.

(** The trees of the expressions: a number token, a variable, a call with
    its arguments, an expression in parentheses, a signed operand, a power,
    and the operators of the two loops with their token. *)
#[warnings="-register-all"]
Inductive expr : Type :=
| Num (token : string)
| Var (name : string)
| Call (name : string) (arguments : list expr)
| Paren (e : expr)
| Pos (e : expr)
| Neg (e : expr)
| Power (base exponent : expr)
| Mult (op : string) (left right : expr)
| Addn (op : string) (left right : expr).

(** The level of the grammar that an expression belongs to: 0 primary,
    1 unary, 2 power, 3 multiplicative, 4 additive. *)
Definition level (e : expr) : nat :=
  match e with
  | Num _ | Var _ | Call _ _ | Paren _ => 0
  | Pos _ | Neg _ => 1
  | Power _ _ => 2
  | Mult _ _ _ => 3
  | Addn _ _ _ => 4
  end.

(** The tokens of the arguments of a call, with the commas between
    them. *)
Fixpoint separated (arguments : list (list string)) : list string :=
  match arguments with
  | [] => []
  | [a] => a
  | a :: rest => a ++ "," :: separated rest
  end.

(** The tokens of an expression, as the parser finds them. *)
Fixpoint tokens (e : expr) : list string :=
  match e with
  | Num token => [token]
  | Var name => [name]
  | Call name arguments => name :: "(" :: separated (map tokens arguments) ++ [")"]
  | Paren e => "(" :: tokens e ++ [")"]
  | Pos e => "+" :: tokens e
  | Neg e => "-" :: tokens e
  | Power base exponent => tokens base ++ "**" :: tokens exponent
  | Mult op l r => tokens l ++ op :: tokens r
  | Addn op l r => tokens l ++ op :: tokens r
  end.

(** A token that [handle_primary_expression] takes for a name. *)
Definition is_name (name : string) : Prop :=
  Tokenizer.is_identifier (Str name) = true.

(** An expression that [handle_assignment] does not take for an
    assignment: its first token is not the keyword. *)
Definition begins (e : expr) : Prop :=
  token_is (head (tokens e)) "let" = false.

(** The shape that the grammar gives an expression: each operand belongs to
    the level that the method of its operator parses; a binary operator
    takes its own level on the left; what stands between parentheses and
    each argument of a call is parsed by [handle_expression], and so does
    not begin with the keyword. *)
Fixpoint well_formed (e : expr) : Prop :=
  match e with
  | Num token => Tokenizer.is_digit_token (Str token) = true
  | Var name => is_name name
  | Call name arguments =>
      is_name name /\
      (fix all (l : list expr) : Prop :=
         match l with
         | [] => True
         | a :: l' => (begins a /\ well_formed a) /\ all l'
         end) arguments
  | Paren e => begins e /\ well_formed e
  | Pos e | Neg e => level e <= 1 /\ well_formed e
  | Power base exponent =>
      level base <= 1 /\ level exponent <= 2
      /\ well_formed base /\ well_formed exponent
  | Mult op l r =>
      In op ["*"; "/"; "//"; "%"] /\ level l <= 3 /\ level r <= 2
      /\ well_formed l /\ well_formed r
  | Addn op l r =>
      In op ["+"; "-"] /\ level l <= 4 /\ level r <= 3
      /\ well_formed l /\ well_formed r
  end.

(** The tokens of the arguments after the first, each behind its comma. *)
Definition rest_of_arguments (arguments : list expr) : list string :=
  flat_map (fun a => "," :: tokens a) arguments.

(** The values of the arguments, or the first exception among them. *)
Fixpoint collect (results : list (exn + value)) : exn + list value :=
  match results with
  | [] => Ok []
  | r :: results' => (v <- r ;; vs <- collect results' ;; Ok (v :: vs))%exn
  end.

Section Value.
Variable R : Runtime.
Variable variables : gmap string value.
Variable functions : gmap string builtin.

(** The value of an expression: what the methods compute, in their order. *)
Fixpoint eval (e : expr) : exn + value :=
  match e with
  | Num token => parse_number R token
  | Var name =>
      match variables !! name with
      | Some v => Ok v
      | None => Raise (ValueError (Template "unknown_variable" [name]))
      end
  | Call name arguments =>
      match functions !! name with
      | None => Raise (ValueError (Template "unknown_function" [name]))
      | Some f =>
          (vs <- collect (map eval arguments) ;; invoke R name f vs)%exn
      end
  | Paren e => eval e
  | Pos e => eval e
  | Neg e => (v <- eval e ;; Ok (py_neg v))%exn
  | Power base exponent =>
      (b <- eval base ;; x <- eval exponent ;; py_pow R b x)%exn
  | Mult op l r =>
      (a <- eval l ;; b <- eval r ;; apply_multiplicative R op a b)%exn
  | Addn op l r =>
      (a <- eval l ;; b <- eval r ;; apply_additive R op a b)%exn
  end.

End Value.

(** The tokens from the cursor on, and the calculator with its cursor moved
    on by [n] tokens. *)
Definition here (self : Calculator.t) : list string :=
  drop (_current_position self) (_tokens self).

Definition skip (n : nat) (self : Calculator.t) : Calculator.t :=
  set_current_position (_current_position self + n) self.

(** The result of a method once it has fuel enough. *)
Definition Runs {A : Type} (m : nat -> M A) (self : Calculator.t)
  (r : outcome A * Calculator.t) : Prop :=
  exists fuel0, forall fuel, fuel0 <= fuel -> m fuel self = r.

(** The method [m] computes [ev]: it returns the value and leaves the
    calculator [self'], or it raises the exception. *)
Definition Parses (m : nat -> M value) (self : Calculator.t) (ev : exn + value)
  (self' : Calculator.t) : Prop :=
  match ev with
  | Ok v => Runs m self (Returns v, self')
  | Raise err => exists c, Runs m self (Raises err, c)
  end.

(** The method [m] computes [ev] and goes on as its loop does from
    [self']. *)
Definition Continues (m : nat -> M value) (loop : nat -> value -> M value)
  (self : Calculator.t) (ev : exn + value) (self' : Calculator.t) : Prop :=
  match ev with
  | Ok v => forall r, Runs (fun fuel => loop fuel v) self' r -> Runs m self r
  | Raise err => exists c, Runs m self (Raises err, c)
  end.

(** The tokens at which the methods of a level stop. *)
Definition stop0 (next : option string) : bool := negb (token_is next "(").
Definition stop2 (next : option string) : bool :=
  stop0 next && negb (token_is next "**").
Definition stop3 (next : option string) : bool :=
  stop2 next && negb (is_multiplicative next).
Definition stop4 (next : option string) : bool :=
  stop3 next && negb (is_sign next).

(** What the methods of the five levels make of the expression [e] when
    its tokens stand at the cursor, with [rest] behind them. *)
Definition ParsedAt (R : Runtime) (e : expr) (self : Calculator.t)
  (rest : list string) : Prop :=
  let self' := skip (length (tokens e)) self in
  let ev := eval R (_variables self) (_functions self) e in
  (level e <= 0 -> stop0 (head rest) = true ->
   Parses (handle_primary_expression R) self ev self')
  /\ (level e <= 1 -> stop0 (head rest) = true ->
      Parses (handle_unary_expression R) self ev self')
  /\ (level e <= 2 -> stop2 (head rest) = true ->
      Parses (handle_power_expression R) self ev self')
  /\ (level e <= 3 -> stop2 (head rest) = true ->
      Continues (handle_multiplicative_expression R) (multiplicative_loop R)
                self ev self')
  /\ (stop3 (head rest) = true ->
      Continues (handle_additive_expression R) (additive_loop R) self ev self').

(** What the methods make of an expression wherever its tokens stand. *)
Definition Parsed (R : Runtime) (e : expr) : Prop :=
  forall self rest, here self = (tokens e ++ rest)%list -> ParsedAt R e self rest.

(** A method read the expression [e] at the cursor of [self]: it returned
    the value [v] of [e] and left [self'], the cursor behind the tokens of
    [e]. *)
Definition Read (R : Runtime) (e : expr) (self : Calculator.t) (v : value)
  (self' : Calculator.t) : Prop :=
  well_formed e
  /\ here self = (tokens e ++ here self')%list
  /\ self' = skip (length (tokens e)) self
  /\ eval R (_variables self) (_functions self) e = Ok v.

(** [m'] does what [m] does wherever [m] ends. *)
Definition at_least {A : Type} (m m' : M A) : Prop :=
  forall c r c', m c = (r, c') -> r <> OutOfFuel -> m' c = (r, c').

End Grammar.

(** ** main.py

    The control of the loop of [main] on the lines that [input] returns:
    the branch that a line takes, and the calculator that the next
    iteration finds.  The texts that the loop prints are not modelled, nor
    the exceptions of [input] itself; the handlers of the loop catch every
    exception that [calculate] or a call of [print] raises, so that of the
    branches only the first one leaves the loop. *)

Module Repl.
Import PyStr Numeric Calculator.

(** [c.lower()] on the code points below 256: the letters [A] to [Z] and
    the capital letters of Latin-1, U+00C0 to U+00DE without the
    multiplication sign U+00D7. *)
Definition lower_char (c : ascii) : ascii :=
  if in_range "A" "Z" c || (in_range "192" "222" c && negb (code c =? 215)%N)
  then ascii_of_N (code c + 32)
  else c.

Definition lower (s : list ascii) : list ascii := map lower_char s.

(** [s.startswith(p)], and [p in s] for two strings. *)
Fixpoint starts_with (p s : list ascii) : bool :=
  match p, s with
  | [], _ => true
  | x :: p', y :: s' => Ascii.eqb x y && starts_with p' s'
  | _ :: _, [] => false
  end.

Fixpoint occurs_in (p s : list ascii) : bool :=
  starts_with p s
  || match s with
     | [] => false
     | _ :: s' => occurs_in p s'
     end.

(** The branches of the loop body, in the order of their tests. *)
Inductive branch : Type :=
| Exit                              (* main.py, lines 15 to 17 *)
| Empty                             (* lines 19 and 20 *)
| Vars                              (* lines 22 to 30 *)
| Funcs                             (* lines 32 to 35 *)
| Clear                             (* lines 37 to 40 *)
| Evaluate (user_input : string).   (* lines 43 and 44 *)

(** The branch that the line returned by [input] takes. *)
Definition branch_of (line : string) : branch :=
  let user_input := strip (chars line) in
  if occurs_in (lower user_input) (chars "exit"%string) then Exit
  else
    match user_input with
    | [] => Empty
    | _ =>
        if (text user_input =? "vars")%string then Vars
        else if (text user_input =? "funcs")%string then Funcs
        else if (text user_input =? "clear")%string then Clear
        else Evaluate (text user_input)
    end.

(** One iteration of the loop on a line: the calculator that the next
    iteration finds, or [None] at the [break]. *)
Definition iteration (R : Runtime) (line : string) (calculator : Calculator.t)
  : option Calculator.t :=
  match branch_of line with
  | Exit => None
  | Empty | Vars | Funcs => Some calculator
  | Clear => Some (clear_variables calculator)
  | Evaluate user_input => Some (snd (calculate R (Str user_input) calculator))
  end.

(** The calculator when the loop has read the lines, or has left at one of
    them. *)
Fixpoint loop (R : Runtime) (lines : list string) (calculator : Calculator.t)
  : Calculator.t :=
  match lines with
  | [] => calculator
  | line :: lines' =>
      match iteration R line calculator with
      | Some calculator' => loop R lines' calculator'
      | None => calculator
      end
  end.

(** [main], on the lines that [input] returns. *)
Definition main (R : Runtime) (lines : list string) : Calculator.t :=
  loop R lines Calculator.init.

(** The strings that a string starts with, and the strings that occur in
    it. *)
Fixpoint prefixes (s : list ascii) : list (list ascii) :=
  [] :: match s with
        | [] => []
        | x :: s' => map (cons x) (prefixes s')
        end.

Fixpoint segments (s : list ascii) : list (list ascii) :=
  prefixes s ++ match s with
                | [] => []
                | _ :: s' => segments s'
                end.

End Repl.

(** * Properties *)

Import PyStr Re Numeric Calculator Notions.

(** ** The matcher *)

Lemma forallb_weaken {A : Type} (f g : A -> bool) (l : list A) :
  (forall a, f a = true -> g a = true) -> forallb f l = true -> forallb g l = true.
Proof.
  intros Hfg. induction l as [|a l IH]; simpl; [easy|].
  intros [Ha Hl]%andb_true_iff. rewrite (Hfg a Ha). now apply IH.
Qed.

Section Matcher.
Context {X : Type}.

Lemma run_star_unfold (r : regex) (s : list ascii) (k : list ascii -> option X) :
  run (Star r) s k =
  (fix iterate (n : nat) (s : list ascii) {struct n} : option X :=
     match n with
     | O => k s
     | S n' =>
         match run r s (fun s' =>
                   if (length s' <? length s)%nat then iterate n' s' else None) with
         | Some x => Some x
         | None => k s
         end
     end) (length s) s.
Proof. reflexivity. Qed.

(** A successful run hands a suffix of the input to its continuation; the
    prefix it consumed is made of characters of the pattern, and is not
    empty unless the pattern is nullable. *)
Lemma run_inv (r : regex) :
  forall (s : list ascii) (k : list ascii -> option X) (x : X),
    run r s k = Some x ->
    exists pre rest,
      s = pre ++ rest /\ k rest = Some x /\
      forallb (accepts r) pre = true /\
      (nullable r = false -> pre <> []).
Proof.
  induction r as [|c|ranges|r1 IH1 r2 IH2|r1 IH1 r2 IH2|r1 IH1]; intros s k x H.
  - exists [], s. simpl in *. repeat split; auto; try easy.
  - destruct s as [|a s']; simpl in H; [discriminate|].
    destruct (Ascii.eqb a c) eqn:E; [|discriminate].
    exists [a], s'. simpl. rewrite E. repeat split; auto; try easy.
  - destruct s as [|a s']; simpl in H; [discriminate|].
    destruct (in_class ranges a) eqn:E; [|discriminate].
    exists [a], s'. simpl. rewrite E. repeat split; auto; try easy.
  - simpl in H. apply IH1 in H as (p1 & t1 & -> & H & A1 & N1).
    apply IH2 in H as (p2 & t2 & -> & H & A2 & N2).
    exists (p1 ++ p2), t2. rewrite <- app_assoc. repeat split; auto.
    + rewrite forallb_app. simpl. apply andb_true_iff. split.
      * eapply forallb_weaken; [|exact A1]. intros a Ha. simpl. now rewrite Ha.
      * eapply forallb_weaken; [|exact A2]. intros a Ha. simpl. rewrite Ha.
        apply orb_true_r.
    + simpl. intros N E. apply app_eq_nil in E as [E1 E2].
      apply andb_false_iff in N as [N|N]; [now apply N1|now apply N2].
  - simpl in H. destruct (run r1 s k) eqn:E.
    + injection H as ->. apply IH1 in E as (p & t & -> & H & A & N).
      exists p, t. repeat split; auto.
      * eapply forallb_weaken; [|exact A]. intros a Ha. simpl. now rewrite Ha.
      * simpl. intros N'. apply orb_false_iff in N' as [N' _]. auto.
    + apply IH2 in H as (p & t & -> & H & A & N).
      exists p, t. repeat split; auto.
      * eapply forallb_weaken; [|exact A]. intros a Ha. simpl. rewrite Ha.
        apply orb_true_r.
      * simpl. intros N'. apply orb_false_iff in N' as [_ N']. auto.
  - rewrite run_star_unfold in H. revert H. generalize (length s) at 1.
    intros n. revert s. induction n as [|n IHn]; intros s H.
    + exists [], s. simpl. repeat split; auto; try easy.
    + match type of H with
      | match ?m with _ => _ end = _ => destruct m eqn:E
      end.
      * injection H as ->. apply IH1 in E as (p & t & -> & H & A & _).
        destruct (length t <? length (p ++ t))%nat; [|discriminate].
        apply IHn in H as (p' & t' & -> & H & A' & _).
        exists (p ++ p'), t'. rewrite <- app_assoc. repeat split; auto.
        rewrite forallb_app. apply andb_true_iff. split; auto.
      * exists [], s. simpl. repeat split; auto; try easy.
Qed.

(** A star and an option succeed whenever what follows them succeeds. *)
Lemma run_star_some (r : regex) (k : list ascii -> option X) :
  (forall s, is_Some (k s)) -> forall s, is_Some (run (Star r) s k).
Proof.
  intros Hk s. rewrite run_star_unfold. generalize (length s) at 1.
  intros n. destruct n as [|n]; [apply Hk|].
  match goal with |- is_Some (match ?m with _ => _ end) => destruct m end;
    [eauto|apply Hk].
Qed.

Lemma run_opt_some (r : regex) (k : list ascii -> option X) (s : list ascii) :
  is_Some (k s) -> is_Some (run (Opt r) s k).
Proof.
  intros Hk. unfold Opt. simpl. destruct (run r s k); [eauto|exact Hk].
Qed.

Lemma run_alt_some (r1 r2 : regex) (k : list ascii -> option X) (s : list ascii) :
  is_Some (run r1 s k) \/ is_Some (run r2 s k) -> is_Some (run (Alt r1 r2) s k).
Proof.
  simpl. intros [H|H]; destruct (run r1 s k); eauto. now destruct H.
Qed.

End Matcher.
(** ** The scan of [findall] *)

Lemma match_prefix_split (r : regex) (s rest : list ascii) :
  match_prefix r s = Some rest ->
  exists pre, s = pre ++ rest /\ forallb (accepts r) pre = true
              /\ take (length s - length rest) s = pre.
Proof.
  intros H. apply run_inv in H as (pre & t & -> & [= ->] & A & _).
  exists pre. repeat split; auto.
  rewrite length_app.
  replace (length pre + length rest - length rest) with (length pre) by lia.
  now rewrite take_app_length.
Qed.

Section Scan.
Variable r : regex.

Lemma scan_skip (c : ascii) (s : list ascii) (skip : nat) :
  scan r (c :: s) (S skip) = scan r s skip.
Proof. reflexivity. Qed.

Lemma scan_nil (skip : nat) : concat (scan r [] skip) = [].
Proof.
  destruct skip; simpl; [|reflexivity].
  destruct (match_prefix r []); reflexivity.
Qed.

(** The scan at a position: nothing when the pattern does not match, the
    matched text and the scan behind it when it does. *)
Lemma scan_here (c : ascii) (s : list ascii) :
  match match_prefix r (c :: s) with
  | None => scan r (c :: s) 0 = scan r s 0
  | Some rest =>
      exists pre, c :: s = pre ++ rest /\ forallb (accepts r) pre = true /\
                  scan r (c :: s) 0 = pre :: scan r s (length pre - 1)
  end.
Proof.
  destruct (match_prefix r (c :: s)) as [rest|] eqn:E.
  - pose proof (match_prefix_split _ _ _ E) as (pre & Es & A & T).
    exists pre. repeat split; auto.
    change (scan r (c :: s) 0) with
      (match match_prefix r (c :: s) with
       | Some rest => take (length (c :: s) - length rest) (c :: s)
                        :: scan r s (length (c :: s) - length rest - 1)
       | None => scan r s 0
       end).
    rewrite E, T. do 2 f_equal. rewrite Es, length_app. lia.
  - change (scan r (c :: s) 0) with
      (match match_prefix r (c :: s) with
       | Some rest => take (length (c :: s) - length rest) (c :: s)
                        :: scan r s (length (c :: s) - length rest - 1)
       | None => scan r s 0
       end).
    now rewrite E.
Qed.

(** Every token consists of characters of the pattern. *)
Lemma scan_accepts (s : list ascii) :
  forall skip, Forall (fun tok => forallb (accepts r) tok = true) (scan r s skip).
Proof.
  induction s as [|c s IH]; intros [|skip].
  - simpl. destruct (match_prefix r []) eqn:E; [|constructor].
    apply match_prefix_split in E as (pre & E & A & _).
    symmetry in E. apply app_eq_nil in E as [-> _]. repeat constructor.
  - constructor.
  - pose proof (scan_here c s) as H.
    destruct (match_prefix r (c :: s)); [|rewrite H; apply IH].
    destruct H as (pre & _ & A & ->). constructor; auto.
  - rewrite scan_skip. apply IH.
Qed.

(** The tokens, put together, are what is left of the input after deleting
    characters. *)
Lemma scan_sublist (s : list ascii) :
  forall skip, concat (scan r s skip) `sublist_of` drop skip s.
Proof.
  induction s as [|c s IH]; intros [|skip].
  - rewrite scan_nil. reflexivity.
  - reflexivity.
  - pose proof (scan_here c s) as H. rewrite drop_0.
    destruct (match_prefix r (c :: s)) as [rest|];
      [|rewrite H; apply sublist_cons; specialize (IH 0); now rewrite drop_0 in IH].
    destruct H as (pre & E & _ & ->). rewrite E. simpl.
    apply sublist_app; [reflexivity|].
    destruct pre as [|c' pre]; simpl in *.
    + subst rest. apply sublist_cons. specialize (IH 0). now rewrite drop_0 in IH.
    + injection E as <- ->. rewrite Nat.sub_0_r.
      specialize (IH (length pre)). now rewrite drop_app_length in IH.
  - rewrite scan_skip. apply IH.
Qed.

(** Characters at which the pattern always matches are never dropped. *)
Lemma scan_keeps (keep : ascii -> bool) :
  (forall c s, keep c = true ->
               exists pre rest, match_prefix r (c :: s) = Some rest /\ s = pre ++ rest) ->
  forall s skip,
    List.filter keep (concat (scan r s skip)) = List.filter keep (drop skip s).
Proof.
  intros Hkeep s. induction s as [|c s IH]; intros [|skip].
  - now rewrite scan_nil.
  - reflexivity.
  - pose proof (scan_here c s) as H. rewrite drop_0.
    destruct (match_prefix r (c :: s)) as [rest|] eqn:E.
    + destruct H as (pre & Es & _ & ->).
      destruct pre as [|c' pre]; simpl in *.
      * subst rest. destruct (keep c) eqn:K.
        -- destruct (Hkeep c s K) as (pre & rest' & E' & Es).
           rewrite E in E'. injection E' as <-.
           apply (f_equal length) in Es. rewrite length_app in Es. simpl in Es. lia.
        -- specialize (IH 0). now rewrite drop_0 in IH.
      * injection Es as <- ->. rewrite Nat.sub_0_r.
        specialize (IH (length pre)). rewrite drop_app_length in IH.
        destruct (keep c); rewrite !List.filter_app, IH; reflexivity.
    + rewrite H. simpl. destruct (keep c) eqn:K.
      * destruct (Hkeep c s K) as (pre & rest' & E' & _). congruence.
      * specialize (IH 0). now rewrite drop_0 in IH.
  - rewrite scan_skip. apply IH.
Qed.

End Scan.

(** ** The tokenizer *)

Lemma chars_text (s : list ascii) : chars (text s) = s.
Proof. apply list_ascii_of_string_of_list_ascii. Qed.

Lemma reassemble_texts (tokens : list (list ascii)) :
  reassemble (map text tokens) = concat tokens.
Proof.
  unfold reassemble. induction tokens as [|tok tokens IH]; simpl; [reflexivity|].
  now rewrite chars_text, IH.
Qed.

Lemma core_char_not_whitespace (c : ascii) :
  core_char c = true -> is_whitespace c = false.
Proof.
  destruct c as [[] [] [] [] [] [] [] []]; vm_compute; congruence.
Qed.

Lemma core_char_token_char (c : ascii) : core_char c = true -> token_char c = true.
Proof.
  destruct c as [[] [] [] [] [] [] [] []]; vm_compute; congruence.
Qed.

Lemma run_seq {X : Type} (r1 r2 : regex) (s : list ascii) (k : list ascii -> option X) :
  run (Seq r1 r2) s k = run r1 s (fun s' => run r2 s' k).
Proof. reflexivity. Qed.

Lemma run_class {X : Type} (ranges : list (ascii * ascii)) (c : ascii)
      (s : list ascii) (k : list ascii -> option X) :
  run (Class ranges) (c :: s) k = if in_class ranges c then k s else None.
Proof. reflexivity. Qed.

(** The pattern matches wherever a core character stands, and takes it. *)
Lemma token_pattern_at_core (c : ascii) (s : list ascii) :
  core_char c = true ->
  exists pre rest,
    match_prefix Tokenizer.TOKEN_PATTERN (c :: s) = Some rest /\ s = pre ++ rest.
Proof.
  intros Hc.
  assert (Hsome : is_Some (match_prefix Tokenizer.TOKEN_PATTERN (c :: s))).
  { unfold match_prefix, Tokenizer.TOKEN_PATTERN.
    apply run_alt_some. right. apply run_alt_some. right.
    unfold core_char in Hc.
    destruct (accepts Tokenizer.DIGIT c) eqn:Hd.
    - apply run_alt_some. left. unfold Tokenizer.NUMBER, Plus.
      rewrite !run_seq. unfold Tokenizer.DIGIT at 1. rewrite run_class.
      change (in_class [("0", "9")] c) with (accepts Tokenizer.DIGIT c). rewrite Hd.
      apply run_star_some. intros s'. apply run_opt_some. eauto.
    - apply run_alt_some. right.
      destruct (in_class Tokenizer.ALPHA_ c) eqn:Ha.
      + apply run_alt_some. left. unfold Tokenizer.IDENTIFIER.
        rewrite run_seq, run_class, Ha. apply run_star_some. eauto.
      + apply run_alt_some. right. unfold Tokenizer.OPERATOR_CHAR.
        rewrite run_class.
        assert (Hop : accepts Tokenizer.OPERATOR_CHAR c = true).
        { revert Hc Hd Ha. destruct c as [[] [] [] [] [] [] [] []]; vm_compute; congruence. }
        change (accepts Tokenizer.OPERATOR_CHAR c) with
          (in_class [("+", "+"); ("-", "-"); ("*", "*"); ("/", "/"); ("%", "%");
                     ("=", "="); ("(", "("); (")", ")"); (",", ",")] c) in Hop.
        rewrite Hop. eauto. }
  destruct Hsome as [rest E]. pose proof E as E'.
  apply run_inv in E' as (pre & t & Es & [= ->] & _ & N).
  destruct pre as [|c' pre]; [now specialize (N eq_refl)|].
  injection Es as <- ->. eauto.
Qed.

(** [strip] and [replace] only delete characters, none of them a core
    character. *)
Lemma lstrip_drop (s : list ascii) : exists n, lstrip s = drop n s.
Proof.
  induction s as [|c s [n IH]]; [now exists 0|]. simpl.
  destruct (is_whitespace c); [now exists (S n)|now exists 0].
Qed.

Lemma strip_sublist (s : list ascii) : strip s `sublist_of` s.
Proof.
  unfold strip, rstrip.
  destruct (lstrip_drop s) as [n ->].
  destruct (lstrip_drop (rev (drop n s))) as [m ->].
  rewrite skipn_rev, rev_involutive.
  etransitivity; [apply sublist_take|apply sublist_drop].
Qed.

Lemma filter_sublist (f : ascii -> bool) (s : list ascii) :
  List.filter f s `sublist_of` s.
Proof.
  induction s as [|c s IH]; simpl; [reflexivity|].
  destruct (f c); [now apply sublist_skip|now apply sublist_cons].
Qed.

Section Kept.
Variable keep : ascii -> bool.
Hypothesis keep_not_whitespace : forall c, keep c = true -> is_whitespace c = false.

Lemma filter_lstrip (s : list ascii) :
  List.filter keep (lstrip s) = List.filter keep s.
Proof using keep_not_whitespace.
  induction s as [|c s IH]; simpl; [reflexivity|].
  destruct (is_whitespace c) eqn:W; [|reflexivity].
  destruct (keep c) eqn:K; [|exact IH].
  apply keep_not_whitespace in K. congruence.
Qed.

Lemma filter_strip (s : list ascii) :
  List.filter keep (strip s) = List.filter keep s.
Proof using keep_not_whitespace.
  unfold strip, rstrip.
  rewrite List.filter_rev, filter_lstrip, List.filter_rev, rev_involutive.
  apply filter_lstrip.
Qed.

Lemma filter_remove_space (s : list ascii) :
  List.filter keep (remove " " s) = List.filter keep s.
Proof using keep_not_whitespace.
  unfold remove. induction s as [|c s IH]; simpl; [reflexivity|].
  destruct (Ascii.eqb c " ") eqn:E; simpl.
  - apply Ascii.eqb_eq in E as ->.
    destruct (keep " ") eqn:K; [|exact IH].
    apply keep_not_whitespace in K. discriminate.
  - now rewrite IH.
Qed.

End Kept.

(** What a successful [tokenize] returns. *)
Lemma tokenize_inv (self : TokenizerObject) (expression : object) (tokens : list string) :
  Tokenizer.tokenize self expression = Ok tokens ->
  exists s,
    expression = Str s /\ strip (chars s) <> [] /\
    tokens = map text (findall (_token_pattern self) (remove " " (strip (chars s)))).
Proof.
  destruct expression as [s| |]; simpl; try discriminate.
  destruct (strip (chars s)) eqn:E; [discriminate|].
  intros [= <-]. exists s. rewrite E. repeat split. discriminate.
Qed.

(** C8 (as the code has it): the predicate ignores where the points stand and
    how many there are; the string [1.2.3], which is no number of the lexical
    grammar, passes it. *)
Theorem is_digit_token_two_points :
  Tokenizer.is_digit_token (Str "1.2.3") = true
  /\ number_shape "1.2.3" = false.
Proof. split; reflexivity. Qed.

(** A string that passes [is_digit_token] is made of digits and points. *)
Lemma is_digit_token_chars (s : string) :
  Tokenizer.is_digit_token (Str s) = true ->
  chars s <> [] /\
  forallb (fun c => is_digit_char c || Ascii.eqb c ".") (chars s) = true.
Proof.
  unfold Tokenizer.is_digit_token, isdigit, remove. intros H.
  assert (Hall : forallb is_digit_char
                   (List.filter (fun x => negb (Ascii.eqb x ".")) (chars s)) = true).
  { destruct (List.filter _ (chars s)); [discriminate|exact H]. }
  split.
  - intros E. rewrite E in H. discriminate.
  - clear H. induction (chars s) as [|c l IH]; simpl in *; [reflexivity|].
    destruct (Ascii.eqb c "."); simpl in *.
    + rewrite orb_true_r. auto.
    + apply andb_true_iff in Hall as [-> Hall]. auto.
Qed.

Lemma token_char_not_whitespace (c : ascii) :
  token_char c = true -> negb (is_whitespace c) = true.
Proof.
  destruct c as [[] [] [] [] [] [] [] []]; vm_compute; congruence.
Qed.

Lemma filter_sublist_mono (f : ascii -> bool) (l1 l2 : list ascii) :
  l1 `sublist_of` l2 -> List.filter f l1 `sublist_of` List.filter f l2.
Proof.
  induction 1 as [|c l1 l2 _ IH|c l1 l2 _ IH]; simpl.
  - reflexivity.
  - destruct (f c); [now apply sublist_skip|exact IH].
  - destruct (f c); [now apply sublist_cons|exact IH].
Qed.

Lemma filter_all (f : ascii -> bool) (l : list ascii) :
  forallb f l = true -> List.filter f l = l.
Proof.
  induction l as [|c l IH]; simpl; [reflexivity|].
  intros [-> Hl]%andb_true_iff. now rewrite IH.
Qed.

Lemma forallb_concat (f : ascii -> bool) (ls : list (list ascii)) :
  Forall (fun l => forallb f l = true) ls -> forallb f (concat ls) = true.
Proof.
  induction 1 as [|l ls Hl _ IH]; simpl; [reflexivity|].
  rewrite forallb_app, Hl, IH. reflexivity.
Qed.

(** The tokens of [tokenize] consist of characters that the pattern of the
    tokenizer accepts. *)
Lemma tokenize_accepts (self : TokenizerObject) (expression : object)
      (tokens : list string) :
  Tokenizer.tokenize self expression = Ok tokens ->
  Forall (fun tok => forallb (accepts (_token_pattern self)) (chars tok) = true) tokens.
Proof.
  intros (s & _ & _ & ->)%tokenize_inv.
  apply Forall_map. eapply Forall_impl; [apply scan_accepts|].
  intros tok H. simpl. now rewrite chars_text.
Qed.

(** C9 (as stated, refuted): the tokens of [2@+3] put together read [2+3];
    the character [@], which is no whitespace, is lost. *)
Lemma roundtrip_loses_at_sign :
  Tokenizer.tokenize Tokenizer.init (Str "2@+3") = Ok ["2"; "+"; "3"]%string
  /\ reassemble ["2"; "+"; "3"]%string <> without_whitespace (chars "2@+3").
Proof. split; [reflexivity|discriminate]. Qed.

(** C9 (amended): for every input that [tokenize] accepts, the text of the
    tokens put together is the input without its whitespace from which
    characters have been deleted, none altered, added or moved; and no
    digit, letter, underscore, operator or punctuation character is among
    the deleted ones. *)
Theorem tokenize_roundtrip (s : string) (tokens : list string) :
  Tokenizer.tokenize Tokenizer.init (Str s) = Ok tokens ->
  reassemble tokens `sublist_of` without_whitespace (chars s)
  /\ List.filter core_char (reassemble tokens) = List.filter core_char (chars s).
Proof.
  intros H. pose proof (tokenize_accepts _ _ _ H) as Hacc.
  apply tokenize_inv in H as (s' & [= <-] & _ & ->).
  simpl _token_pattern in *. rewrite reassemble_texts. split.
  - assert (Hsub : concat (findall Tokenizer.TOKEN_PATTERN (remove " " (strip (chars s))))
                     `sublist_of` chars s).
    { etransitivity; [apply (scan_sublist _ _ 0)|]. rewrite drop_0.
      etransitivity; [apply filter_sublist|apply strip_sublist]. }
    apply (filter_sublist_mono (fun c => negb (is_whitespace c))) in Hsub.
    rewrite filter_all in Hsub; [exact Hsub|].
    rewrite <- reassemble_texts. unfold reassemble. apply forallb_concat.
    apply Forall_map. eapply Forall_impl; [exact Hacc|].
    intros tok Htok. simpl. eapply forallb_weaken; [|exact Htok].
    apply token_char_not_whitespace.
  - unfold findall.
    rewrite (scan_keeps _ core_char (token_pattern_at_core)), drop_0.
    rewrite (filter_remove_space _ core_char_not_whitespace).
    apply (filter_strip _ core_char_not_whitespace).
Qed.

Lemma tokenize_roundtrip_witness :
  reassemble ["3.5"; "*"; "("; "x1"; "+"; "2"; ")"]%string
    `sublist_of` without_whitespace (chars " 3.5 * (x1 + 2.) ")
  /\ List.filter core_char (reassemble ["3.5"; "*"; "("; "x1"; "+"; "2"; ")"]%string)
     = List.filter core_char (chars " 3.5 * (x1 + 2.) ").
Proof.
  apply (tokenize_roundtrip " 3.5 * (x1 + 2.) "). reflexivity.
Defined.

(** C10: [tokenize] fails exactly when its argument is no string or is empty
    once trimmed; when it succeeds, no token holds a character that the
    pattern does not accept, so such characters ([@] and [$] among them) are
    dropped without an error: [2@+3] gives the tokens of [2+3]. *)
Theorem tokenize_discards_unmatched (self : TokenizerObject) (expression : object) :
  ((exists tokens, Tokenizer.tokenize self expression = Ok tokens) <->
   (exists s, expression = Str s /\ strip (chars s) <> []))
  /\ (forall tokens,
         Tokenizer.tokenize self expression = Ok tokens ->
         Forall (fun tok => forallb (accepts (_token_pattern self)) (chars tok) = true)
                tokens)
  /\ token_char "@" = false /\ token_char "$" = false
  /\ Tokenizer.tokenize Tokenizer.init (Str "2@+3")
     = Tokenizer.tokenize Tokenizer.init (Str "2+3").
Proof.
  split; [|split; [apply tokenize_accepts|repeat split; reflexivity]].
  split.
  - intros [tokens (s & -> & Hs & _)%tokenize_inv]. eauto.
  - intros (s & -> & Hs). simpl. destruct (strip (chars s)); [easy|eauto].
Qed.

Lemma tokenize_discards_unmatched_witness :
  Forall (fun tok => forallb token_char (chars tok) = true) ["2"; "+"; "3"]%string.
Proof.
  apply (tokenize_discards_unmatched Tokenizer.init (Str "2@+3")). reflexivity.
Defined.

(** ** More on the tokenizer *)

(** The end of the input, as the continuation of [fullmatch]. *)
Lemma star_class_fullmatch (ranges : list (ascii * ascii)) (s : list ascii) :
  run (Star (Class ranges)) s
      (fun rest => match rest with [] => Some tt | _ => None end)
  = if forallb (in_class ranges) s then Some tt else None.
Proof.
  rewrite run_star_unfold.
  assert (H : forall n s, length s <= n ->
    (fix iterate (n : nat) (s : list ascii) {struct n} : option unit :=
       match n with
       | O => match s with [] => Some tt | _ => None end
       | S n' =>
           match run (Class ranges) s (fun s' =>
                     if (length s' <? length s)%nat then iterate n' s' else None) with
           | Some x => Some x
           | None => match s with [] => Some tt | _ => None end
           end
       end) n s = if forallb (in_class ranges) s then Some tt else None).
  { clear s. induction n as [|n IH]; intros [|c s] Hlen; simpl in *; try lia; try reflexivity.
    destruct (in_class ranges c); simpl; [|reflexivity].
    destruct (Nat.ltb_spec (length s) (S (length s))) as [_|]; [|lia].
    rewrite IH by lia. now destruct (forallb (in_class ranges) s). }
  now apply H.
Qed.

(** X1: [is_identifier] holds exactly of the strings that start with a letter
    or an underscore and go on with letters, digits and underscores; it is
    false of the empty string and of what is not a string. *)
Theorem is_identifier_spec (token : object) :
  Tokenizer.is_identifier token = true <->
  exists c rest,
    token = Str (String c rest)
    /\ in_class Tokenizer.ALPHA_ c = true
    /\ forallb (in_class (Tokenizer.ALPHA_ ++ [("0", "9")])) (chars rest) = true.
Proof.
  destruct token as [[|c rest]| |]; simpl;
    try (split; [discriminate|intros (? & ? & [=] & _)]).
  unfold fullmatch, Tokenizer.IDENTIFIER. rewrite run_seq, run_class.
  destruct (in_class Tokenizer.ALPHA_ c) eqn:Hc.
  - change (list_ascii_of_string rest) with (chars rest).
    rewrite star_class_fullmatch.
    destruct (forallb _ (chars rest)) eqn:Hrest.
    + split; [intros _; eauto|reflexivity].
    + split; [discriminate|]. intros (c' & rest' & [= <- <-] & _ & H).
      discriminate (eq_trans (eq_sym H) Hrest).
  - split; [discriminate|]. intros (c' & rest' & [= <- <-] & H & _).
    discriminate (eq_trans (eq_sym H) Hc).
Qed.

Lemma isdigit_remove_points (l : list ascii) :
  isdigit (remove "." l) = true <->
  forallb (fun c => is_digit_char c || Ascii.eqb c ".") l = true
  /\ existsb is_digit_char l = true.
Proof.
  assert (H1 : forallb is_digit_char (remove "." l) = true <->
               forallb (fun c => is_digit_char c || Ascii.eqb c ".") l = true).
  { unfold remove. induction l as [|c l IH]; simpl; [tauto|].
    destruct (Ascii.eqb c "."); simpl.
    - now rewrite orb_true_r.
    - rewrite orb_false_r, !andb_true_iff, IH. tauto. }
  assert (H2 : forallb (fun c => is_digit_char c || Ascii.eqb c ".") l = true ->
               (remove "." l <> [] <-> existsb is_digit_char l = true)).
  { unfold remove. induction l as [|c l IH]; simpl; [intros _; split; easy|].
    intros [Hc Hl]%andb_true_iff. destruct (Ascii.eqb c ".") eqn:E; simpl.
    - apply Ascii.eqb_eq in E as ->. change (is_digit_char ".") with false. auto.
    - rewrite orb_false_r in Hc. rewrite Hc. split; [reflexivity|discriminate]. }
  unfold isdigit. destruct (remove "." l) eqn:E.
  - split; [discriminate|]. intros [A B]. apply (H2 A) in B. congruence.
  - rewrite H1. split; [|tauto]. intros A. split; [exact A|]. apply (H2 A). discriminate.
Qed.

(** X2: [is_digit_token] holds exactly of the strings that consist of
    digit characters and points, however many points and wherever they
    stand, and have a digit character. *)
Theorem is_digit_token_spec (token : object) :
  Tokenizer.is_digit_token token = true <->
  exists s,
    token = Str s
    /\ forallb (fun c => is_digit_char c || Ascii.eqb c ".") (chars s) = true
    /\ existsb is_digit_char (chars s) = true.
Proof.
  destruct token as [s| |]; simpl;
    try (split; [discriminate|intros (? & [=] & _)]).
  rewrite isdigit_remove_points.
  split; [intros [? ?]; eauto|intros (s' & [= <-] & ? & ?); auto].
Qed.

(** [strip] commutes with the removal of the spaces. *)
Lemma lstrip_head (s : list ascii) (c : ascii) (rest : list ascii) :
  lstrip s = c :: rest -> is_whitespace c = false.
Proof.
  induction s as [|a s IH]; simpl; [discriminate|].
  destruct (is_whitespace a) eqn:W; [exact IH|]. now intros [= <- _].
Qed.

Lemma remove_rev (c : ascii) (s : list ascii) : remove c (rev s) = rev (remove c s).
Proof. apply List.filter_rev. Qed.

Lemma remove_lstrip (s : list ascii) :
  remove " " (lstrip s) = lstrip (remove " " s).
Proof.
  induction s as [|c s IH]; simpl; [reflexivity|].
  destruct (is_whitespace c) eqn:W.
  - destruct (Ascii.eqb c " ") eqn:E; simpl; [exact IH|]. now rewrite W.
  - destruct (Ascii.eqb c " ") eqn:E; simpl.
    + apply Ascii.eqb_eq in E as ->. discriminate.
    + rewrite W. unfold remove. simpl. now rewrite E.
Qed.

Lemma remove_strip (s : list ascii) :
  remove " " (strip s) = strip (remove " " s).
Proof.
  unfold strip, rstrip.
  now rewrite remove_rev, remove_lstrip, remove_rev, remove_lstrip.
Qed.

Lemma strip_head (s : list ascii) (c : ascii) (rest : list ascii) :
  strip s = c :: rest -> is_whitespace c = false.
Proof.
  unfold strip, rstrip. intros H.
  destruct (lstrip_drop (rev (lstrip s))) as [n Hn]. rewrite Hn in H.
  rewrite skipn_rev, rev_involutive in H.
  destruct (lstrip s) as [|a l] eqn:E.
  - rewrite take_nil in H. discriminate.
  - destruct (length (a :: l) - n) eqn:En; simpl in H; [discriminate|].
    injection H as <- _. eapply lstrip_head, E.
Qed.

Lemma strip_nil_iff (s : list ascii) :
  strip s = [] <-> strip (remove " " s) = [].
Proof.
  rewrite <- remove_strip. split; [now intros ->|].
  destruct (strip s) as [|c rest] eqn:E; [reflexivity|].
  unfold remove. simpl. destruct (Ascii.eqb c " ") eqn:Ec; [|discriminate].
  apply Ascii.eqb_eq in Ec as ->. apply strip_head in E. discriminate.
Qed.

(** X3: the spaces of the input do not count, wherever they stand, between
    tokens or inside a number or a name: two strings that differ only in
    their spaces give the same tokens or the same error. *)
Theorem tokenize_ignores_spaces (self : TokenizerObject) (s1 s2 : string) :
  remove " " (chars s1) = remove " " (chars s2) ->
  Tokenizer.tokenize self (Str s1) = Tokenizer.tokenize self (Str s2).
Proof.
  intros H. unfold Tokenizer.tokenize.
  assert (H1 := remove_strip (chars s1)). assert (H2 := remove_strip (chars s2)).
  assert (N1 := strip_nil_iff (chars s1)). assert (N2 := strip_nil_iff (chars s2)).
  rewrite H in H1, N1. rewrite <- H2 in H1. rewrite <- N2 in N1.
  destruct (strip (chars s1)) as [|c1 r1], (strip (chars s2)) as [|c2 r2];
    try reflexivity.
  - destruct N1 as [N1 _]. now specialize (N1 eq_refl).
  - destruct N1 as [_ N1]. now specialize (N1 eq_refl).
  - now rewrite H1.
Qed.

Lemma tokenize_ignores_spaces_witness :
  Tokenizer.tokenize Tokenizer.init (Str "1 2 + le t")
  = Tokenizer.tokenize Tokenizer.init (Str "12+let").
Proof.
  apply (tokenize_ignores_spaces Tokenizer.init "1 2 + le t" "12+let").
  reflexivity.
Defined.

(** ** The operators *)

Local Open Scope string_scope.




(** C3 (as stated, refuted): with a float operand and the divisor zero,
    [//] fails with the zero-divisor error, not with the type error. *)
Lemma float_floor_division_by_zero :
  apply_multiplicative ExampleRuntime.runtime "//" (VFloat 5) (VInt 0)
  = Raise (ValueError (Template "integer_division_by_zero" []))
  /\ fst (calculate ExampleRuntime.runtime (Str "5.0 // 0") Calculator.init)
     = Raises (ValueError (Template "integer_division_by_zero" [])).
Proof. split; reflexivity. Qed.

(** C3 (amended): when an operand of [//] or [%] is a float, the operation
    fails with the type error if the divisor is not zero, whatever the
    values; if the divisor is zero it fails with the zero-divisor error of
    the operator. *)
Theorem integer_only_operators (R : Runtime) (token : string) (a b : value) :
  token = "//" \/ token = "%" ->
  is_float a = true \/ is_float b = true ->
  apply_multiplicative R token a b =
  if eq_zero b
  then Raise (ValueError
                (Template (if token =? "//" then "integer_division_by_zero"
                           else "modulo_by_zero") []))
  else Raise (ValueError (IntegersOnly token)).
Proof.
  intros [-> | ->] Hfloat; unfold apply_multiplicative; simpl;
    destruct (eq_zero b); try reflexivity;
    destruct a, b; simpl in Hfloat; try reflexivity;
    destruct Hfloat; discriminate.
Qed.

Lemma integer_only_operators_witness :
  apply_multiplicative ExampleRuntime.runtime "//" (VFloat 5.5) (VInt 2)
  = Raise (ValueError (IntegersOnly "//")).
Proof.
  apply (integer_only_operators ExampleRuntime.runtime "//" (VFloat 5.5) (VInt 2)).
  - now left.
  - now left.
Defined.

(** C5 (as stated, refuted): with a divisor that is not zero the quotient of
    two integers can be too large for a float; then [/] raises
    [OverflowError] and gives no float: [10 ** 400 / 1]. *)
Lemma true_division_overflows :
  eq_zero (VInt 1) = false
  /\ apply_multiplicative ExampleRuntime.runtime "/" (VInt (10 ^ 400)) (VInt 1)
     = Raise (OverflowError
                (RuntimeText "integer division result too large for a float"))
  /\ fst (calculate ExampleRuntime.runtime (Str "10 ** 400 / 1") Calculator.init)
     = Raises (OverflowError
                 (RuntimeText "integer division result too large for a float")).
Proof. repeat split; vm_compute; reflexivity. Qed.

(** C5 (amended): with a divisor that is not zero, [a / b] on integers and
    floats is the float [quotient a b], also when operands and quotient are
    integral, and fails only with [OverflowError], when an integer or the
    quotient of two integers is too large for a float; with a [complex]
    operand the result is the [complex] of the runtime, never a float. *)
Theorem true_division_is_float (R : Runtime) (a b : value) :
  eq_zero b = false ->
  apply_multiplicative R "/" a b
  = (if is_real a && is_real b
     then (q <- quotient a b ;; Ok (VFloat q))%exn
     else complex_op R TrueDiv a b)
  /\ (is_real a && is_real b = true ->
      forall e, quotient a b = Raise e ->
                (exists m, e = OverflowError m)
                /\ (is_int a = true \/ is_int b = true))
  /\ (is_real a && is_real b = false ->
      forall v, apply_multiplicative R "/" a b = Ok v -> is_float v = false).
Proof.
  intros Hz.
  assert (Heq : apply_multiplicative R "/" a b
                = (if is_real a && is_real b
                   then (q <- quotient a b ;; Ok (VFloat q))%exn
                   else complex_op R TrueDiv a b)).
  { unfold apply_multiplicative. simpl. rewrite Hz.
    destruct a as [x|x|], b as [y|y|]; try reflexivity;
      unfold py_truediv; rewrite Hz; try reflexivity.
    - simpl. unfold and_then. now destruct (float_of_int x).
    - simpl. unfold and_then. now destruct (float_of_int y). }
  split; [exact Heq|split].
  - intros Hreal e He.
    destruct a as [x|x|], b as [y|y|]; try discriminate; simpl in He.
    + unfold int_true_divide in He. destruct (is_infinity (ratio x y)); [|discriminate].
      injection He as <-. eauto.
    + unfold float_of_int in He. destruct (is_infinity _); [|discriminate].
      injection He as <-. eauto.
    + unfold float_of_int in He. destruct (is_infinity _); [|discriminate].
      injection He as <-. eauto.
  - intros Hreal v. rewrite Heq, Hreal. unfold complex_op.
    destruct (complex_arith R TrueDiv a b) as [e|c]; [discriminate|].
    now intros [= <-].
Qed.

Lemma true_division_is_float_witness :
  apply_multiplicative ExampleRuntime.runtime "/" (VInt 4) (VInt 2) = Ok (VFloat 2).
Proof.
  rewrite (proj1 (true_division_is_float ExampleRuntime.runtime (VInt 4) (VInt 2)
                    eq_refl)).
  reflexivity.
Defined.

(** The quotient [4 / 2] is the float [2.0]. *)
Example four_by_two :
  fst (calculate ExampleRuntime.runtime (Str "4 / 2") Calculator.init)
  = Returns (VFloat 2).
Proof. reflexivity. Qed.

(** ** The evaluator *)

Section Unfolding.
Variable R : Runtime.
Local Open Scope M_scope.

Lemma handle_expression_eq (fuel : nat) :
  handle_expression R (S fuel) = handle_assignment R fuel.
Proof. reflexivity. Qed.

Lemma handle_assignment_eq (fuel : nat) :
  handle_assignment R (S fuel) =
  (token <- get_current_token ;;
   if token_is token "let" then
     consume_token (Some "let") ;;
     variable_name <- get_current_token ;;
     self <- get ;;
     valid <- lift (call_on_instance (TokenizerInstance (_tokenizer self))
                      "is_identifier" Tokenizer.is_identifier
                      [object_of_token variable_name]) ;;
     if negb valid
     then raise (ValueError
                   (Template "invalid_identifier" [format_arg variable_name]))
     else
       consume_token None ;;
       consume_token (Some "=") ;;
       value <- handle_expression R fuel ;;
       modify (fun self =>
                 match variable_name with
                 | Some name => set_variables (<[name := value]> (_variables self)) self
                 | None => self
                 end) ;;
       ret value
   else handle_additive_expression R fuel).
Proof. reflexivity. Qed.

Lemma handle_additive_expression_eq (fuel : nat) :
  handle_additive_expression R (S fuel) =
  (result <- handle_multiplicative_expression R fuel ;;
   additive_loop R fuel result).
Proof. reflexivity. Qed.

Lemma additive_loop_eq (fuel : nat) (result : value) :
  additive_loop R (S fuel) result =
  (token <- get_current_token ;;
   if is_sign token then
     consume_token None ;;
     right_operand <- handle_multiplicative_expression R fuel ;;
     result <- lift (apply_additive R (default "" token) result right_operand) ;;
     additive_loop R fuel result
   else ret result).
Proof. reflexivity. Qed.

Lemma handle_multiplicative_expression_eq (fuel : nat) :
  handle_multiplicative_expression R (S fuel) =
  (result <- handle_power_expression R fuel ;;
   multiplicative_loop R fuel result).
Proof. reflexivity. Qed.

Lemma multiplicative_loop_eq (fuel : nat) (result : value) :
  multiplicative_loop R (S fuel) result =
  (token <- get_current_token ;;
   if is_multiplicative token then
     consume_token None ;;
     right_operand <- handle_power_expression R fuel ;;
     result <- lift (apply_multiplicative R (default "" token) result right_operand) ;;
     multiplicative_loop R fuel result
   else ret result).
Proof. reflexivity. Qed.

Lemma handle_power_expression_eq (fuel : nat) :
  handle_power_expression R (S fuel) =
  (left_operand <- handle_unary_expression R fuel ;;
   token <- get_current_token ;;
   if token_is token "**" then
     consume_token (Some "**") ;;
     right_operand <- handle_power_expression R fuel ;;
     lift (py_pow R left_operand right_operand)
   else ret left_operand).
Proof. reflexivity. Qed.

Lemma handle_unary_expression_eq (fuel : nat) :
  handle_unary_expression R (S fuel) =
  (token <- get_current_token ;;
   if is_sign token then
     consume_token None ;;
     operand <- handle_unary_expression R fuel ;;
     if token_is token "+" then ret operand else ret (py_neg operand)
   else handle_primary_expression R fuel).
Proof. reflexivity. Qed.

Lemma handle_primary_expression_eq (fuel : nat) :
  handle_primary_expression R (S fuel) =
  (token <- get_current_token ;;
   match token with
   | None => raise (ValueError ExpectedOperand)
   | Some token =>
       if token =? "(" then
         consume_token (Some "(") ;;
         result <- handle_expression R fuel ;;
         consume_token (Some ")") ;;
         ret result
       else
         is_number <- lift (call_on_class "is_digit_token"
                              Tokenizer.is_digit_token [Str token]) ;;
         if is_number then
           number_token <- consume_token None ;;
           lift (parse_number R number_token)
         else
           is_name <- lift (call_on_class "is_identifier"
                              Tokenizer.is_identifier [Str token]) ;;
           if is_name then
             identifier <- consume_token None ;;
             next_token <- get_current_token ;;
             if token_is next_token "("
             then handle_function_call R fuel identifier
             else handle_variable_reference identifier
           else raise (ValueError (ExpectedOperandGot token))
   end).
Proof. reflexivity. Qed.

Lemma handle_function_call_eq (fuel : nat) (function_name : string) :
  handle_function_call R (S fuel) function_name =
  (self <- get ;;
   match _functions self !! function_name with
   | None => raise (ValueError (Template "unknown_function" [function_name]))
   | Some f =>
       consume_token (Some "(") ;;
       token <- get_current_token ;;
       arguments <-
         (if negb (token_is token ")") then
            argument <- handle_expression R fuel ;;
            arguments_loop R fuel [argument]
          else ret []) ;;
       consume_token (Some ")") ;;
       lift (invoke R function_name f arguments)
   end).
Proof. reflexivity. Qed.

Lemma arguments_loop_eq (fuel : nat) (arguments : list value) :
  arguments_loop R (S fuel) arguments =
  (token <- get_current_token ;;
   if token_is token "," then
     consume_token (Some ",") ;;
     argument <- handle_expression R fuel ;;
     arguments_loop R fuel (arguments ++ [argument])
   else ret arguments).
Proof. reflexivity. Qed.

End Unfolding.

Arguments handle_expression : simpl never.
Arguments handle_assignment : simpl never.
Arguments handle_additive_expression : simpl never.
Arguments additive_loop : simpl never.
Arguments handle_multiplicative_expression : simpl never.
Arguments multiplicative_loop : simpl never.
Arguments handle_power_expression : simpl never.
Arguments handle_unary_expression : simpl never.
Arguments handle_primary_expression : simpl never.
Arguments handle_function_call : simpl never.
Arguments arguments_loop : simpl never.

(** *** The cursor primitives *)

Lemma bind_run {A B : Type} (m : M A) (k : A -> M B) (self : Calculator.t) :
  bind m k self =
  match m self with
  | (Returns a, self') => k a self'
  | (Raises e, self') => (Raises e, self')
  | (OutOfFuel, self') => (OutOfFuel, self')
  end.
Proof. reflexivity. Qed.

Lemma lift_run {A : Type} (r : exn + A) (self : Calculator.t) :
  lift r self = (outcome_of r, self).
Proof. now destruct r. Qed.

Lemma get_current_token_run (self : Calculator.t) :
  get_current_token self = (Returns (_tokens self !! _current_position self), self).
Proof. reflexivity. Qed.

(** [consume_token] raises and leaves the object as it is, or returns the
    current token and moves the cursor by one. *)
Lemma consume_token_run (expected_token : option string) (self : Calculator.t) :
  (exists e, consume_token expected_token self = (Raises e, self))
  \/ (exists token,
        _tokens self !! _current_position self = Some token /\
        consume_token expected_token self
        = (Returns token, set_current_position (S (_current_position self)) self)).
Proof.
  unfold consume_token, bind, get.
  destruct (_tokens self !! _current_position self) as [token|]; [|left; eauto].
  destruct expected_token as [[|c e]|]; try solve [right; eauto].
  destruct (negb (token =? String c e)%string); [left; eauto|right; eauto].
Qed.

Lemma consume_token_expected (expected : string) (self : Calculator.t) :
  expected <> ""%string ->
  _tokens self !! _current_position self = Some expected ->
  consume_token (Some expected) self
  = (Returns expected, set_current_position (S (_current_position self)) self).
Proof.
  intros Hne Hcur. unfold consume_token, bind, get. rewrite Hcur.
  destruct expected as [|c e]; [easy|]. now rewrite String.eqb_refl.
Qed.

Lemma consume_token_any (token : string) (self : Calculator.t) :
  _tokens self !! _current_position self = Some token ->
  consume_token None self
  = (Returns token, set_current_position (S (_current_position self)) self).
Proof.
  intros Hcur. unfold consume_token, bind, get. now rewrite Hcur.
Qed.

(** *** Termination and frame of the grammar methods *)

Lemma advances_refl (self : Calculator.t) : advances self self.
Proof. now constructor. Qed.

Lemma advances_trans (c1 c2 c3 : Calculator.t) :
  advances c1 c2 -> advances c2 c3 -> advances c1 c3.
Proof.
  intros [] []. constructor; try congruence. lia.
Qed.

Lemma advances_remaining (c c' : Calculator.t) :
  advances c c' -> remaining c' <= remaining c.
Proof.
  intros []. unfold remaining. rewrite same_tokens0. lia.
Qed.

Lemma consume_token_returns (expected_token : option string)
      (c c' : Calculator.t) (token : string) :
  consume_token expected_token c = (Returns token, c') ->
  advances c c' /\ S (remaining c') = remaining c.
Proof.
  intros H. destruct (consume_token_run expected_token c) as [[e E]|(tok & Hcur & E)];
    rewrite E in H; [discriminate|]. injection H as <- <-.
  apply lookup_lt_Some in Hcur. split.
  - constructor; simpl; auto.
  - unfold remaining. simpl. lia.
Qed.

Section Sound.
Context {A B : Type}.

Lemma sound_ret (a : A) (c : Calculator.t) : sound (ret a) c.
Proof. apply advances_refl. Qed.

Lemma sound_raise (e : exn) (c : Calculator.t) : sound (@raise A e) c.
Proof. apply advances_refl. Qed.

Lemma sound_lift (r : exn + A) (c : Calculator.t) : sound (lift r) c.
Proof. destruct r; apply advances_refl. Qed.

Lemma sound_bind (m : M A) (k : A -> M B) (c : Calculator.t) :
  sound m c ->
  (forall a c', m c = (Returns a, c') -> advances c c' -> sound (k a) c') ->
  sound (bind m k) c.
Proof.
  unfold sound, bind. intros Hm Hk.
  destruct (m c) as [[a|e|] c']; auto.
  specialize (Hk a c' eq_refl Hm).
  destruct (k a c') as [[b|e|] c'']; auto; eapply advances_trans; eauto.
Qed.

End Sound.

Lemma sound_get (c : Calculator.t) : sound get c.
Proof. apply advances_refl. Qed.

Lemma sound_get_current_token (c : Calculator.t) : sound get_current_token c.
Proof. apply advances_refl. Qed.

Lemma sound_consume_token (expected_token : option string) (c : Calculator.t) :
  sound (consume_token expected_token) c.
Proof.
  unfold sound.
  destruct (consume_token_run expected_token c) as [[e E]|(tok & Hcur & E)]; rewrite E.
  - apply advances_refl.
  - constructor; simpl; auto.
Qed.

Lemma sound_handle_variable_reference (name : string) (c : Calculator.t) :
  sound (handle_variable_reference name) c.
Proof.
  unfold sound, handle_variable_reference, bind, get.
  destruct (_variables c !! name); apply advances_refl.
Qed.

(** One step through a [bind]: the first computation is sound, and the rest
    runs from a state with no more tokens left. *)
Ltac into_bind :=
  apply sound_bind;
  [ | let a := fresh "a" in
      let c := fresh "c" in
      let E := fresh "E" in
      let Adv := fresh "Adv" in
      intros a c E Adv;
      try (apply consume_token_returns in E as [_ E]);
      try (rewrite get_current_token_run in E; injection E as <- <-);
      try (unfold get in E; injection E as <- <-);
      try (apply advances_remaining in Adv) ].

Ltac split_if :=
  match goal with
  | |- sound (if ?b then _ else _) _ => destruct b
  end.

Ltac sound_leaf :=
  first
    [ apply sound_ret | apply sound_raise | apply sound_lift | apply sound_get
    | apply sound_get_current_token | apply sound_consume_token
    | apply sound_handle_variable_reference ].

Section Termination.
Variable R : Runtime.

Lemma handlers_sound (fuel : nat) :
  (forall c, 8 * remaining c + 7 <= fuel -> sound (handle_expression R fuel) c)
  /\ (forall c, 8 * remaining c + 6 <= fuel -> sound (handle_assignment R fuel) c)
  /\ (forall c, 8 * remaining c + 5 <= fuel ->
                sound (handle_additive_expression R fuel) c)
  /\ (forall c v, 8 * remaining c + 1 <= fuel -> sound (additive_loop R fuel v) c)
  /\ (forall c, 8 * remaining c + 4 <= fuel ->
                sound (handle_multiplicative_expression R fuel) c)
  /\ (forall c v, 8 * remaining c + 1 <= fuel -> sound (multiplicative_loop R fuel v) c)
  /\ (forall c, 8 * remaining c + 3 <= fuel -> sound (handle_power_expression R fuel) c)
  /\ (forall c, 8 * remaining c + 2 <= fuel -> sound (handle_unary_expression R fuel) c)
  /\ (forall c, 8 * remaining c + 1 <= fuel ->
                sound (handle_primary_expression R fuel) c)
  /\ (forall c name, 8 * remaining c + 1 <= fuel ->
                     sound (handle_function_call R fuel name) c)
  /\ (forall c args, 8 * remaining c + 1 <= fuel -> sound (arguments_loop R fuel args) c).
Proof.
  induction fuel as [|fuel IH]; [repeat split; intros; lia|].
  destruct IH as (IHe & IHas & IHad & IHal & IHm & IHml & IHp & IHu & IHpr & IHf & IHar).
  repeat split.
  - intros c H. rewrite handle_expression_eq. apply IHas. lia.
  - intros c H. rewrite handle_assignment_eq. into_bind; [sound_leaf|].
    destruct (token_is _ "let"); [|apply IHad; lia].
    into_bind; [sound_leaf|]. into_bind; [sound_leaf|]. into_bind; [sound_leaf|].
    into_bind; [sound_leaf|]. discriminate.
  - intros c H. rewrite handle_additive_expression_eq.
    into_bind; [apply IHm; lia|]. apply IHal. lia.
  - intros c v H. rewrite additive_loop_eq. into_bind; [sound_leaf|].
    destruct (is_sign _); [|sound_leaf].
    into_bind; [sound_leaf|]. into_bind; [apply IHm; lia|].
    into_bind; [sound_leaf|]. apply IHal. lia.
  - intros c H. rewrite handle_multiplicative_expression_eq.
    into_bind; [apply IHp; lia|]. apply IHml. lia.
  - intros c v H. rewrite multiplicative_loop_eq. into_bind; [sound_leaf|].
    destruct (is_multiplicative _); [|sound_leaf].
    into_bind; [sound_leaf|]. into_bind; [apply IHp; lia|].
    into_bind; [sound_leaf|]. apply IHml. lia.
  - intros c H. rewrite handle_power_expression_eq.
    into_bind; [apply IHu; lia|]. into_bind; [sound_leaf|].
    destruct (token_is _ "**"); [|sound_leaf].
    into_bind; [sound_leaf|]. into_bind; [apply IHp; lia|]. sound_leaf.
  - intros c H. rewrite handle_unary_expression_eq. into_bind; [sound_leaf|].
    destruct (is_sign _); [|apply IHpr; lia].
    into_bind; [sound_leaf|]. into_bind; [apply IHu; lia|].
    destruct (token_is _ "+"); sound_leaf.
  - intros c H. rewrite handle_primary_expression_eq. into_bind; [sound_leaf|].
    destruct (_tokens c !! _current_position c) as [token|]; [|sound_leaf].
    destruct (token =? "(")%string.
    + into_bind; [sound_leaf|]. into_bind; [apply IHe; lia|].
      into_bind; sound_leaf.
    + into_bind; [sound_leaf|]. split_if.
      * into_bind; sound_leaf.
      * into_bind; [sound_leaf|]. split_if; [|sound_leaf].
        into_bind; [sound_leaf|]. into_bind; [sound_leaf|].
        destruct (token_is _ "("); [apply IHf; lia|sound_leaf].
  - intros c name H. rewrite handle_function_call_eq. into_bind; [sound_leaf|].
    destruct (_functions c !! name) as [f|]; [|sound_leaf].
    into_bind; [sound_leaf|]. into_bind; [sound_leaf|].
    into_bind; [|into_bind; sound_leaf].
    destruct (negb _); [|sound_leaf].
    into_bind; [apply IHe; lia|]. apply IHar. lia.
  - intros c args H. rewrite arguments_loop_eq. into_bind; [sound_leaf|].
    destruct (token_is _ ","); [|sound_leaf].
    into_bind; [sound_leaf|]. into_bind; [apply IHe; lia|]. apply IHar. lia.
Qed.

End Termination.

(** *** [calculate] *)

Section Calculate.
Variable R : Runtime.

Lemma remaining_start (tokens : list string) (self : Calculator.t) :
  remaining (start tokens self) = length tokens.
Proof. unfold remaining, start. simpl. lia. Qed.

(** The parse that [calculate] starts ends, and moves nothing but the
    cursor. *)
Lemma parse_sound (tokens : list string) (self : Calculator.t) :
  sound (handle_expression R (fuel_for tokens)) (start tokens self).
Proof.
  apply handlers_sound. rewrite remaining_start. unfold fuel_for. lia.
Qed.

(** [calculate] on a string that tokenizes: the parse from the first
    token, then the check that no token is left. *)
Lemma calculate_run (s : string) (tokens : list string) (self : Calculator.t) :
  Tokenizer.tokenize (_tokenizer self) (Str s) = Ok tokens ->
  calculate R (Str s) self =
  match handle_expression R (fuel_for tokens) (start tokens self) with
  | (Returns result, self') =>
      if negb (_current_position self' =? length (_tokens self'))%nat
      then (Raises (ValueError (Template "unprocessed_tokens" [])), self')
      else (Returns result, self')
  | (Raises e, self') => (Raises e, self')
  | (OutOfFuel, self') => (OutOfFuel, self')
  end.
Proof.
  intros H. pose proof H as (s' & [= <-] & Hs & _)%tokenize_inv.
  unfold calculate. destruct (strip (chars s)) eqn:E; [easy|].
  unfold bind at 1. unfold get at 1. unfold bind at 1. rewrite H. simpl lift.
  unfold ret at 1. unfold bind at 1. unfold modify at 1. unfold bind at 1.
  unfold modify at 1. fold (start tokens self). unfold bind at 1.
  destruct (handle_expression R (fuel_for tokens) (start tokens self))
    as [[result|e|] self']; try reflexivity.
  unfold bind, get. now destruct (negb _).
Qed.

(** [calculate] ends, and leaves the variables as they were. *)
Lemma calculate_frame (expression : object) (self : Calculator.t) :
  fst (calculate R expression self) <> OutOfFuel
  /\ _variables (snd (calculate R expression self)) = _variables self.
Proof.
  destruct expression as [s| |]; try (split; [discriminate|reflexivity]).
  destruct (Tokenizer.tokenize (_tokenizer self) (Str s)) as [e|tokens] eqn:H.
  - unfold calculate. simpl in H. destruct (strip (chars s)).
    + split; [discriminate|reflexivity].
    + discriminate.
  - rewrite (calculate_run _ _ _ H).
    pose proof (parse_sound tokens self) as Hs. unfold sound in Hs.
    destruct (handle_expression R (fuel_for tokens) (start tokens self))
      as [[result|e|] self']; [|split; [discriminate|apply Hs]|easy].
    destruct (negb _); (split; [discriminate|apply Hs]).
Qed.

End Calculate.

(** C7 (as the code has it): no call of [calculate] changes the variables,
    whatever it is given and however it ends: the assignment of
    [handle_assignment] is never reached, so there is no completed assignment
    that a later error could keep. *)
Theorem calculate_never_assigns (R : Runtime) (expression : object)
        (self : Calculator.t) :
  get_variables (snd (calculate R expression self)) = get_variables self.
Proof. apply calculate_frame. Qed.

(** X4: [calculate] ends on every input: the fuel that the model gives the
    parse, eight units for each token and seven more, is never used up, so
    the recursion of the methods is bounded by the number of the tokens. *)
Theorem calculate_terminates (R : Runtime) (expression : object)
        (self : Calculator.t) :
  fst (calculate R expression self) <> OutOfFuel.
Proof. apply calculate_frame. Qed.

(** At the keyword [let], [handle_assignment] raises the [TypeError] of the
    call of [is_identifier] through the tokenizer instance, after consuming
    the keyword. *)
Lemma let_raises_type_error (R : Runtime) (fuel : nat) (self : Calculator.t) :
  _tokens self !! _current_position self = Some "let" ->
  handle_assignment R (S fuel) self
  = (Raises (TypeError (PositionalArguments "is_identifier" 1 2)),
     set_current_position (S (_current_position self)) self).
Proof.
  intros Hcur. rewrite handle_assignment_eq.
  rewrite bind_run, get_current_token_run, Hcur. cbv beta iota.
  change (token_is (Some "let") "let") with true. cbv iota.
  rewrite bind_run, (consume_token_expected "let") by easy.
  reflexivity.
Qed.

(** *** Number tokens and the power chain *)

Section Numbers.
Variable R : Runtime.

(** A token that passes [is_digit_token] starts with a digit or a point. *)
Lemma number_token_neq (token other : string) :
  Tokenizer.is_digit_token (Str token) = true ->
  match other with
  | String c _ => is_digit_char c || Ascii.eqb c "."
  | EmptyString => false
  end = false ->
  (token =? other) = false.
Proof.
  intros [Hne Hall]%is_digit_token_chars Hother.
  destruct token as [|c token]; [easy|]. destruct other as [|c' other]; [reflexivity|].
  simpl in *. destruct (Ascii.eqb_spec c c') as [->|]; [|reflexivity].
  rewrite Hother in Hall. discriminate.
Qed.

Lemma primary_number (fuel : nat) (self : Calculator.t) (token : string) :
  _tokens self !! _current_position self = Some token ->
  Tokenizer.is_digit_token (Str token) = true ->
  handle_primary_expression R (S fuel) self
  = (outcome_of (parse_number R token),
     set_current_position (S (_current_position self)) self).
Proof.
  intros Hcur Hnum. rewrite handle_primary_expression_eq.
  rewrite bind_run, get_current_token_run, Hcur. cbv beta iota.
  rewrite (number_token_neq token "(") by easy.
  cbv iota.
  change (call_on_class "is_digit_token" Tokenizer.is_digit_token [Str token])
    with (@inr exn bool (Tokenizer.is_digit_token (Str token))).
  rewrite Hnum, bind_run, lift_run. simpl outcome_of. cbv iota.
  rewrite bind_run, (consume_token_any token) by easy.
  apply lift_run.
Qed.

Lemma unary_number (fuel : nat) (self : Calculator.t) (token : string) :
  _tokens self !! _current_position self = Some token ->
  Tokenizer.is_digit_token (Str token) = true ->
  handle_unary_expression R (S (S fuel)) self
  = (outcome_of (parse_number R token),
     set_current_position (S (_current_position self)) self).
Proof.
  intros Hcur Hnum. rewrite handle_unary_expression_eq.
  rewrite bind_run, get_current_token_run, Hcur. cbv beta iota.
  unfold is_sign.
  rewrite (number_token_neq token "+"), (number_token_neq token "-") by easy.
  now apply primary_number.
Qed.

(** The power level at a number: with [**] behind it, the power to its
    right is evaluated first and becomes the exponent. *)
Lemma power_number (fuel : nat) (self : Calculator.t) (token : string) (v : value) :
  _tokens self !! _current_position self = Some token ->
  Tokenizer.is_digit_token (Str token) = true ->
  parse_number R token = Ok v ->
  handle_power_expression R (S (S (S fuel))) self
  = if token_is (_tokens self !! S (_current_position self)) "**"
    then
      match handle_power_expression R (S (S fuel))
              (set_current_position (S (S (_current_position self))) self) with
      | (Returns w, self') => (outcome_of (py_pow R v w), self')
      | (Raises e, self') => (Raises e, self')
      | (OutOfFuel, self') => (OutOfFuel, self')
      end
    else (Returns v, set_current_position (S (_current_position self)) self).
Proof.
  intros Hcur Hnum Hval. rewrite handle_power_expression_eq.
  rewrite bind_run, (unary_number _ _ token), Hval by easy. cbv beta iota.
  simpl outcome_of. cbv iota.
  rewrite bind_run, get_current_token_run. cbv beta iota. simpl.
  destruct (token_is _ "**") eqn:Hnext; [|reflexivity].
  destruct (_tokens self !! S (_current_position self)) as [next|] eqn:Enext;
    [|discriminate].
  simpl in Hnext. apply String.eqb_eq in Hnext as ->.
  rewrite bind_run, (consume_token_expected "**") by easy.
  rewrite bind_run. simpl.
  destruct (handle_power_expression R (S (S fuel)) _) as [[w|e|] self'];
    try reflexivity.
  apply lift_run.
Qed.

End Numbers.

(** C4: [**] associates to the right.  For number tokens [ta], [tb] and
    [tc] with the values [a], [b] and [c], the expression [ta ** tb ** tc]
    evaluates as [a ** (b ** c)]: the power [b ** c] is computed first and
    is the exponent of [a]. *)
Theorem power_right_associative (R : Runtime) (self : Calculator.t) (s : string)
        (ta tb tc : string) (a b c : value) :
  Tokenizer.tokenize (_tokenizer self) (Str s) = Ok [ta; "**"; tb; "**"; tc] ->
  Tokenizer.is_digit_token (Str ta) = true ->
  Tokenizer.is_digit_token (Str tb) = true ->
  Tokenizer.is_digit_token (Str tc) = true ->
  parse_number R ta = Ok a ->
  parse_number R tb = Ok b ->
  parse_number R tc = Ok c ->
  calculate R (Str s) self
  = (outcome_of (bc <- py_pow R b c ;; py_pow R a bc)%exn,
     set_current_position 5 (start [ta; "**"; tb; "**"; tc] self)).
Proof.
  intros Htok Hta Htb Htc Ha Hb Hc.
  rewrite (calculate_run _ _ _ _ Htok).
  set (c0 := start [ta; "**"; tb; "**"; tc] self).
  change (fuel_for [ta; "**"; tb; "**"; tc]) with 47.
  rewrite handle_expression_eq, handle_assignment_eq.
  rewrite bind_run, get_current_token_run. simpl (_ !! _). cbv beta iota.
  unfold token_is at 1. rewrite (number_token_neq ta "let") by easy.
  rewrite handle_additive_expression_eq, bind_run.
  rewrite handle_multiplicative_expression_eq, bind_run.
  rewrite (power_number R _ c0 ta a) by easy. simpl (token_is _ _). cbv iota.
  rewrite (power_number R _ (set_current_position 2 c0) tb b) by easy.
  simpl (token_is _ _). cbv iota.
  rewrite (power_number R _ (set_current_position 4 c0) tc c) by easy.
  simpl (token_is _ _). cbv iota.
  destruct (py_pow R b c) as [e|bc]; [reflexivity|]. simpl.
  destruct (py_pow R a bc) as [e|abc]; reflexivity.
Qed.

Lemma power_right_associative_witness :
  calculate ExampleRuntime.runtime (Str "2 ** 3 ** 2") Calculator.init
  = (Returns (VInt 512),
     set_current_position 5 (start ["2"; "**"; "3"; "**"; "2"] Calculator.init)).
Proof.
  apply (power_right_associative ExampleRuntime.runtime Calculator.init
           "2 ** 3 ** 2" "2" "3" "2" (VInt 2) (VInt 3) (VInt 2)); reflexivity.
Defined.

(** Evaluated from the left, the same expression would be 64. *)
Example power_left_to_right :
  fst (calculate ExampleRuntime.runtime (Str "(2 ** 3) ** 2") Calculator.init)
  = Returns (VInt 64).
Proof. reflexivity. Qed.

(** C1 (as the code has it): [let x = 5] returns no value and stores
    nothing.  The spaces are removed before the scan, so the keyword and the
    name reach the parser as the one identifier [letx], an unknown variable;
    with a pattern that splits the keyword off, the parser reaches the call
    of [is_identifier] through the tokenizer instance, which raises
    [TypeError]. *)
Theorem let_x_is_not_assigned (R : Runtime) :
  calculate R (Str "let x = 5") Calculator.init
  = (Raises (ValueError (Template "unknown_variable" ["letx"])),
     set_current_position 1 (start ["letx"; "="; "5"] Calculator.init))
  /\ get_variable_value (snd (calculate R (Str "let x = 5") Calculator.init)) "x" = None
  /\ calculate R (Str "let x = 5") init_keyword_first
     = (Raises (TypeError (PositionalArguments "is_identifier" 1 2)),
        set_current_position 1 (start ["let"; "x"; "="; "5"] init_keyword_first))
  /\ get_variable_value (snd (calculate R (Str "let x = 5") init_keyword_first)) "x"
     = None.
Proof. repeat split; reflexivity. Qed.

(** *** The tests of the repository, on the example runtime *)

Example test_calculate_basic_arithmetic :
  evaluates "2 + 3" (VInt 5) /\ evaluates "10 - 4" (VInt 6)
  /\ evaluates "3 * 4" (VInt 12) /\ evaluates "15 / 3" (VFloat 5)
  /\ evaluates "2 + 3 * 4" (VInt 14) /\ evaluates "(2 + 3) * 4" (VInt 20).
Proof. repeat split; reflexivity. Qed.

Example test_calculate_power_operations :
  evaluates "2 ** 3" (VInt 8) /\ evaluates "3 ** 2" (VInt 9)
  /\ evaluates "(2 ** 3) ** 2" (VInt 64).
Proof. repeat split; reflexivity. Qed.

Example test_errors :
  fst (calculate ExampleRuntime.runtime (Str "5 / 0") Calculator.init)
  = Raises (ValueError (Template "division_by_zero" []))
  /\ fst (calculate ExampleRuntime.runtime (Str "unknown_var + 5") Calculator.init)
     = Raises (ValueError (Template "unknown_variable" ["unknown_var"]))
  /\ fst (calculate ExampleRuntime.runtime (Str "unknown_func(5)") Calculator.init)
     = Raises (ValueError (Template "unknown_function" ["unknown_func"])).
Proof. repeat split; reflexivity. Qed.

Example test_basic_functions :
  evaluates "abs(-5)" (VInt 5) /\ evaluates "sqrt(16)" (VFloat 4)
  /\ evaluates "pow(2, 3)" (VInt 8) /\ evaluates "max(1, 5, 3)" (VInt 5)
  /\ evaluates "min(1, 5, 3)" (VInt 1).
Proof. repeat split; reflexivity. Qed.

Import Grammar.

(** ** More fuel changes no result *)

Lemma at_least_refl {A : Type} (m : M A) : at_least m m.
Proof. now intros c r c' H _. Qed.

Lemma at_least_out_of_fuel {A : Type} (m : M A) : at_least out_of_fuel m.
Proof. intros c r c' [= <- _] H. now destruct H. Qed.

Lemma at_least_bind {A B : Type} (m m' : M A) (k k' : A -> M B) :
  at_least m m' -> (forall a, at_least (k a) (k' a)) ->
  at_least (bind m k) (bind m' k').
Proof.
  intros Hm Hk c r c' H Hr. rewrite bind_run in *.
  destruct (m c) as [[a|e|] c1] eqn:E.
  - rewrite (Hm _ _ _ E) by discriminate. now apply Hk.
  - rewrite (Hm _ _ _ E) by discriminate. exact H.
  - injection H as <- _. now destruct Hr.
Qed.

Ltac at_least_step :=
  first
    [ apply at_least_refl
    | apply at_least_bind; [|intros ?]
    | match goal with
      | |- at_least (if ?b then _ else _) (if ?b then _ else _) => destruct b
      | |- at_least (match ?x with _ => _ end) (match ?x with _ => _ end) => destruct x
      end ].

Section Monotone.
Variable R : Runtime.

Lemma handlers_monotone (fuel : nat) :
  at_least (handle_expression R fuel) (handle_expression R (S fuel))
  /\ at_least (handle_assignment R fuel) (handle_assignment R (S fuel))
  /\ at_least (handle_additive_expression R fuel) (handle_additive_expression R (S fuel))
  /\ (forall v, at_least (additive_loop R fuel v) (additive_loop R (S fuel) v))
  /\ at_least (handle_multiplicative_expression R fuel)
              (handle_multiplicative_expression R (S fuel))
  /\ (forall v, at_least (multiplicative_loop R fuel v) (multiplicative_loop R (S fuel) v))
  /\ at_least (handle_power_expression R fuel) (handle_power_expression R (S fuel))
  /\ at_least (handle_unary_expression R fuel) (handle_unary_expression R (S fuel))
  /\ at_least (handle_primary_expression R fuel) (handle_primary_expression R (S fuel))
  /\ (forall name, at_least (handle_function_call R fuel name)
                            (handle_function_call R (S fuel) name))
  /\ (forall args, at_least (arguments_loop R fuel args) (arguments_loop R (S fuel) args)).
Proof.
  induction fuel as [|fuel IH].
  - repeat split; intros; apply at_least_out_of_fuel.
  - destruct IH as (IHe & IHas & IHad & IHal & IHm & IHml & IHp & IHu & IHpr & IHf & IHar).
    repeat split; intros.
    + rewrite !handle_expression_eq. exact IHas.
    + rewrite (handle_assignment_eq R fuel), (handle_assignment_eq R (S fuel)).
      repeat at_least_step; auto.
    + rewrite (handle_additive_expression_eq R fuel),
        (handle_additive_expression_eq R (S fuel)).
      repeat at_least_step; auto.
    + rewrite (additive_loop_eq R fuel), (additive_loop_eq R (S fuel)).
      repeat at_least_step; auto.
    + rewrite (handle_multiplicative_expression_eq R fuel),
        (handle_multiplicative_expression_eq R (S fuel)).
      repeat at_least_step; auto.
    + rewrite (multiplicative_loop_eq R fuel), (multiplicative_loop_eq R (S fuel)).
      repeat at_least_step; auto.
    + rewrite (handle_power_expression_eq R fuel), (handle_power_expression_eq R (S fuel)).
      repeat at_least_step; auto.
    + rewrite (handle_unary_expression_eq R fuel), (handle_unary_expression_eq R (S fuel)).
      repeat at_least_step; auto.
    + rewrite (handle_primary_expression_eq R fuel),
        (handle_primary_expression_eq R (S fuel)).
      repeat at_least_step; auto.
    + rewrite (handle_function_call_eq R fuel), (handle_function_call_eq R (S fuel)).
      repeat at_least_step; auto.
    + rewrite (arguments_loop_eq R fuel), (arguments_loop_eq R (S fuel)).
      repeat at_least_step; auto.
Qed.

Lemma handle_expression_monotone (fuel fuel' : nat) :
  fuel <= fuel' -> at_least (handle_expression R fuel) (handle_expression R fuel').
Proof.
  induction 1 as [|fuel' _ IH]; [apply at_least_refl|].
  intros c r c' H Hr. apply handlers_monotone; auto.
Qed.

End Monotone.

(** ** The evaluator on the expressions of the grammar *)

Lemma current_token_here (c : Calculator.t) :
  _tokens c !! _current_position c = head (here c).
Proof.
  unfold here. rewrite head_lookup, lookup_drop. f_equal. lia.
Qed.

Lemma get_current_token_here (c : Calculator.t) :
  get_current_token c = (Returns (head (here c)), c).
Proof. now rewrite get_current_token_run, current_token_here. Qed.

Lemma here_skip (n : nat) (c : Calculator.t) : here (skip n c) = drop n (here c).
Proof. unfold here, skip. simpl. now rewrite drop_drop. Qed.

Lemma skip_skip (n m : nat) (c : Calculator.t) : skip n (skip m c) = skip (m + n) c.
Proof. unfold skip, set_current_position. simpl. f_equal. lia. Qed.

Lemma skip_eq (n m : nat) (c : Calculator.t) : n = m -> skip n c = skip m c.
Proof. now intros ->. Qed.

Lemma variables_skip (n : nat) (c : Calculator.t) : _variables (skip n c) = _variables c.
Proof. reflexivity. Qed.

Lemma functions_skip (n : nat) (c : Calculator.t) : _functions (skip n c) = _functions c.
Proof. reflexivity. Qed.

Lemma consume_any_here (c : Calculator.t) (token : string) (rest : list string) :
  here c = token :: rest ->
  consume_token None c = (Returns token, skip 1 c).
Proof.
  intros H. rewrite (consume_token_any token).
  - unfold skip. now rewrite Nat.add_1_r.
  - now rewrite current_token_here, H.
Qed.

Lemma consume_expected_here (c : Calculator.t) (token : string) (rest : list string) :
  here c = token :: rest -> token <> "" ->
  consume_token (Some token) c = (Returns token, skip 1 c).
Proof.
  intros H Hne. rewrite (consume_token_expected token); auto.
  - unfold skip. now rewrite Nat.add_1_r.
  - now rewrite current_token_here, H.
Qed.

Lemma here_after (c : Calculator.t) (ts rest : list string) :
  here c = (ts ++ rest)%list -> here (skip (length ts) c) = rest.
Proof. intros H. now rewrite here_skip, H, drop_app_length. Qed.

Lemma runs_const {A : Type} (m : M A) (c : Calculator.t) : Runs (fun _ => m) c (m c).
Proof. now exists 0. Qed.

Lemma runs_raise {A B : Type} (m : nat -> M A) (k : nat -> A -> M B)
      (c c' : Calculator.t) (e : exn) :
  Runs m c (Raises e, c') ->
  Runs (fun fuel => bind (m fuel) (k fuel)) c (Raises e, c').
Proof.
  intros [f H]. exists f. intros fuel Hf. now rewrite bind_run, H.
Qed.

Lemma runs_bind {A B : Type} (m : nat -> M A) (k : nat -> A -> M B)
      (c c' : Calculator.t) (a : A) (r : outcome B * Calculator.t) :
  Runs m c (Returns a, c') ->
  Runs (fun fuel => k fuel a) c' r ->
  Runs (fun fuel => bind (m fuel) (k fuel)) c r.
Proof.
  intros [f1 H1] [f2 H2]. exists (max f1 f2). intros fuel Hf.
  rewrite bind_run, H1 by lia. apply H2. lia.
Qed.

Lemma runs_succ {A : Type} (m body : nat -> M A) (c : Calculator.t)
      (r : outcome A * Calculator.t) :
  (forall fuel, m (S fuel) = body fuel) -> Runs body c r -> Runs m c r.
Proof.
  intros Heq [f H]. exists (S f). intros [|fuel] Hf; [lia|].
  rewrite Heq. apply H. lia.
Qed.

Section Levels.
Variable R : Runtime.

(** A level that finds no operator of its own hands on what the level
    below computed. *)
Lemma unary_of_primary (c c' : Calculator.t) (ev : exn + value) :
  is_sign (head (here c)) = false ->
  Parses (handle_primary_expression R) c ev c' ->
  Parses (handle_unary_expression R) c ev c'.
Proof.
  intros Hsign H.
  assert (Hrun : forall r, Runs (handle_primary_expression R) c r ->
                           Runs (handle_unary_expression R) c r).
  { intros r [f Hf]. exists (S f). intros [|fuel] Hle; [lia|].
    rewrite handle_unary_expression_eq, bind_run, get_current_token_here.
    cbv beta iota. rewrite Hsign. apply Hf. lia. }
  destruct ev as [err|v]; simpl in *; [destruct H as [c1 H]; eauto|auto].
Qed.

Lemma power_of_unary (c c' : Calculator.t) (ev : exn + value) :
  token_is (head (here c')) "**" = false ->
  Parses (handle_unary_expression R) c ev c' ->
  Parses (handle_power_expression R) c ev c'.
Proof.
  intros Hnext H. destruct ev as [err|v]; simpl in *.
  - destruct H as [c1 H]. exists c1.
    apply (runs_succ _ _ _ _ (handle_power_expression_eq R)).
    now apply runs_raise.
  - apply (runs_succ _ _ _ _ (handle_power_expression_eq R)).
    eapply runs_bind; [exact H|]. exists 0. intros fuel _.
    rewrite bind_run, get_current_token_here. cbv beta iota. now rewrite Hnext.
Qed.

Lemma multiplicative_of_power (c c' : Calculator.t) (ev : exn + value) :
  Parses (handle_power_expression R) c ev c' ->
  Continues (handle_multiplicative_expression R) (multiplicative_loop R) c ev c'.
Proof.
  intros H. destruct ev as [err|v]; simpl in *.
  - destruct H as [c1 H]. exists c1.
    apply (runs_succ _ _ _ _ (handle_multiplicative_expression_eq R)).
    now apply runs_raise.
  - intros r Hr.
    apply (runs_succ _ _ _ _ (handle_multiplicative_expression_eq R)).
    eapply runs_bind; [exact H|exact Hr].
Qed.

Lemma multiplicative_loop_stops (c : Calculator.t) (v : value) :
  is_multiplicative (head (here c)) = false ->
  Runs (fun fuel => multiplicative_loop R fuel v) c (Returns v, c).
Proof.
  intros H. exists 1. intros [|fuel] Hf; [lia|].
  rewrite multiplicative_loop_eq, bind_run, get_current_token_here.
  cbv beta iota. now rewrite H.
Qed.

Lemma additive_loop_stops (c : Calculator.t) (v : value) :
  is_sign (head (here c)) = false ->
  Runs (fun fuel => additive_loop R fuel v) c (Returns v, c).
Proof.
  intros H. exists 1. intros [|fuel] Hf; [lia|].
  rewrite additive_loop_eq, bind_run, get_current_token_here.
  cbv beta iota. now rewrite H.
Qed.

Lemma multiplicative_complete (c c' : Calculator.t) (ev : exn + value) :
  is_multiplicative (head (here c')) = false ->
  Continues (handle_multiplicative_expression R) (multiplicative_loop R) c ev c' ->
  Parses (handle_multiplicative_expression R) c ev c'.
Proof.
  intros Hstop H. destruct ev as [err|v]; simpl in *; [exact H|].
  apply H. now apply multiplicative_loop_stops.
Qed.

Lemma additive_of_multiplicative (c c' : Calculator.t) (ev : exn + value) :
  is_multiplicative (head (here c')) = false ->
  Continues (handle_multiplicative_expression R) (multiplicative_loop R) c ev c' ->
  Continues (handle_additive_expression R) (additive_loop R) c ev c'.
Proof.
  intros Hstop H. apply multiplicative_complete in H; [|exact Hstop].
  destruct ev as [err|v]; simpl in *.
  - destruct H as [c1 H]. exists c1.
    apply (runs_succ _ _ _ _ (handle_additive_expression_eq R)).
    now apply runs_raise.
  - intros r Hr.
    apply (runs_succ _ _ _ _ (handle_additive_expression_eq R)).
    eapply runs_bind; [exact H|exact Hr].
Qed.

Lemma additive_complete (c c' : Calculator.t) (ev : exn + value) :
  is_sign (head (here c')) = false ->
  Continues (handle_additive_expression R) (additive_loop R) c ev c' ->
  Parses (handle_additive_expression R) c ev c'.
Proof.
  intros Hstop H. destruct ev as [err|v]; simpl in *; [exact H|].
  apply H. now apply additive_loop_stops.
Qed.

(** An expression that does not start with [let] is what
    [handle_additive_expression] makes of it. *)
Lemma expression_of_additive (c c' : Calculator.t) (ev : exn + value) :
  token_is (head (here c)) "let" = false ->
  Parses (handle_additive_expression R) c ev c' ->
  Parses (handle_expression R) c ev c'.
Proof.
  intros Hlet H.
  assert (Hrun : forall r, Runs (handle_additive_expression R) c r ->
                           Runs (handle_expression R) c r).
  { intros r [f Hf]. exists (S (S f)). intros [|[|fuel]] Hle; try lia.
    rewrite handle_expression_eq, handle_assignment_eq, bind_run,
      get_current_token_here.
    cbv beta iota. rewrite Hlet. apply Hf. lia. }
  destruct ev as [err|v]; simpl in *; [destruct H as [c1 H]; eauto|auto].
Qed.

End Levels.

(** *** Tokens of the grammar *)

Lemma alpha_char (c : ascii) :
  in_class Tokenizer.ALPHA_ c = true ->
  is_digit_char c || Ascii.eqb c "." = false
  /\ Ascii.eqb c "(" = false /\ Ascii.eqb c "+" = false /\ Ascii.eqb c "-" = false.
Proof.
  destruct c as [[] [] [] [] [] [] [] []]; vm_compute; intuition congruence.
Qed.

Lemma is_identifier_first (name : string) :
  Tokenizer.is_identifier (Str name) = true ->
  exists c rest, name = String c rest /\ in_class Tokenizer.ALPHA_ c = true.
Proof.
  destruct name as [|c rest]; simpl; [discriminate|].
  unfold fullmatch, Tokenizer.IDENTIFIER. rewrite run_seq, run_class.
  destruct (in_class Tokenizer.ALPHA_ c) eqn:Hc; [eauto|discriminate].
Qed.

Lemma name_token (name : string) :
  is_name name ->
  (name =? "(") = false /\ is_sign (Some name) = false
  /\ Tokenizer.is_digit_token (Str name) = false.
Proof.
  intros Hid. pose proof Hid as (c & rest & -> & Hc)%is_identifier_first.
  apply alpha_char in Hc as (Hd & Hp & Hplus & Hminus).
  repeat split.
  - simpl. now rewrite Hp.
  - simpl. now rewrite Hplus, Hminus.
  - destruct (Tokenizer.is_digit_token _) eqn:E; [|reflexivity].
    apply is_digit_token_chars in E as [_ E]. simpl in E.
    rewrite Hd in E. discriminate.
Qed.

Lemma number_token (token : string) :
  Tokenizer.is_digit_token (Str token) = true ->
  is_sign (Some token) = false /\ token_is (Some token) "let" = false.
Proof.
  intros H. split; simpl.
  - now rewrite (number_token_neq token "+"), (number_token_neq token "-").
  - now apply number_token_neq.
Qed.

(** An expression has a first token. *)
Lemma first_token (e : expr) :
  exists token rest, tokens e = token :: rest.
Proof.
  induction e as [t|n|n args|e IH|e IH|e IH|b IHb x IHx|op l IHl r IHr|op l IHl r IHr];
    simpl; eauto.
  - destruct IHb as (t & ts & ->). simpl. eauto.
  - destruct IHl as (t & ts & ->). simpl. eauto.
  - destruct IHl as (t & ts & ->). simpl. eauto.
Qed.

Lemma multiplicative_operator (op : string) :
  In op ["*"; "/"; "//"; "%"] ->
  is_multiplicative (Some op) = true /\ stop2 (Some op) = true /\ op <> "".
Proof. simpl. intros [<-|[<-|[<-|[<-|[]]]]]; repeat split; discriminate. Qed.

Lemma additive_operator (op : string) :
  In op ["+"; "-"] ->
  is_sign (Some op) = true /\ stop3 (Some op) = true.
Proof. simpl. intros [<-|[<-|[]]]; now repeat split. Qed.

(** *** From one level to the levels above *)

Section Chain.
Variable R : Runtime.
Variables (e : expr) (c : Calculator.t) (rest : list string).
Hypothesis Hhere : here c = (tokens e ++ rest)%list.

Let c_end := skip (length (tokens e)) c.
Let ev := eval R (_variables c) (_functions c) e.

Lemma here_end : here c_end = rest.
Proof using Hhere. now apply here_after. Qed.

Lemma stop2_next : stop2 (head rest) = true -> token_is (head (here c_end)) "**" = false.
Proof using Hhere.
  rewrite here_end. unfold stop2. intros [_ H]%andb_true_iff.
  now apply negb_true_iff.
Qed.

Lemma stop3_next :
  stop3 (head rest) = true ->
  stop2 (head rest) = true /\ is_multiplicative (head (here c_end)) = false.
Proof using Hhere.
  rewrite here_end. unfold stop3. intros [? H]%andb_true_iff.
  split; [assumption|now apply negb_true_iff].
Qed.

Lemma parsed_from_multiplicative :
  3 <= level e ->
  (stop2 (head rest) = true ->
   Continues (handle_multiplicative_expression R) (multiplicative_loop R) c ev c_end) ->
  ParsedAt R e c rest.
Proof using Hhere.
  intros Hlevel H. unfold ParsedAt. fold c_end ev.
  repeat split; try (intros; lia); auto.
  intros [H2 H3]%stop3_next. now apply additive_of_multiplicative; auto.
Qed.

Lemma parsed_from_power :
  2 <= level e ->
  (stop2 (head rest) = true -> Parses (handle_power_expression R) c ev c_end) ->
  ParsedAt R e c rest.
Proof using Hhere.
  intros Hlevel H. unfold ParsedAt. fold c_end ev.
  repeat split; try (intros; lia); auto.
  - intros _ H2. now apply multiplicative_of_power; auto.
  - intros [H2 H3]%stop3_next.
    now apply additive_of_multiplicative, multiplicative_of_power; auto.
Qed.

Lemma parsed_from_unary :
  1 <= level e ->
  (stop0 (head rest) = true -> Parses (handle_unary_expression R) c ev c_end) ->
  ParsedAt R e c rest.
Proof using Hhere.
  intros Hlevel H.
  assert (H2 : stop2 (head rest) = true -> Parses (handle_power_expression R) c ev c_end).
  { intros Hs. apply power_of_unary; [now apply stop2_next|].
    apply H. now apply andb_true_iff in Hs as [? _]. }
  unfold ParsedAt. fold c_end ev.
  repeat split; try (intros; lia); auto.
  - intros _ Hs. now apply multiplicative_of_power; auto.
  - intros [Hs H3]%stop3_next.
    now apply additive_of_multiplicative, multiplicative_of_power; auto.
Qed.

Lemma parsed_from_primary :
  is_sign (head (here c)) = false ->
  (stop0 (head rest) = true -> Parses (handle_primary_expression R) c ev c_end) ->
  ParsedAt R e c rest.
Proof using Hhere.
  intros Hsign H.
  assert (H1 : stop0 (head rest) = true -> Parses (handle_unary_expression R) c ev c_end).
  { intros Hs. apply unary_of_primary; auto. }
  assert (H2 : stop2 (head rest) = true -> Parses (handle_power_expression R) c ev c_end).
  { intros Hs. apply power_of_unary; [now apply stop2_next|].
    apply H1. now apply andb_true_iff in Hs as [? _]. }
  unfold ParsedAt. fold c_end ev.
  repeat split; auto.
  - intros _ Hs. now apply multiplicative_of_power; auto.
  - intros [Hs H3]%stop3_next.
    now apply additive_of_multiplicative, multiplicative_of_power; auto.
Qed.

(** A whole expression, as [handle_expression] parses it. *)
Lemma parsed_expression :
  begins e -> ParsedAt R e c rest -> stop4 (head rest) = true ->
  Parses (handle_expression R) c ev c_end.
Proof using Hhere.
  intros Hlet (_ & _ & _ & _ & H) Hs.
  apply andb_true_iff in Hs as [H3 Hsign]. apply negb_true_iff in Hsign.
  apply expression_of_additive.
  - unfold begins in Hlet. destruct (first_token e) as (t & ts & Ht).
    rewrite Ht in Hlet. now rewrite Hhere, Ht.
  - apply additive_complete; [now rewrite here_end|]. now apply H.
Qed.

End Chain.

(** *** The constructors, each at the level of its method *)

Lemma head_cons {A : Type} (x : A) (l : list A) : head (x :: l) = Some x.
Proof. reflexivity. Qed.

Section Cases.
Variable R : Runtime.

Lemma parsed_num (token : string) (c : Calculator.t) (rest : list string) :
  well_formed (Num token) -> here c = (tokens (Num token) ++ rest)%list ->
  ParsedAt R (Num token) c rest.
Proof.
  simpl. intros Hwf Hhere. apply parsed_from_primary; [exact Hhere| |].
  - rewrite Hhere. now apply number_token.
  - intros _. simpl.
    assert (H : forall fuel, handle_primary_expression R (S fuel) c
                             = (outcome_of (parse_number R token), skip 1 c)).
    { intros fuel. rewrite (primary_number R fuel c token); auto.
      - unfold skip. now rewrite Nat.add_1_r.
      - now rewrite current_token_here, Hhere. }
    destruct (parse_number R token) as [err|v]; simpl.
    + exists (skip 1 c). exists 1. intros [|fuel] Hf; [lia|apply H].
    + exists 1. intros [|fuel] Hf; [lia|apply H].
Qed.

Lemma parsed_var (name : string) (c : Calculator.t) (rest : list string) :
  well_formed (Var name) -> here c = (tokens (Var name) ++ rest)%list ->
  ParsedAt R (Var name) c rest.
Proof.
  simpl. intros Hwf Hhere. pose proof Hwf as (Hp & Hsign & Hnum)%name_token.
  apply parsed_from_primary; [exact Hhere| |].
  - now rewrite Hhere.
  - intros Hstop. simpl.
    assert (H : forall fuel, handle_primary_expression R (S fuel) c
                             = handle_variable_reference name (skip 1 c)).
    { intros fuel. rewrite handle_primary_expression_eq, bind_run,
        get_current_token_here, Hhere.
      cbv beta iota. rewrite head_cons. cbv iota. rewrite Hp.
      change (call_on_class "is_digit_token" Tokenizer.is_digit_token [Str name])
        with (@inr exn bool (Tokenizer.is_digit_token (Str name))).
      rewrite Hnum, bind_run, lift_run. simpl outcome_of. cbv iota.
      change (call_on_class "is_identifier" Tokenizer.is_identifier [Str name])
        with (@inr exn bool (Tokenizer.is_identifier (Str name))).
      rewrite Hwf. rewrite bind_run, lift_run. simpl outcome_of. cbv iota.
      rewrite bind_run, (consume_any_here c name rest) by exact Hhere.
      pose proof (here_after c [name] rest Hhere) as H1. simpl length in H1.
      rewrite bind_run, get_current_token_here, H1.
      cbv beta iota. apply negb_true_iff in Hstop. now rewrite Hstop. }
    unfold handle_variable_reference in H. 
    destruct (_variables c !! name) as [v|] eqn:E; simpl.
    + exists 1. intros [|fuel] Hf; [lia|]. rewrite H, bind_run. simpl. now rewrite E.
    + exists (skip 1 c). exists 1. intros [|fuel] Hf; [lia|].
      rewrite H, bind_run. simpl. now rewrite E.
Qed.

Lemma parsed_paren (e : expr) (c : Calculator.t) (rest : list string) :
  (forall c' rest', here c' = (tokens e ++ rest')%list -> ParsedAt R e c' rest') ->
  well_formed (Paren e) -> here c = (tokens (Paren e) ++ rest)%list ->
  ParsedAt R (Paren e) c rest.
Proof.
  simpl. intros IH [Hlet Hwf] Hhere. rewrite <- app_assoc in Hhere. simpl in Hhere.
  apply parsed_from_primary.
  - simpl. now rewrite <- app_assoc.
  - now rewrite Hhere.
  - intros _. simpl.
    pose proof (here_after c ["("] _ Hhere) as H1. simpl in H1.
    pose proof (parsed_expression R e (skip 1 c) (")" :: rest) H1 Hlet (IH _ _ H1) eq_refl)
      as He.
    pose proof (here_after _ _ _ H1) as H2.
    assert (Hend : skip 1 (skip (length (tokens e)) (skip 1 c))
                   = skip (length ("(" :: tokens e ++ [")"])) c).
    { rewrite !skip_skip. apply skip_eq. simpl. rewrite length_app. simpl. lia. }
    simpl _variables in He. simpl _functions in He.
    destruct (eval R (_variables c) (_functions c) e) as [err|v]; simpl in *.
    + destruct He as (c' & f & Hf). exists c'. exists (S f). intros [|fuel] Hle; [lia|].
      rewrite handle_primary_expression_eq, bind_run, get_current_token_here, Hhere.
      cbv beta iota. rewrite head_cons. cbv iota. simpl (_ =? _).  cbv iota.
      rewrite bind_run, (consume_expected_here c "(" _ Hhere) by easy.
      rewrite bind_run, Hf by lia. reflexivity.
    + destruct He as (f & Hf). exists (S f). intros [|fuel] Hle; [lia|].
      rewrite handle_primary_expression_eq, bind_run, get_current_token_here, Hhere.
      cbv beta iota. rewrite head_cons. cbv iota. simpl (_ =? _).  cbv iota.
      rewrite bind_run, (consume_expected_here c "(" _ Hhere) by easy.
      rewrite bind_run, Hf by lia.
      rewrite bind_run, (consume_expected_here _ ")" _ H2) by easy.
      now rewrite Hend.
Qed.

Lemma parsed_sign (minus : bool) (e : expr) (c : Calculator.t) (rest : list string) :
  let e' := if minus then Neg e else Pos e in
  (forall c' rest', here c' = (tokens e ++ rest')%list -> ParsedAt R e c' rest') ->
  well_formed e' -> here c = (tokens e' ++ rest)%list ->
  ParsedAt R e' c rest.
Proof.
  intros e' IH Hwf Hhere.
  assert (Hshape : exists op, tokens e' = op :: tokens e /\ is_sign (Some op) = true
                              /\ token_is (Some op) "+" = negb minus
                              /\ level e <= 1 /\ 1 <= level e').
  { destruct minus; [exists "-"|exists "+"]; simpl in *; repeat split; tauto || lia. }
  destruct Hshape as (op & Htok & Hsign & Hplus & Hlevel & Hlevel').
  rewrite Htok in Hhere. simpl in Hhere.
  apply parsed_from_unary; [now rewrite Htok|exact Hlevel'|].
  intros Hstop. rewrite Htok.
  pose proof (here_after c [op] _ Hhere) as H1. simpl in H1.
  destruct (IH _ _ H1) as (_ & He & _). specialize (He Hlevel Hstop).
  assert (Hend : skip (length (tokens e)) (skip 1 c) = skip (length (op :: tokens e)) c).
  { rewrite skip_skip. now apply skip_eq. }
  simpl _variables in He. simpl _functions in He. rewrite Hend in He.
  assert (Hev : eval R (_variables c) (_functions c) e'
                = (v <- eval R (_variables c) (_functions c) e ;;
                   Ok (if minus then py_neg v else v))%exn).
  { destruct minus; simpl; [reflexivity|].
    now destruct (eval R (_variables c) (_functions c) e). }
  rewrite Hev. clear Hev.
  destruct (eval R (_variables c) (_functions c) e) as [err|v]; simpl in He |- *.
  - destruct He as (c' & f & Hf). exists c'. exists (S f). intros [|fuel] Hle; [lia|].
    rewrite handle_unary_expression_eq, bind_run, get_current_token_here, Hhere.
    cbv beta iota. rewrite head_cons. rewrite Hsign.
    rewrite bind_run, (consume_any_here c op _ Hhere).
    rewrite bind_run, Hf by lia. reflexivity.
  - destruct He as (f & Hf). exists (S f). intros [|fuel] Hle; [lia|].
    rewrite handle_unary_expression_eq, bind_run, get_current_token_here, Hhere.
    cbv beta iota. rewrite head_cons. rewrite Hsign.
    rewrite bind_run, (consume_any_here c op _ Hhere).
    rewrite bind_run, Hf by lia. rewrite Hplus. now destruct minus.
Qed.

Lemma parsed_power (b x : expr) (c : Calculator.t) (rest : list string) :
  (forall c' rest', here c' = (tokens b ++ rest')%list -> ParsedAt R b c' rest') ->
  (forall c' rest', here c' = (tokens x ++ rest')%list -> ParsedAt R x c' rest') ->
  well_formed (Power b x) -> here c = (tokens (Power b x) ++ rest)%list ->
  ParsedAt R (Power b x) c rest.
Proof.
  simpl. intros IHb IHx (Hlb & Hlx & Hb & Hx) Hhere.
  apply parsed_from_power; [exact Hhere|simpl; lia|].
  intros Hstop. rewrite <- app_assoc in Hhere. simpl in Hhere.
  destruct (IHb _ _ Hhere) as (_ & Pb & _). specialize (Pb Hlb eq_refl).
  pose proof (here_after _ _ _ Hhere) as H1.
  pose proof (here_after _ ["**"] _ H1) as H2. simpl in H2.
  destruct (IHx _ _ H2) as (_ & _ & Px & _). specialize (Px Hlx Hstop).
  simpl _variables in Px. simpl _functions in Px.
  assert (Hend : skip (length (tokens x)) (skip 1 (skip (length (tokens b)) c))
                 = skip (length (tokens b ++ "**" :: tokens x)) c).
  { rewrite !skip_skip. apply skip_eq. rewrite length_app. simpl. lia. }
  rewrite Hend in Px. simpl eval.
  destruct (eval R (_variables c) (_functions c) b) as [err|vb]; simpl in *.
  - destruct Pb as (c' & f & Hf). exists c'. exists (S f). intros [|fuel] Hle; [lia|].
    rewrite handle_power_expression_eq, bind_run, Hf by lia. reflexivity.
  - destruct Pb as (f1 & Hf1).
    assert (Hpre : forall fuel, f1 <= fuel ->
              handle_power_expression R (S fuel) c
              = match handle_power_expression R fuel
                        (skip 1 (skip (length (tokens b)) c)) with
                | (Returns w, c') => (outcome_of (py_pow R vb w), c')
                | (Raises e, c') => (Raises e, c')
                | (OutOfFuel, c') => (OutOfFuel, c')
                end).
    { intros fuel Hle. rewrite handle_power_expression_eq, bind_run, Hf1 by lia.
      rewrite bind_run, get_current_token_here, H1. cbv beta iota. rewrite head_cons.
      change (token_is (Some "**") "**") with true. cbv iota.
      rewrite bind_run, (consume_expected_here _ "**" _ H1) by easy.
      rewrite bind_run.
      destruct (handle_power_expression R fuel _) as [[w|e|] c']; try reflexivity.
      apply lift_run. }
    destruct (eval R (_variables c) (_functions c) x) as [err|vx]; simpl in *.
    + destruct Px as (c' & f2 & Hf2). exists c'. exists (S (max f1 f2)).
      intros [|fuel] Hle; [lia|]. rewrite Hpre, Hf2 by lia. reflexivity.
    + destruct Px as (f2 & Hf2).
      destruct (py_pow R vb vx) as [err|v] eqn:Epow; simpl.
      * eexists. exists (S (max f1 f2)).
        intros [|fuel] Hle; [lia|]. rewrite Hpre, Hf2 by lia. now rewrite Epow.
      * exists (S (max f1 f2)).
        intros [|fuel] Hle; [lia|]. rewrite Hpre, Hf2 by lia. now rewrite Epow.
Qed.

End Cases.

Section Operators.
Variable R : Runtime.

Lemma parsed_mult (op : string) (l r : expr) (c : Calculator.t) (rest : list string) :
  (forall c' rest', here c' = (tokens l ++ rest')%list -> ParsedAt R l c' rest') ->
  (forall c' rest', here c' = (tokens r ++ rest')%list -> ParsedAt R r c' rest') ->
  well_formed (Mult op l r) -> here c = (tokens (Mult op l r) ++ rest)%list ->
  ParsedAt R (Mult op l r) c rest.
Proof.
  simpl. intros IHl IHr (Hop & Hll & Hlr & Hl & Hr) Hhere.
  apply multiplicative_operator in Hop as (Hop & Hstop_op & Hne).
  apply parsed_from_multiplicative; [exact Hhere|simpl; lia|].
  intros Hstop. rewrite <- app_assoc in Hhere. simpl in Hhere.
  destruct (IHl _ _ Hhere) as (_ & _ & _ & Kl & _). specialize (Kl Hll Hstop_op).
  pose proof (here_after _ _ _ Hhere) as H1.
  pose proof (here_after _ [op] _ H1) as H2. simpl in H2.
  destruct (IHr _ _ H2) as (_ & _ & Pr & _). specialize (Pr Hlr Hstop).
  simpl _variables in Pr. simpl _functions in Pr.
  assert (Hend : skip (length (tokens r)) (skip 1 (skip (length (tokens l)) c))
                 = skip (length (tokens l ++ op :: tokens r)) c).
  { rewrite !skip_skip. apply skip_eq. rewrite length_app. simpl. lia. }
  rewrite Hend in Pr. simpl eval.
  destruct (eval R (_variables c) (_functions c) l) as [err|vl]; simpl in Kl |- *;
    [exact Kl|].
  assert (Hloop : forall fuel,
            multiplicative_loop R (S fuel) vl (skip (length (tokens l)) c)
            = match handle_power_expression R fuel
                      (skip 1 (skip (length (tokens l)) c)) with
              | (Returns w, c') =>
                  match apply_multiplicative R op vl w with
                  | Ok v => multiplicative_loop R fuel v c'
                  | Raise e => (Raises e, c')
                  end
              | (Raises e, c') => (Raises e, c')
              | (OutOfFuel, c') => (OutOfFuel, c')
              end).
  { intros fuel. rewrite multiplicative_loop_eq, bind_run, get_current_token_here, H1.
    cbv beta iota. rewrite head_cons, Hop.
    rewrite bind_run, (consume_any_here _ op _ H1).
    rewrite bind_run.
    destruct (handle_power_expression R fuel _) as [[w|e|] c']; try reflexivity.
    rewrite bind_run, lift_run. simpl default.
    now destruct (apply_multiplicative R op vl w). }
  destruct (eval R (_variables c) (_functions c) r) as [err|vr]; simpl in Pr |- *.
  - destruct Pr as (c' & f & Hf). exists c'. apply Kl. exists (S f).
    intros [|fuel] Hle; [lia|]. now rewrite Hloop, Hf by lia.
  - destruct Pr as (f & Hf).
    destruct (apply_multiplicative R op vl vr) as [err|v] eqn:Eop; simpl.
    + eexists. apply Kl. exists (S f).
      intros [|fuel] Hle; [lia|]. now rewrite Hloop, Hf, Eop by lia.
    + intros r0 [f' Hf']. apply Kl. exists (S (max f f')).
      intros [|fuel] Hle; [lia|]. rewrite Hloop, Hf, Eop by lia. apply Hf'. lia.
Qed.

Lemma parsed_addn (op : string) (l r : expr) (c : Calculator.t) (rest : list string) :
  (forall c' rest', here c' = (tokens l ++ rest')%list -> ParsedAt R l c' rest') ->
  (forall c' rest', here c' = (tokens r ++ rest')%list -> ParsedAt R r c' rest') ->
  well_formed (Addn op l r) -> here c = (tokens (Addn op l r) ++ rest)%list ->
  ParsedAt R (Addn op l r) c rest.
Proof.
  simpl. intros IHl IHr (Hop & Hll & Hlr & Hl & Hr) Hhere.
  apply additive_operator in Hop as (Hop & Hstop_op).
  unfold ParsedAt. repeat split; try (simpl; intros; lia).
  intros Hstop. rewrite <- app_assoc in Hhere. simpl in Hhere.
  destruct (IHl _ _ Hhere) as (_ & _ & _ & _ & Kl). specialize (Kl Hstop_op).
  pose proof (here_after _ _ _ Hhere) as H1.
  pose proof (here_after _ [op] _ H1) as H2. simpl in H2.
  pose proof (stop3_next r _ rest H2 Hstop) as [Hstop2 Hstop_m].
  destruct (IHr _ _ H2) as (_ & _ & _ & Kr & _). specialize (Kr Hlr Hstop2).
  apply multiplicative_complete in Kr; [|exact Hstop_m].
  simpl _variables in Kr. simpl _functions in Kr.
  assert (Hend : skip (length (tokens r)) (skip 1 (skip (length (tokens l)) c))
                 = skip (length (tokens l ++ op :: tokens r)) c).
  { rewrite !skip_skip. apply skip_eq. rewrite length_app. simpl. lia. }
  rewrite Hend in Kr. simpl eval. simpl tokens.
  destruct (eval R (_variables c) (_functions c) l) as [err|vl]; simpl in Kl |- *;
    [exact Kl|].
  assert (Hloop : forall fuel,
            additive_loop R (S fuel) vl (skip (length (tokens l)) c)
            = match handle_multiplicative_expression R fuel
                      (skip 1 (skip (length (tokens l)) c)) with
              | (Returns w, c') =>
                  match apply_additive R op vl w with
                  | Ok v => additive_loop R fuel v c'
                  | Raise e => (Raises e, c')
                  end
              | (Raises e, c') => (Raises e, c')
              | (OutOfFuel, c') => (OutOfFuel, c')
              end).
  { intros fuel. rewrite additive_loop_eq, bind_run, get_current_token_here, H1.
    cbv beta iota. rewrite head_cons, Hop.
    rewrite bind_run, (consume_any_here _ op _ H1).
    rewrite bind_run.
    destruct (handle_multiplicative_expression R fuel _) as [[w|e|] c']; try reflexivity.
    rewrite bind_run, lift_run. simpl default.
    now destruct (apply_additive R op vl w). }
  destruct (eval R (_variables c) (_functions c) r) as [err|vr]; simpl in Kr |- *.
  - destruct Kr as (c' & f & Hf). exists c'. apply Kl. exists (S f).
    intros [|fuel] Hle; [lia|]. now rewrite Hloop, Hf by lia.
  - destruct Kr as (f & Hf).
    destruct (apply_additive R op vl vr) as [err|v] eqn:Eop; simpl.
    + eexists. apply Kl. exists (S f).
      intros [|fuel] Hle; [lia|]. now rewrite Hloop, Hf, Eop by lia.
    + intros r0 [f' Hf']. apply Kl. exists (S (max f f')).
      intros [|fuel] Hle; [lia|]. rewrite Hloop, Hf, Eop by lia. apply Hf'. lia.
Qed.

End Operators.

(** *** Calls *)

Lemma separated_cons (a : expr) (l : list expr) :
  separated (map tokens (a :: l)) = (tokens a ++ rest_of_arguments l)%list.
Proof.
  revert a. induction l as [|b l IH]; intros a.
  - simpl. now rewrite app_nil_r.
  - change (separated (map tokens (a :: b :: l)))
      with (tokens a ++ "," :: separated (map tokens (b :: l)))%list.
    now rewrite IH.
Qed.

Lemma well_formed_call (name : string) (arguments : list expr) :
  well_formed (Call name arguments)
  <-> is_name name /\ Forall (fun a => begins a /\ well_formed a) arguments.
Proof.
  simpl. apply and_iff_compat_l.
  induction arguments as [|a l IH]; [now split|].
  rewrite Forall_cons. now rewrite IH.
Qed.

Lemma alpha_char_not_close (c : ascii) :
  in_class Tokenizer.ALPHA_ c = true -> Ascii.eqb c ")" = false.
Proof.
  destruct c as [[] [] [] [] [] [] [] []]; vm_compute; intuition congruence.
Qed.

Lemma name_not_close (name : string) :
  is_name name -> token_is (Some name) ")" = false.
Proof.
  intros (c & rest & -> & Hc)%is_identifier_first.
  apply alpha_char_not_close in Hc. simpl. now rewrite Hc.
Qed.

(** An expression does not start with a closing parenthesis. *)
Lemma first_token_not_close (e : expr) :
  well_formed e ->
  exists token rest, tokens e = token :: rest /\ token_is (Some token) ")" = false.
Proof.
  induction e as [t|n|n args|e IH|e IH|e IH|b IHb x IHx|op l IHl r IHr|op l IHl r IHr];
    simpl; intros Hwf.
  - exists t, []. split; [reflexivity|]. now apply number_token_neq.
  - apply name_not_close in Hwf. eauto.
  - destruct Hwf as [Hn _]. apply name_not_close in Hn. eauto.
  - eauto.
  - eauto.
  - eauto.
  - destruct Hwf as (_ & _ & Hb & _). destruct (IHb Hb) as (t & ts & -> & ?).
    exists t. eexists. simpl. eauto.
  - destruct Hwf as (_ & _ & _ & Hl & _). destruct (IHl Hl) as (t & ts & -> & ?).
    exists t. eexists. simpl. eauto.
  - destruct Hwf as (_ & _ & _ & Hl & _). destruct (IHl Hl) as (t & ts & -> & ?).
    exists t. eexists. simpl. eauto.
Qed.

Lemma skip_0 (c : Calculator.t) : skip 0 c = c.
Proof. destruct c. unfold skip, set_current_position. simpl. f_equal. lia. Qed.

Lemma stop4_arguments (l : list expr) (rest : list string) :
  stop4 (head (rest_of_arguments l ++ ")" :: rest)%list) = true.
Proof. now destruct l. Qed.

Section Calls.
Variable R : Runtime.

Lemma parsed_arguments (l : list expr) :
  Forall (fun a => (begins a /\ well_formed a) /\ Parsed R a) l ->
  forall (c : Calculator.t) (acc : list value) (rest : list string),
    here c = (rest_of_arguments l ++ ")" :: rest)%list ->
    match collect (map (eval R (_variables c) (_functions c)) l) with
    | Ok vs =>
        Runs (fun fuel => arguments_loop R fuel acc) c
             (Returns (acc ++ vs)%list, skip (length (rest_of_arguments l)) c)
    | Raise err =>
        exists c', Runs (fun fuel => arguments_loop R fuel acc) c (Raises err, c')
    end.
Proof.
  induction 1 as [|a l [[Hlet Hwf] Ha] _ IH]; intros c acc rest Hhere.
  - simpl in *. exists 1. intros [|fuel] Hle; [lia|].
    rewrite arguments_loop_eq, bind_run, get_current_token_here, Hhere.
    cbv beta iota. rewrite head_cons, skip_0, app_nil_r. reflexivity.
  - unfold rest_of_arguments in Hhere. simpl in Hhere.
    fold (rest_of_arguments l) in Hhere. rewrite <- app_assoc in Hhere.
    pose proof (here_after c [","] _ Hhere) as H1. simpl in H1.
    pose proof (parsed_expression R a _ _ H1 Hlet (Ha _ _ H1) (stop4_arguments l rest))
      as He.
    pose proof (here_after _ _ _ H1) as H2.
    simpl _variables in He. simpl _functions in He.
    assert (Hloop : forall fuel,
              arguments_loop R (S fuel) acc c
              = match handle_expression R fuel (skip 1 c) with
                | (Returns v, c') => arguments_loop R fuel (acc ++ [v]) c'
                | (Raises e, c') => (Raises e, c')
                | (OutOfFuel, c') => (OutOfFuel, c')
                end).
    { intros fuel.
      rewrite arguments_loop_eq, bind_run, get_current_token_here, Hhere.
      cbv beta iota. rewrite head_cons.
      change (token_is (Some ",") ",") with true. cbv iota.
      rewrite bind_run, (consume_expected_here c "," _ Hhere) by easy.
      now rewrite bind_run. }
    simpl map. simpl collect.
    destruct (eval R (_variables c) (_functions c) a) as [err|v]; simpl in He |- *.
    + destruct He as (c' & f & Hf). exists c', (S f).
      intros [|fuel] Hle; [lia|]. now rewrite Hloop, Hf by lia.
    + destruct He as (f & Hf). specialize (IH _ (acc ++ [v])%list _ H2).
      simpl _variables in IH. simpl _functions in IH.
      assert (Hend : skip (length (rest_of_arguments l))
                          (skip (length (tokens a)) (skip 1 c))
                     = skip (length (rest_of_arguments (a :: l))) c).
      { rewrite !skip_skip. apply skip_eq. unfold rest_of_arguments. simpl.
        rewrite length_app. lia. }
      destruct (collect (map (eval R (_variables c) (_functions c)) l)) as [err|vs];
        simpl.
      * destruct IH as (c' & f' & Hf'). exists c', (S (max f f')).
        intros [|fuel] Hle; [lia|]. rewrite Hloop, Hf by lia. apply Hf'. lia.
      * destruct IH as (f' & Hf'). exists (S (max f f')).
        intros [|fuel] Hle; [lia|]. rewrite Hloop, Hf by lia.
        rewrite Hf' by lia. now rewrite Hend, <- app_assoc.
Qed.

Lemma parsed_call (name : string) (arguments : list expr) :
  is_name name -> Forall (fun a => (begins a /\ well_formed a) /\ Parsed R a) arguments ->
  Parsed R (Call name arguments).
Proof.
  intros Hname Hargs c rest Hhere.
  pose proof Hname as (Hp & Hsign & Hnum)%name_token.
  simpl in Hhere. rewrite <- app_assoc in Hhere. simpl in Hhere.
  apply parsed_from_primary.
  - simpl. now rewrite <- app_assoc.
  - now rewrite Hhere.
  - intros _.
    pose proof (here_after c [name] _ Hhere) as H1. simpl length in H1.
    pose proof (here_after _ ["("] _ H1) as H2. simpl length in H2.
    assert (Hprimary : forall fuel, handle_primary_expression R (S fuel) c
                                    = handle_function_call R fuel name (skip 1 c)).
    { intros fuel. rewrite handle_primary_expression_eq, bind_run,
        get_current_token_here, Hhere.
      cbv beta iota. rewrite head_cons. cbv iota. rewrite Hp.
      change (call_on_class "is_digit_token" Tokenizer.is_digit_token [Str name])
        with (@inr exn bool (Tokenizer.is_digit_token (Str name))).
      rewrite Hnum, bind_run, lift_run. simpl outcome_of. cbv iota.
      change (call_on_class "is_identifier" Tokenizer.is_identifier [Str name])
        with (@inr exn bool (Tokenizer.is_identifier (Str name))).
      rewrite Hname. rewrite bind_run, lift_run. simpl outcome_of. cbv iota.
      rewrite bind_run, (consume_any_here c name _ Hhere).
      rewrite bind_run, get_current_token_here, H1.
      cbv beta iota. rewrite head_cons. reflexivity. }
    simpl eval.
    destruct (_functions c !! name) as [f|] eqn:Ef.
    2:{ exists (skip 1 c), 2. intros [|[|fuel]] Hle; try lia.
        rewrite Hprimary, handle_function_call_eq, bind_run. unfold get.
        cbv beta iota. now rewrite functions_skip, Ef. }
    assert (Hcall : forall fuel,
              handle_function_call R (S fuel) name (skip 1 c)
              = bind (if negb (token_is (head (here (skip 1 (skip 1 c)))) ")") then
                        bind (handle_expression R fuel)
                             (fun argument => arguments_loop R fuel [argument])
                      else ret [])
                     (fun arguments =>
                        bind (consume_token (Some ")"))
                             (fun _ => lift (invoke R name f arguments)))
                     (skip 1 (skip 1 c))).
    { intros fuel. rewrite handle_function_call_eq, bind_run. unfold get.
      cbv beta iota. rewrite functions_skip, Ef.
      rewrite bind_run, (consume_expected_here _ "(" _ H1) by easy.
      now rewrite bind_run, get_current_token_here. }
    assert (Hphase :
              match collect (map (eval R (_variables c) (_functions c)) arguments) with
              | Ok vs =>
                  Runs (fun fuel =>
                          if negb (token_is (head (here (skip 1 (skip 1 c)))) ")") then
                            bind (handle_expression R fuel)
                                 (fun argument => arguments_loop R fuel [argument])
                          else ret [])
                       (skip 1 (skip 1 c))
                       (Returns vs,
                        skip (length (separated (map tokens arguments)))
                             (skip 1 (skip 1 c)))
              | Raise err =>
                  exists c',
                  Runs (fun fuel =>
                          if negb (token_is (head (here (skip 1 (skip 1 c)))) ")") then
                            bind (handle_expression R fuel)
                                 (fun argument => arguments_loop R fuel [argument])
                          else ret [])
                       (skip 1 (skip 1 c)) (Raises err, c')
              end).
    { destruct Hargs as [|a l [[Hlet Hwf] Ha] Hl].
      - simpl in *. rewrite H2. simpl. rewrite skip_0. now exists 0.
      - rewrite separated_cons in H2 |- *. rewrite <- app_assoc in H2.
        destruct (first_token_not_close a Hwf) as (t & ts & Ht & Hclose).
        assert (Hnot : negb (token_is (head (here (skip 1 (skip 1 c)))) ")") = true).
        { now rewrite H2, Ht, <- app_comm_cons, head_cons, Hclose. }
        rewrite Hnot.
        pose proof (parsed_expression R a _ _ H2 Hlet (Ha _ _ H2) (stop4_arguments l rest))
          as He.
        pose proof (here_after _ _ _ H2) as H3.
        simpl _variables in He. simpl _functions in He.
        simpl map. simpl collect.
        destruct (eval R (_variables c) (_functions c) a) as [err|v]; simpl in He |- *.
        + destruct He as (c' & He). exists c'. now apply runs_raise.
        + pose proof (parsed_arguments l Hl _ [v] _ H3) as Hloop.
          simpl _variables in Hloop. simpl _functions in Hloop.
          destruct (collect (map (eval R (_variables c) (_functions c)) l))
            as [err|vs]; simpl.
          * destruct Hloop as (c' & Hloop). exists c'.
            eapply runs_bind; [exact He|exact Hloop].
          * eapply runs_bind; [exact He|].
            assert (Hend : skip (length (tokens a ++ rest_of_arguments l))
                                (skip 1 (skip 1 c))
                           = skip (length (rest_of_arguments l))
                                  (skip (length (tokens a)) (skip 1 (skip 1 c)))).
            { rewrite (skip_skip (length (rest_of_arguments l))).
              apply skip_eq, length_app. }
            rewrite Hend. exact Hloop. }
    pose proof (here_after _ _ _ H2) as H3.
    assert (Hend : skip 1 (skip (length (separated (map tokens arguments)))
                                (skip 1 (skip 1 c)))
                   = skip (length (tokens (Call name arguments))) c).
    { rewrite !skip_skip. apply skip_eq. simpl. rewrite length_app. simpl. lia. }
    destruct (collect (map (eval R (_variables c) (_functions c)) arguments))
      as [err|vs]; simpl.
    + destruct Hphase as (c' & fp & Hfp). exists c', (S (S fp)).
      intros [|[|fuel]] Hle; try lia.
      now rewrite Hprimary, Hcall, bind_run, Hfp by lia.
    + destruct Hphase as (fp & Hfp).
      assert (Hrun : forall fuel, S (S fp) <= fuel ->
                handle_primary_expression R fuel c
                = (outcome_of (invoke R name f vs),
                   skip (length (tokens (Call name arguments))) c)).
      { intros [|[|fuel]] Hle; try lia.
        rewrite Hprimary, Hcall, bind_run, Hfp by lia.
        rewrite bind_run, (consume_expected_here _ ")" _ H3) by easy.
        now rewrite lift_run, Hend. }
      destruct (invoke R name f vs) as [err|v]; simpl in Hrun |- *.
      * eexists. exists (S (S fp)). exact Hrun.
      * exists (S (S fp)). exact Hrun.
Qed.

End Calls.

(** *** Every expression of the grammar *)

Lemma expr_induction (P : expr -> Prop) :
  (forall token, P (Num token)) ->
  (forall name, P (Var name)) ->
  (forall name arguments, Forall P arguments -> P (Call name arguments)) ->
  (forall e, P e -> P (Paren e)) ->
  (forall e, P e -> P (Pos e)) ->
  (forall e, P e -> P (Neg e)) ->
  (forall b x, P b -> P x -> P (Power b x)) ->
  (forall op l r, P l -> P r -> P (Mult op l r)) ->
  (forall op l r, P l -> P r -> P (Addn op l r)) ->
  forall e, P e.
Proof.
  intros HNum HVar HCall HParen HPos HNeg HPower HMult HAddn.
  fix IH 1. intros [t|n|n args|e|e|e|b x|op l r|op l r].
  - apply HNum.
  - apply HVar.
  - apply HCall. revert args. fix IHargs 1. intros [|a l].
    + constructor.
    + constructor; [apply IH|apply IHargs].
  - apply HParen, IH.
  - apply HPos, IH.
  - apply HNeg, IH.
  - apply HPower; apply IH.
  - apply HMult; apply IH.
  - apply HAddn; apply IH.
Qed.

(** The methods of the grammar compute the value of a well-formed
    expression from its tokens, at each level that the expression fits. *)
Lemma well_formed_parsed (R : Runtime) (e : expr) : well_formed e -> Parsed R e.
Proof.
  induction e as [t|n|n args IH|e IH|e IH|e IH|b x IHb IHx|op l r IHl IHr|op l r IHl IHr]
    using expr_induction; intros Hwf.
  - intros c rest. now apply parsed_num.
  - intros c rest. now apply parsed_var.
  - apply well_formed_call in Hwf as [Hn Hall]. apply parsed_call; [exact Hn|].
    induction IH as [|a l Ha _ IHl]; [constructor|].
    apply Forall_cons in Hall as [[Hlet Hwa] Hwl]. constructor; auto.
  - intros c rest. exact (parsed_paren R e c rest (IH (proj2 Hwf)) Hwf).
  - intros c rest. pose proof Hwf as [_ He]. exact (parsed_sign R false e c rest (IH He) Hwf).
  - intros c rest. pose proof Hwf as [_ He]. exact (parsed_sign R true e c rest (IH He) Hwf).
  - intros c rest. pose proof Hwf as (_ & _ & Hb & Hx).
    exact (parsed_power R b x c rest (IHb Hb) (IHx Hx) Hwf).
  - intros c rest. pose proof Hwf as (_ & _ & _ & Hl & Hr).
    exact (parsed_mult R op l r c rest (IHl Hl) (IHr Hr) Hwf).
  - intros c rest. pose proof Hwf as (_ & _ & _ & Hl & Hr).
    exact (parsed_addn R op l r c rest (IHl Hl) (IHr Hr) Hwf).
Qed.

(** The result of a method that has fuel enough is its result with any
    fuel that it does not use up. *)
Lemma runs_with (R : Runtime) (fuel : nat) (c : Calculator.t)
      (r : outcome value * Calculator.t) :
  Runs (handle_expression R) c r ->
  fst (handle_expression R fuel c) <> OutOfFuel ->
  handle_expression R fuel c = r.
Proof.
  intros [f Hf] Hfuel.
  destruct (handle_expression R fuel c) as [o c'] eqn:E. simpl in Hfuel.
  rewrite <- (Hf (max f fuel)) by lia. symmetry.
  apply (handle_expression_monotone R fuel (max f fuel)); [lia|exact E|exact Hfuel].
Qed.

Lemma parse_ends (R : Runtime) (tokens : list string) (self : Calculator.t) :
  fst (handle_expression R (fuel_for tokens) (start tokens self)) <> OutOfFuel.
Proof.
  pose proof (parse_sound R tokens self) as H. unfold sound in H.
  now destruct (handle_expression R (fuel_for tokens) (start tokens self)) as [[]].
Qed.

Lemma parse_expression (R : Runtime) (e : expr) (self : Calculator.t) :
  well_formed e -> begins e ->
  Parses (handle_expression R) (start (tokens e) self)
         (eval R (_variables self) (_functions self) e)
         (set_current_position (length (tokens e)) (start (tokens e) self)).
Proof.
  intros Hwf Hlet.
  assert (Hhere : here (start (tokens e) self) = (tokens e ++ [])%list).
  { unfold here, start. simpl. now rewrite app_nil_r. }
  exact (parsed_expression R e _ [] Hhere Hlet (well_formed_parsed R e Hwf _ _ Hhere)
                           eq_refl).
Qed.

(** The parse of the tokens of an expression with the fuel that
    [calculate] gives it. *)
Lemma parse_value (R : Runtime) (e : expr) (self : Calculator.t) :
  well_formed e -> begins e ->
  match eval R (_variables self) (_functions self) e with
  | Ok v =>
      handle_expression R (fuel_for (tokens e)) (start (tokens e) self)
      = (Returns v, set_current_position (length (tokens e)) (start (tokens e) self))
  | Raise err =>
      exists c,
      handle_expression R (fuel_for (tokens e)) (start (tokens e) self) = (Raises err, c)
  end.
Proof.
  intros Hwf Hlet. pose proof (parse_expression R e self Hwf Hlet) as H.
  destruct (eval R (_variables self) (_functions self) e) as [err|v]; simpl in H.
  - destruct H as [c H]. exists c. apply (runs_with R _ _ _ H (parse_ends R _ _)).
  - apply (runs_with R _ _ _ H (parse_ends R _ _)).
Qed.

(** What [calculate] returns or raises on the tokens of an expression. *)
Lemma calculate_value (R : Runtime) (self : Calculator.t) (s : string) (e : expr) :
  well_formed e -> begins e ->
  Tokenizer.tokenize (_tokenizer self) (Str s) = Ok (tokens e) ->
  fst (calculate R (Str s) self)
  = outcome_of (eval R (_variables self) (_functions self) e).
Proof.
  intros Hwf Hlet Htok. rewrite (calculate_run R _ _ _ Htok).
  pose proof (parse_value R e self Hwf Hlet) as H.
  destruct (eval R (_variables self) (_functions self) e) as [err|v].
  - destruct H as [c ->]. reflexivity.
  - rewrite H. simpl. now rewrite Nat.eqb_refl.
Qed.

(** X5: when the tokens of the input are the tokens of a well-formed
    expression of the grammar, [calculate] ends as the value of the
    expression does: it returns the value, computed with the precedence
    and the associativity of the grammar, and leaves the cursor behind the
    last token; or it raises the first exception that the operands raise
    from left to right. *)
Theorem calculate_expression (R : Runtime) (self : Calculator.t) (s : string)
        (e : expr) :
  well_formed e -> begins e ->
  Tokenizer.tokenize (_tokenizer self) (Str s) = Ok (tokens e) ->
  match eval R (_variables self) (_functions self) e with
  | Ok v =>
      calculate R (Str s) self
      = (Returns v, set_current_position (length (tokens e)) (start (tokens e) self))
  | Raise err => fst (calculate R (Str s) self) = Raises err
  end.
Proof.
  intros Hwf Hlet Htok. rewrite (calculate_run R _ _ _ Htok).
  pose proof (parse_value R e self Hwf Hlet) as H.
  destruct (eval R (_variables self) (_functions self) e) as [err|v].
  - destruct H as [c ->]. reflexivity.
  - rewrite H. simpl. now rewrite Nat.eqb_refl.
Qed.

Lemma calculate_expression_witness :
  calculate ExampleRuntime.runtime (Str "-2 ** 2 + max(3, 4 * (1 + 1)) / 2")
            Calculator.init
  = (Returns (VFloat 8),
     set_current_position 19
       (start ["-"; "2"; "**"; "2"; "+"; "max"; "("; "3"; ","; "4"; "*"; "(";
               "1"; "+"; "1"; ")"; ")"; "/"; "2"] Calculator.init)).
Proof.
  apply (calculate_expression ExampleRuntime.runtime Calculator.init
           "-2 ** 2 + max(3, 4 * (1 + 1)) / 2"
           (Addn "+" (Power (Neg (Num "2")) (Num "2"))
                 (Mult "/" (Call "max"
                                 [Num "3";
                                  Mult "*" (Num "4")
                                       (Paren (Addn "+" (Num "1") (Num "1")))])
                       (Num "2")))).
  - simpl. unfold is_name, begins. repeat split; (lia || tauto || discriminate || reflexivity).
  - reflexivity.
  - reflexivity.
Defined.

(** *** Tokens behind an expression *)





(** *** What the methods return is the value of an expression *)

Lemma here_head (c : Calculator.t) (token : string) :
  head (here c) = Some token -> here c = token :: here (skip 1 c).
Proof.
  intros H. rewrite here_skip. destruct (here c) as [|t l]; [discriminate|].
  now injection H as ->.
Qed.

Lemma consume_token_inv (expected : option string) (c c' : Calculator.t)
      (token : string) :
  consume_token expected c = (Returns token, c') ->
  head (here c) = Some token /\ c' = skip 1 c
  /\ match expected with
     | Some (String a e) => token = String a e
     | _ => True
     end.
Proof.
  intros H. unfold consume_token in H. rewrite bind_run in H. unfold get in H.
  rewrite current_token_here in H.
  destruct (head (here c)) as [t|]; [|discriminate].
  assert (Hok : forall c1, (modify (set_current_position (S (_current_position c))) ;;
                            ret t)%M c = (Returns token, c1) ->
                           t = token /\ c1 = skip 1 c).
  { intros c1 [= <- <-]. split; [reflexivity|]. unfold skip. now rewrite Nat.add_1_r. }
  destruct expected as [[|a e]|].
  - apply Hok in H as [-> ->]. auto.
  - destruct (negb (t =? String a e)) eqn:E; [discriminate|].
    apply negb_false_iff, String.eqb_eq in E. apply Hok in H as [<- ->]. auto.
  - apply Hok in H as [-> ->]. auto.
Qed.

Lemma token_is_eq (token : option string) (s : string) :
  token_is token s = true -> token = Some s.
Proof.
  destruct token as [t|]; [|discriminate]. simpl. now intros ->%String.eqb_eq.
Qed.

Lemma lift_inv {A : Type} (r : exn + A) (c c' : Calculator.t) (a : A) :
  lift r c = (Returns a, c') -> r = Ok a /\ c' = c.
Proof. destruct r; [discriminate|]. now intros [= -> ->]. Qed.

Lemma read_begins (R : Runtime) (e : expr) (c c' : Calculator.t) (v : value) :
  Read R e c v c' -> token_is (head (here c)) "let" = false -> begins e.
Proof.
  intros (_ & Hhere & _) H. unfold begins.
  destruct (first_token e) as (t & ts & Ht). rewrite Hhere, Ht in H.
  now rewrite Ht.
Qed.

Lemma is_multiplicative_in (token : option string) :
  is_multiplicative token = true ->
  exists op, token = Some op /\ In op ["*"; "/"; "//"; "%"].
Proof.
  destruct token as [op|]; [|discriminate]. simpl. intros H. exists op. split; auto.
  repeat (apply orb_true_iff in H as [H|H]);
    apply String.eqb_eq in H; subst; simpl; auto.
Qed.

Lemma is_sign_in (token : option string) :
  is_sign token = true -> exists op, token = Some op /\ In op ["+"; "-"].
Proof.
  destruct token as [op|]; [|discriminate]. simpl. intros H. exists op. split; auto.
  apply orb_true_iff in H as [H|H]; apply String.eqb_eq in H; subst; simpl; auto.
Qed.

Tactic Notation "run" hyp(H) "as" ident(a) ident(c1) ident(E) :=
  rewrite bind_run in H;
  match type of H with
  | match ?m with _ => _ end = _ =>
      destruct m as [[a|?|] c1] eqn:E; try discriminate H
  end.

Section Converse.
Variable R : Runtime.

(** Two operands read one after the other, with the operator between
    them. *)
Lemma read_binary (e0 er : expr) (op : string) (c0 c c2 : Calculator.t)
      (v0 w : value) :
  Read R e0 c0 v0 c -> head (here c) = Some op -> Read R er (skip 1 c) w c2 ->
  here c0 = ((tokens e0 ++ op :: tokens er) ++ here c2)%list
  /\ c2 = skip (length (tokens e0 ++ op :: tokens er)) c0
  /\ eval R (_variables c0) (_functions c0) e0 = Ok v0
  /\ eval R (_variables c0) (_functions c0) er = Ok w.
Proof.
  intros (_ & H0 & Hc & Hv0) Hop (_ & Hr & Hc2 & Hw).
  apply here_head in Hop. repeat split.
  - now rewrite H0, Hop, Hr, <- app_assoc.
  - rewrite Hc2, Hc, !skip_skip. apply skip_eq. rewrite length_app. simpl. lia.
  - exact Hv0.
  - rewrite Hc in Hw. exact Hw.
Qed.

Lemma read_prefixed (e : expr) (op : string) (c c2 : Calculator.t) (w : value) :
  head (here c) = Some op -> Read R e (skip 1 c) w c2 ->
  here c = (op :: tokens e ++ here c2)%list
  /\ c2 = skip (S (length (tokens e))) c
  /\ eval R (_variables c) (_functions c) e = Ok w.
Proof.
  intros Hop (_ & Hr & Hc2 & Hw). apply here_head in Hop. repeat split.
  - now rewrite Hop, Hr.
  - rewrite Hc2, skip_skip. now apply skip_eq.
  - exact Hw.
Qed.

Lemma handlers_read (fuel : nat) :
  (forall c v c', handle_expression R fuel c = (Returns v, c') ->
                  exists e, begins e /\ Read R e c v c')
  /\ (forall c v c', handle_assignment R fuel c = (Returns v, c') ->
                     exists e, begins e /\ Read R e c v c')
  /\ (forall c v c', handle_additive_expression R fuel c = (Returns v, c') ->
                     exists e, Read R e c v c')
  /\ (forall c0 e0 v0 c v c',
         Read R e0 c0 v0 c -> additive_loop R fuel v0 c = (Returns v, c') ->
         exists e, Read R e c0 v c')
  /\ (forall c v c', handle_multiplicative_expression R fuel c = (Returns v, c') ->
                     exists e, level e <= 3 /\ Read R e c v c')
  /\ (forall c0 e0 v0 c v c',
         level e0 <= 3 -> Read R e0 c0 v0 c ->
         multiplicative_loop R fuel v0 c = (Returns v, c') ->
         exists e, level e <= 3 /\ Read R e c0 v c')
  /\ (forall c v c', handle_power_expression R fuel c = (Returns v, c') ->
                     exists e, level e <= 2 /\ Read R e c v c')
  /\ (forall c v c', handle_unary_expression R fuel c = (Returns v, c') ->
                     exists e, level e <= 1 /\ Read R e c v c')
  /\ (forall c v c', handle_primary_expression R fuel c = (Returns v, c') ->
                     exists e, level e <= 0 /\ Read R e c v c')
  /\ (forall c0 name v c',
         head (here c0) = Some name -> is_name name ->
         handle_function_call R fuel name (skip 1 c0) = (Returns v, c') ->
         exists arguments, Read R (Call name arguments) c0 v c')
  /\ (forall c acc vs c',
         arguments_loop R fuel acc c = (Returns vs, c') ->
         exists arguments vs',
           vs = (acc ++ vs')%list
           /\ Forall (fun a => begins a /\ well_formed a) arguments
           /\ here c = (rest_of_arguments arguments ++ here c')%list
           /\ c' = skip (length (rest_of_arguments arguments)) c
           /\ collect (map (eval R (_variables c) (_functions c)) arguments) = Ok vs').
Proof.
  induction fuel as [|fuel IH]; [repeat split; intros; discriminate|].
  destruct IH as (IHe & IHas & IHad & IHal & IHm & IHml & IHp & IHu & IHpr & IHf & IHar).
  repeat split.
  - (* handle_expression *)
    intros c v c' H. rewrite handle_expression_eq in H. eauto.
  - (* handle_assignment *)
    intros c v c' H. rewrite handle_assignment_eq, bind_run, get_current_token_here in H.
    cbv beta iota in H. destruct (token_is (head (here c)) "let") eqn:Hlet.
    + rewrite bind_run in H.
      destruct (consume_token (Some "let") c) as [[t|err|] c1]; discriminate H.
    + apply IHad in H as [e He]. exists e. split; [|exact He].
      eapply read_begins; eauto.
  - (* handle_additive_expression *)
    intros c v c' H. rewrite handle_additive_expression_eq in H.
    run H as l c1 E1. apply IHm in E1 as (e0 & _ & He0). eauto.
  - (* additive_loop *)
    intros c0 e0 v0 c v c' He0 H.
    rewrite additive_loop_eq, bind_run, get_current_token_here in H.
    cbv beta iota in H. destruct (is_sign (head (here c))) eqn:Hsign.
    + apply is_sign_in in Hsign as (op & Hop & Hin). rewrite Hop in H.
      run H as t c1 E1. apply consume_token_inv in E1 as (_ & -> & _).
      run H as w c2 E2. apply IHm in E2 as (er & Hlr & Her).
      run H as v1 c3 E3. apply lift_inv in E3 as [E3 ->]. simpl default in E3.
      apply (IHal c0 (Addn op e0 er) v1 c2 v c'); [|exact H].
      destruct (read_binary _ _ _ _ _ _ _ _ He0 Hop Her) as (H1 & H2 & H3 & H4).
      destruct He0 as (Hw0 & _). destruct Her as (Hwr & _).
      repeat split; auto; simpl; try lia.
      * destruct e0; simpl; lia.
      * now rewrite H3, H4.
    + injection H as <- <-. eauto.
  - (* handle_multiplicative_expression *)
    intros c v c' H. rewrite handle_multiplicative_expression_eq in H.
    run H as l c1 E1. apply IHp in E1 as (e0 & Hl0 & He0).
    apply (IHml c e0 l c1 v c'); auto.
  - (* multiplicative_loop *)
    intros c0 e0 v0 c v c' Hl0 He0 H.
    rewrite multiplicative_loop_eq, bind_run, get_current_token_here in H.
    cbv beta iota in H. destruct (is_multiplicative (head (here c))) eqn:Hmul.
    + apply is_multiplicative_in in Hmul as (op & Hop & Hin). rewrite Hop in H.
      run H as t c1 E1. apply consume_token_inv in E1 as (_ & -> & _).
      run H as w c2 E2. apply IHp in E2 as (er & Hlr & Her).
      run H as v1 c3 E3. apply lift_inv in E3 as [E3 ->]. simpl default in E3.
      apply (IHml c0 (Mult op e0 er) v1 c2 v c'); [simpl; lia| |exact H].
      destruct (read_binary _ _ _ _ _ _ _ _ He0 Hop Her) as (H1 & H2 & H3 & H4).
      destruct He0 as (Hw0 & _). destruct Her as (Hwr & _).
      repeat split; auto; simpl.
      now rewrite H3, H4.
    + injection H as <- <-. eauto.
  - (* handle_power_expression *)
    intros c v c' H. rewrite handle_power_expression_eq in H.
    run H as l c1 E1. apply IHu in E1 as (e0 & Hl0 & He0).
    rewrite bind_run, get_current_token_here in H. cbv beta iota in H.
    destruct (token_is (head (here c1)) "**") eqn:Hpow.
    + apply token_is_eq in Hpow.
      run H as t c2 E2. apply consume_token_inv in E2 as (_ & -> & _).
      run H as w c3 E3. apply IHp in E3 as (er & Hlr & Her).
      apply lift_inv in H as [H ->].
      exists (Power e0 er). split; [simpl; lia|].
      destruct (read_binary _ _ _ _ _ _ _ _ He0 Hpow Her) as (H1 & H2 & H3 & H4).
      destruct He0 as (Hw0 & _). destruct Her as (Hwr & _).
      repeat split; auto; simpl.
      now rewrite H3, H4.
    + injection H as <- <-. exists e0. split; [lia|exact He0].
  - (* handle_unary_expression *)
    intros c v c' H.
    rewrite handle_unary_expression_eq, bind_run, get_current_token_here in H.
    cbv beta iota in H. destruct (is_sign (head (here c))) eqn:Hsign.
    + apply is_sign_in in Hsign as (op & Hop & Hin). rewrite Hop in H.
      run H as t c1 E1. apply consume_token_inv in E1 as (_ & -> & _).
      run H as w c2 E2. apply IHu in E2 as (e & Hle & He).
      destruct (read_prefixed _ _ _ _ _ Hop He) as (H1 & H2 & H3).
      destruct He as (Hw & _).
      destruct Hin as [<-|[<-|[]]]; simpl in H; injection H as <- <-.
      * exists (Pos e). split; [simpl; lia|]. repeat split; auto.
      * exists (Neg e). split; [simpl; lia|]. repeat split; auto.
        simpl. now rewrite H3.
    + apply IHpr in H as (e & Hle & He). exists e. split; [lia|exact He].
  - (* handle_primary_expression *)
    intros c v c' H.
    rewrite handle_primary_expression_eq, bind_run, get_current_token_here in H.
    cbv beta iota in H. destruct (head (here c)) as [token|] eqn:Htoken; [|discriminate].
    destruct (token =? "(") eqn:Hparen.
    + apply String.eqb_eq in Hparen as ->.
      run H as t c1 E1. apply consume_token_inv in E1 as (_ & -> & _).
      run H as w c2 E2. apply IHe in E2 as (e & Hlet & He).
      run H as t' c3 E3. apply consume_token_inv in E3 as (Hclose & -> & Ht').
      simpl in Ht'. subst t'. injection H as <- <-. exists (Paren e). split; [simpl; lia|].
      destruct (read_prefixed _ _ _ _ _ Htoken He) as (H1 & H2 & H3).
      destruct He as (Hw & _). apply here_head in Hclose.
      repeat split; auto; simpl.
      * now rewrite H1, Hclose, <- app_assoc.
      * rewrite H2, skip_skip. apply skip_eq. rewrite length_app. simpl. lia.
    + change (call_on_class "is_digit_token" Tokenizer.is_digit_token [Str token])
        with (@inr exn bool (Tokenizer.is_digit_token (Str token))) in H.
      rewrite bind_run, lift_run in H. unfold outcome_of in H. cbv iota in H.
      destruct (Tokenizer.is_digit_token (Str token)) eqn:Hnum.
      * run H as t c1 E1. apply consume_token_inv in E1 as (Ht & -> & _).
        rewrite Htoken in Ht. injection Ht as <-.
        apply lift_inv in H as [H ->]. exists (Num token). split; [simpl; lia|].
        apply here_head in Htoken. repeat split; auto.
      * change (call_on_class "is_identifier" Tokenizer.is_identifier [Str token])
          with (@inr exn bool (Tokenizer.is_identifier (Str token))) in H.
        rewrite bind_run, lift_run in H. unfold outcome_of in H. cbv iota in H.
        destruct (Tokenizer.is_identifier (Str token)) eqn:Hname; [|discriminate].
        run H as t c1 E1. apply consume_token_inv in E1 as (Ht & -> & _).
        rewrite Htoken in Ht. injection Ht as <-.
        rewrite bind_run, get_current_token_here in H. cbv beta iota in H.
        destruct (token_is (head (here (skip 1 c))) "(").
        -- apply IHf in H as [arguments H]; auto. exists (Call token arguments). split; [simpl; lia|auto].
        -- unfold handle_variable_reference in H. rewrite bind_run in H.
           unfold get in H. cbv beta iota in H. rewrite variables_skip in H.
           destruct (_variables c !! token) as [x|] eqn:Hvar; [|discriminate].
           injection H as <- <-. exists (Var token). split; [simpl; lia|].
           apply here_head in Htoken. repeat split; auto. simpl. now rewrite Hvar.
  - (* handle_function_call *)
    intros c0 name v c' Hname0 Hname H.
    rewrite handle_function_call_eq, bind_run in H. unfold get at 1 in H.
    cbv beta iota in H. rewrite functions_skip in H.
    destruct (_functions c0 !! name) as [f|] eqn:Ef; [|discriminate].
    run H as t c1 E1. apply consume_token_inv in E1 as (Hopen & -> & Ht).
    simpl in Ht. subst t.
    rewrite bind_run, get_current_token_here in H. cbv beta iota in H.
    apply here_head in Hname0. apply here_head in Hopen.
    assert (Hargs : exists arguments vs c3,
               Forall (fun a => begins a /\ well_formed a) arguments
               /\ here (skip 1 (skip 1 c0))
                  = (separated (map tokens arguments) ++ here c3)%list
               /\ c3 = skip (length (separated (map tokens arguments)))
                            (skip 1 (skip 1 c0))
               /\ collect (map (eval R (_variables c0) (_functions c0)) arguments)
                  = Ok vs
               /\ (consume_token (Some ")") ;; lift (invoke R name f vs))%M c3
                  = (Returns v, c')).
    { destruct (negb (token_is (head (here (skip 1 (skip 1 c0)))) ")")).
      - run H as vs c3 E3. run E3 as a c2 E2.
        apply IHe in E2 as (e & Hlet & Hw & He1 & He2 & He3).
        apply IHar in E3 as (arguments & vs' & -> & Hall & Ha1 & Ha2 & Ha3).
        exists (e :: arguments), (a :: vs'), c3. repeat split.
        + now constructor.
        + now rewrite separated_cons, <- app_assoc, He1, Ha1.
        + rewrite separated_cons, Ha2, He2, skip_skip. apply skip_eq.
          now rewrite length_app.
        + simpl map. simpl collect. simpl in He3. rewrite He3.
          rewrite He2 in Ha3. simpl in Ha3. now rewrite Ha3.
        + exact H.
      - rewrite bind_run in H. unfold ret at 1 in H. cbv beta iota in H.
        exists [], [], (skip 1 (skip 1 c0)). repeat split; auto.
        now rewrite skip_0. }
    destruct Hargs as (arguments & vs & c3 & Hall & Ha1 & Ha2 & Ha3 & Hend).
    run Hend as t' c4 E4. apply consume_token_inv in E4 as (Hclose & -> & Ht').
    simpl in Ht'. subst t'. apply lift_inv in Hend as [Hend ->]. apply here_head in Hclose.
    exists arguments. split; [|split; [|split]].
    + apply well_formed_call. auto.
    + simpl. now rewrite Hname0, Hopen, Ha1, Hclose, <- app_assoc.
    + rewrite Ha2, !skip_skip. apply skip_eq. simpl. rewrite length_app. simpl. lia.
    + simpl. now rewrite Ef, Ha3.
  - (* arguments_loop *)
    intros c acc vs c' H.
    rewrite arguments_loop_eq, bind_run, get_current_token_here in H.
    cbv beta iota in H. destruct (token_is (head (here c)) ",") eqn:Hcomma.
    + apply token_is_eq in Hcomma.
      run H as t c1 E1. apply consume_token_inv in E1 as (_ & -> & _).
      run H as a c2 E2. apply IHe in E2 as (e & Hlet & He).
      apply IHar in H as (arguments & vs' & -> & Hall & Ha1 & Ha2 & Ha3).
      destruct (read_prefixed _ _ _ _ _ Hcomma He) as (H1 & H2 & H3).
      destruct He as (Hw & _).
      exists (e :: arguments), (a :: vs'). repeat split.
      * now rewrite <- app_assoc.
      * now constructor.
      * unfold rest_of_arguments in *. simpl. now rewrite H1, Ha1, <- app_assoc.
      * rewrite Ha2, H2, skip_skip. apply skip_eq. unfold rest_of_arguments. simpl.
        rewrite length_app. lia.
      * simpl map. simpl collect. rewrite H3. rewrite H2 in Ha3. simpl in Ha3.
        now rewrite Ha3.
    + injection H as <- <-. exists [], []. repeat split; auto.
      * now rewrite app_nil_r.
      * now rewrite skip_0.
Qed.

End Converse.

(** X6: whatever [calculate] returns is the value of a well-formed
    expression of the grammar whose tokens are the tokens of the input: the
    evaluator accepts nothing but these expressions, an assignment least of
    all. *)
Theorem calculate_returns_expression (R : Runtime) (self : Calculator.t)
        (s : string) (v : value) :
  fst (calculate R (Str s) self) = Returns v ->
  exists e, well_formed e /\ begins e
            /\ Tokenizer.tokenize (_tokenizer self) (Str s) = Ok (tokens e)
            /\ eval R (_variables self) (_functions self) e = Ok v.
Proof.
  intros H.
  destruct (Tokenizer.tokenize (_tokenizer self) (Str s)) as [err|ts] eqn:Htok.
  { unfold calculate in H. simpl in Htok.
    destruct (strip (chars s)); discriminate. }
  rewrite (calculate_run R _ _ _ Htok) in H.
  destruct (handle_expression R (fuel_for ts) (start ts self)) as [[r|err|] c'] eqn:E;
    try discriminate H.
  destruct (negb (_current_position c' =? length (_tokens c'))%nat) eqn:Hpos;
    [discriminate H|].
  injection H as ->. apply negb_false_iff, Nat.eqb_eq in Hpos.
  apply handlers_read in E as (e & Hlet & Hwf & Hhere & Hc' & Hv).
  exists e. repeat split; auto. f_equal.
  assert (Hend : here c' = []).
  { unfold here. rewrite Hpos. apply drop_all. }
  rewrite Hend, app_nil_r in Hhere. rewrite <- Hhere. reflexivity.
Qed.

Lemma calculate_returns_expression_witness :
  exists e, well_formed e /\ begins e
            /\ Tokenizer.tokenize (_tokenizer Calculator.init) (Str "(2 + 3) * 4")
               = Ok (tokens e)
            /\ eval ExampleRuntime.runtime (_variables Calculator.init)
                    (_functions Calculator.init) e = Ok (VInt 20).
Proof.
  apply (calculate_returns_expression ExampleRuntime.runtime Calculator.init
           "(2 + 3) * 4" (VInt 20)).
  reflexivity.
Defined.

(** The value of an expression is given by its tokens: two well-formed
    expressions with the same tokens have the same value. *)
Lemma value_by_tokens (R : Runtime) (variables : gmap string value)
      (functions : gmap string builtin) (e1 e2 : expr) :
  well_formed e1 -> begins e1 -> well_formed e2 -> begins e2 ->
  tokens e1 = tokens e2 ->
  eval R variables functions e1 = eval R variables functions e2.
Proof.
  intros Hwf1 Hlet1 Hwf2 Hlet2 Htok.
  set (self := set_variables variables
                 {| _tokenizer := Tokenizer.init; _variables := variables;
                    _tokens := []; _current_position := 0;
                    _functions := functions |}).
  pose proof (parse_value R e1 self Hwf1 Hlet1) as H1.
  pose proof (parse_value R e2 self Hwf2 Hlet2) as H2.
  rewrite <- Htok in H2. simpl _variables in H1, H2. simpl _functions in H1, H2.
  destruct (eval R variables functions e1) as [err1|v1],
           (eval R variables functions e2) as [err2|v2].
  - destruct H1 as [c1 H1], H2 as [c2 H2]. congruence.
  - destruct H1 as [c1 H1]. congruence.
  - destruct H2 as [c2 H2]. congruence.
  - congruence.
Qed.

(** *** Precedence and associativity *)

Lemma binary_additive (R : Runtime) (op : string) :
  In op ["+"; "-"] -> binary R op = apply_additive R op.
Proof. intros [<-|[<-|[]]]; reflexivity. Qed.

Lemma binary_multiplicative (R : Runtime) (op : string) :
  In op ["*"; "/"; "//"; "%"] -> binary R op = apply_multiplicative R op.
Proof. intros [<-|[<-|[<-|[<-|[]]]]]; reflexivity. Qed.

Lemma begins_number (token : string) (e : expr) :
  Tokenizer.is_digit_token (Str token) = true ->
  head (tokens e) = Some token -> begins e.
Proof. intros H He. unfold begins. rewrite He. now apply number_token. Qed.

(** X7: the sign binds tighter than the power: for number tokens [ta] and
    [tb] with the values [a] and [b], [- ta ** tb] is the power of [- a],
    not the negated power of [a]. *)
Theorem negation_before_power (R : Runtime) (self : Calculator.t) (s : string)
        (ta tb : string) (a b : value) :
  Tokenizer.tokenize (_tokenizer self) (Str s) = Ok ["-"; ta; "**"; tb] ->
  Tokenizer.is_digit_token (Str ta) = true ->
  Tokenizer.is_digit_token (Str tb) = true ->
  parse_number R ta = Ok a ->
  parse_number R tb = Ok b ->
  fst (calculate R (Str s) self) = outcome_of (py_pow R (py_neg a) b).
Proof.
  intros Htok Hta Htb Ha Hb.
  rewrite (calculate_value R self s (Power (Neg (Num ta)) (Num tb))).
  - simpl. now rewrite Ha, Hb.
  - simpl. repeat split; auto; lia.
  - reflexivity.
  - exact Htok.
Qed.

Lemma negation_before_power_witness :
  fst (calculate ExampleRuntime.runtime (Str "-2 ** 2") Calculator.init)
  = Returns (VInt 4).
Proof.
  apply (negation_before_power ExampleRuntime.runtime Calculator.init "-2 ** 2"
           "2" "2" (VInt 2) (VInt 2)); reflexivity.
Defined.

(** X8: operators of one level associate to the left: for number tokens
    with the values [a], [b] and [c] and two additive or two multiplicative
    operators, [ta op1 tb op2 tc] is [(a op1 b) op2 c]. *)
Theorem same_level_left_associative (R : Runtime) (self : Calculator.t) (s : string)
        (ta tb tc op1 op2 : string) (a b c : value) :
  Tokenizer.tokenize (_tokenizer self) (Str s) = Ok [ta; op1; tb; op2; tc] ->
  (In op1 ["+"; "-"] /\ In op2 ["+"; "-"])
  \/ (In op1 ["*"; "/"; "//"; "%"] /\ In op2 ["*"; "/"; "//"; "%"]) ->
  Tokenizer.is_digit_token (Str ta) = true ->
  Tokenizer.is_digit_token (Str tb) = true ->
  Tokenizer.is_digit_token (Str tc) = true ->
  parse_number R ta = Ok a ->
  parse_number R tb = Ok b ->
  parse_number R tc = Ok c ->
  fst (calculate R (Str s) self)
  = outcome_of (ab <- binary R op1 a b ;; binary R op2 ab c)%exn.
Proof.
  intros Htok [[H1 H2]|[H1 H2]] Hta Htb Htc Ha Hb Hc.
  - rewrite (calculate_value R self s (Addn op2 (Addn op1 (Num ta) (Num tb)) (Num tc))).
    + simpl. rewrite Ha, Hb, Hc, !binary_additive by assumption. simpl.
      now destruct (apply_additive R op1 a b).
    + simpl. repeat split; auto; lia.
    + now apply (begins_number ta).
    + exact Htok.
  - rewrite (calculate_value R self s (Mult op2 (Mult op1 (Num ta) (Num tb)) (Num tc))).
    + simpl. rewrite Ha, Hb, Hc, !binary_multiplicative by assumption. simpl.
      now destruct (apply_multiplicative R op1 a b).
    + simpl. repeat split; auto; lia.
    + now apply (begins_number ta).
    + exact Htok.
Qed.

Lemma same_level_left_associative_witness :
  fst (calculate ExampleRuntime.runtime (Str "2 - 3 - 4") Calculator.init)
  = Returns (VInt (-5)).
Proof.
  apply (same_level_left_associative ExampleRuntime.runtime Calculator.init
           "2 - 3 - 4" "2" "3" "4" "-" "-" (VInt 2) (VInt 3) (VInt 4));
    try reflexivity.
  left. simpl. tauto.
Defined.

(** X9: a multiplicative operator binds tighter than an additive one on
    either side: [ta + tb * tc] is [a + (b * c)], and [ta * tb + tc] is
    [(a * b) + c]. *)
Theorem multiplicative_before_additive (R : Runtime) (self : Calculator.t)
        (s s' : string) (ta tb tc opa opm : string) (a b c : value) :
  Tokenizer.tokenize (_tokenizer self) (Str s) = Ok [ta; opa; tb; opm; tc] ->
  Tokenizer.tokenize (_tokenizer self) (Str s') = Ok [ta; opm; tb; opa; tc] ->
  In opa ["+"; "-"] -> In opm ["*"; "/"; "//"; "%"] ->
  Tokenizer.is_digit_token (Str ta) = true ->
  Tokenizer.is_digit_token (Str tb) = true ->
  Tokenizer.is_digit_token (Str tc) = true ->
  parse_number R ta = Ok a ->
  parse_number R tb = Ok b ->
  parse_number R tc = Ok c ->
  fst (calculate R (Str s) self)
  = outcome_of (bc <- binary R opm b c ;; binary R opa a bc)%exn
  /\ fst (calculate R (Str s') self)
     = outcome_of (ab <- binary R opm a b ;; binary R opa ab c)%exn.
Proof.
  intros Htok Htok' Hopa Hopm Hta Htb Htc Ha Hb Hc. split.
  - rewrite (calculate_value R self s (Addn opa (Num ta) (Mult opm (Num tb) (Num tc)))).
    + simpl. rewrite Ha, Hb, Hc, (binary_additive R opa), (binary_multiplicative R opm) by assumption.
      simpl. now destruct (apply_multiplicative R opm b c).
    + simpl. repeat split; auto; lia.
    + now apply (begins_number ta).
    + exact Htok.
  - rewrite (calculate_value R self s' (Addn opa (Mult opm (Num ta) (Num tb)) (Num tc))).
    + simpl. rewrite Ha, Hb, Hc, (binary_additive R opa), (binary_multiplicative R opm) by assumption.
      simpl. now destruct (apply_multiplicative R opm a b).
    + simpl. repeat split; auto; lia.
    + now apply (begins_number ta).
    + exact Htok'.
Qed.

Lemma multiplicative_before_additive_witness :
  fst (calculate ExampleRuntime.runtime (Str "2 + 3 * 4") Calculator.init)
  = Returns (VInt 14)
  /\ fst (calculate ExampleRuntime.runtime (Str "2 * 3 + 4") Calculator.init)
     = Returns (VInt 10).
Proof.
  apply (multiplicative_before_additive ExampleRuntime.runtime Calculator.init
           "2 + 3 * 4" "2 * 3 + 4" "2" "3" "4" "+" "*" (VInt 2) (VInt 3) (VInt 4));
    try reflexivity; simpl; tauto.
Defined.

(** X10: a call of a name that is no function raises the error of the
    unknown function before any argument is evaluated, whatever the
    arguments would raise. *)
Theorem unknown_function_before_arguments (R : Runtime) (self : Calculator.t)
        (s name : string) (arguments : list expr) :
  well_formed (Call name arguments) -> name <> "let" ->
  _functions self !! name = None ->
  Tokenizer.tokenize (_tokenizer self) (Str s) = Ok (tokens (Call name arguments)) ->
  fst (calculate R (Str s) self)
  = Raises (ValueError (Template "unknown_function" [name])).
Proof.
  intros Hwf Hlet Hf Htok.
  rewrite (calculate_value R self s (Call name arguments) Hwf); [|now apply String.eqb_neq|exact Htok].
  simpl. now rewrite Hf.
Qed.

Lemma unknown_function_before_arguments_witness :
  fst (calculate ExampleRuntime.runtime (Str "f(1 / 0)") Calculator.init)
  = Raises (ValueError (Template "unknown_function" ["f"])).
Proof.
  apply (unknown_function_before_arguments ExampleRuntime.runtime Calculator.init
           "f(1 / 0)" "f" [Mult "/" (Num "1") (Num "0")]).
  - simpl. unfold is_name, begins. repeat split; (lia || tauto || reflexivity).
  - discriminate.
  - reflexivity.
  - reflexivity.
Defined.

(** X11: an input whose first token is the keyword [let] raises the
    [TypeError] of the call of [is_identifier] through the tokenizer
    instance, whatever follows the keyword. *)
Theorem assignment_always_fails (R : Runtime) (self : Calculator.t) (s : string)
        (rest : list string) :
  Tokenizer.tokenize (_tokenizer self) (Str s) = Ok ("let" :: rest) ->
  calculate R (Str s) self
  = (Raises (TypeError (PositionalArguments "is_identifier" 1 2)),
     set_current_position 1 (start ("let" :: rest) self)).
Proof.
  intros Htok. rewrite (calculate_run R _ _ _ Htok).
  replace (fuel_for ("let" :: rest)) with (S (S (8 * length rest + 13)))
    by (unfold fuel_for; simpl; lia).
  rewrite handle_expression_eq, let_raises_type_error; reflexivity.
Qed.

Lemma assignment_always_fails_witness :
  calculate ExampleRuntime.runtime (Str "let = 5") Calculator.init
  = (Raises (TypeError (PositionalArguments "is_identifier" 1 2)),
     set_current_position 1 (start ["let"; "="; "5"] Calculator.init)).
Proof.
  apply (assignment_always_fails ExampleRuntime.runtime Calculator.init "let = 5"
           ["="; "5"]).
  reflexivity.
Defined.

(** The calculator after [calculate] is the calculator before it with other
    tokens and another cursor. *)
Lemma calculate_state (R : Runtime) (expression : object) (self : Calculator.t) :
  exists ts position,
    snd (calculate R expression self)
    = set_current_position position (set_tokens ts self).
Proof.
  assert (Hself : exists ts position,
             self = set_current_position position (set_tokens ts self)).
  { exists (_tokens self), (_current_position self). now destruct self. }
  destruct expression as [s| |]; try exact Hself.
  destruct (Tokenizer.tokenize (_tokenizer self) (Str s)) as [e|ts] eqn:H.
  - unfold calculate. simpl in H. destruct (strip (chars s)); [exact Hself|discriminate].
  - rewrite (calculate_run R _ _ _ H).
    pose proof (parse_sound R ts self) as Hs. unfold sound in Hs.
    assert (Hadv : forall c', advances (start ts self) c' ->
                exists ts position, c' = set_current_position position (set_tokens ts self)).
    { intros c' [H1 H2 H3 H4 _]. exists ts, (_current_position c').
      destruct c'. simpl in *. now subst. }
    destruct (handle_expression R (fuel_for ts) (start ts self))
      as [[result|e|] self']; [|now apply Hadv|easy].
    destruct (negb _); now apply Hadv.
Qed.

(** X12: [calculate] changes nothing of the calculator but the tokens and
    the cursor: the tokenizer, the variables and the table of the functions
    are what they were, however the call ends. *)
Theorem calculate_keeps_functions (R : Runtime) (expression : object)
        (self : Calculator.t) :
  _tokenizer (snd (calculate R expression self)) = _tokenizer self
  /\ _variables (snd (calculate R expression self)) = _variables self
  /\ _functions (snd (calculate R expression self)) = _functions self.
Proof.
  destruct (calculate_state R expression self) as (ts & position & ->).
  repeat split.
Qed.

(** X13: the tokens and the cursor that an earlier call left do not count:
    what [calculate] returns or raises depends on the tokenizer, the
    variables and the functions of the calculator only. *)
Theorem calculate_forgets_tokens (R : Runtime) (expression : object)
        (self : Calculator.t) (ts : list string) (position : nat) :
  fst (calculate R expression (set_current_position position (set_tokens ts self)))
  = fst (calculate R expression self).
Proof.
  destruct expression as [s| |]; try reflexivity.
  destruct (Tokenizer.tokenize (_tokenizer self) (Str s)) as [e|ts'] eqn:H.
  - unfold calculate. simpl in H. destruct (strip (chars s)); [reflexivity|discriminate].
  - rewrite (calculate_run R s ts' self H).
    rewrite (calculate_run R s ts' (set_current_position position (set_tokens ts self)) H).
    reflexivity.
Qed.

(** *** Incomplete input *)

Lemma consume_at_end (expected : option string) (c : Calculator.t) :
  here c = [] ->
  consume_token expected c = (Raises (ValueError (Template "unexpected_end" [])), c).
Proof.
  intros H. unfold consume_token. rewrite bind_run. unfold get.
  cbv beta iota. now rewrite current_token_here, H.
Qed.

Section Incomplete.
Variable R : Runtime.

(** An exception of the unary level reaches [handle_expression]. *)
Lemma raise_from_unary (c c1 : Calculator.t) (err : exn) :
  token_is (head (here c)) "let" = false ->
  Runs (handle_unary_expression R) c (Raises err, c1) ->
  Runs (handle_expression R) c (Raises err, c1).
Proof.
  intros Hlet H.
  assert (Hp : Runs (handle_power_expression R) c (Raises err, c1)).
  { apply (runs_succ _ _ _ _ (handle_power_expression_eq R)). now apply runs_raise. }
  assert (Hm : Runs (handle_multiplicative_expression R) c (Raises err, c1)).
  { apply (runs_succ _ _ _ _ (handle_multiplicative_expression_eq R)).
    now apply runs_raise. }
  assert (Ha : Runs (handle_additive_expression R) c (Raises err, c1)).
  { apply (runs_succ _ _ _ _ (handle_additive_expression_eq R)).
    now apply runs_raise. }
  destruct Ha as [f Ha]. exists (S (S f)). intros [|[|fuel]] Hle; try lia.
  rewrite handle_expression_eq, handle_assignment_eq, bind_run, get_current_token_here.
  cbv beta iota. rewrite Hlet. apply Ha. lia.
Qed.

(** At the end of the tokens, the operand of an operator is missing. *)
Lemma operand_missing (c : Calculator.t) :
  here c = [] ->
  Runs (handle_multiplicative_expression R) c (Raises (ValueError ExpectedOperand), c).
Proof.
  intros H. exists 4. intros [|[|[|[|fuel]]]] Hle; try lia.
  rewrite handle_multiplicative_expression_eq, bind_run.
  rewrite handle_power_expression_eq, bind_run.
  rewrite handle_unary_expression_eq, bind_run, get_current_token_here, H.
  cbv beta iota. change (is_sign (head [])) with false. cbv iota.
  rewrite handle_primary_expression_eq, bind_run, get_current_token_here, H.
  reflexivity.
Qed.

(** An exception of the parse, with the fuel that [calculate] gives it. *)
Lemma outcome_with (ts : list string) (self c : Calculator.t) (err : exn) :
  Runs (handle_expression R) (start ts self) (Raises err, c) ->
  handle_expression R (fuel_for ts) (start ts self) = (Raises err, c).
Proof. intros H. apply (runs_with R _ _ _ H (parse_ends R _ _)). Qed.

End Incomplete.

(** X14: an expression followed by [+] or [-] and nothing else lacks an
    operand: once the expression is evaluated, [calculate] raises the
    error of the expected operand. *)
Theorem missing_operand (R : Runtime) (self : Calculator.t) (s : string) (e : expr)
        (op : string) :
  well_formed e -> begins e -> In op ["+"; "-"] ->
  Tokenizer.tokenize (_tokenizer self) (Str s) = Ok (tokens e ++ [op])%list ->
  fst (calculate R (Str s) self)
  = outcome_of (v <- eval R (_variables self) (_functions self) e ;;
                @inl exn value (ValueError ExpectedOperand))%exn.
Proof.
  intros Hwf Hlet Hop Htok. rewrite (calculate_run R _ _ _ Htok).
  set (c0 := start (tokens e ++ [op])%list self).
  assert (Hhere : here c0 = (tokens e ++ [op])%list) by reflexivity.
  pose proof (additive_operator op Hop) as [Hsign Hstop].
  destruct (well_formed_parsed R e Hwf c0 [op] Hhere) as (_ & _ & _ & _ & K).
  specialize (K Hstop). pose proof (here_after _ _ _ Hhere) as H1.
  assert (Hfirst : token_is (head (here c0)) "let" = false).
  { unfold begins in Hlet. destruct (first_token e) as (t & ts & Ht).
    rewrite Ht in Hlet. now rewrite Hhere, Ht. }
  assert (Hraise : exists err c,
             outcome_of (v <- eval R (_variables self) (_functions self) e ;;
                         @inl exn value (ValueError ExpectedOperand))%exn = Raises err
             /\ Runs (handle_additive_expression R) c0 (Raises err, c)).
  { change (_variables c0) with (_variables self) in K.
    change (_functions c0) with (_functions self) in K.
    destruct (eval R (_variables self) (_functions self) e) as [err|v]; simpl in K |- *.
    - destruct K as [c K]. eauto.
    - exists (ValueError ExpectedOperand). eexists. split; [reflexivity|].
      apply K. pose proof (here_after _ [op] _ H1) as H2. simpl in H2.
      destruct (operand_missing R _ H2) as [f Hf]. exists (S f).
      intros [|fuel] Hle; [lia|].
      rewrite additive_loop_eq, bind_run, get_current_token_here, H1.
      cbv beta iota. rewrite head_cons, Hsign.
      rewrite bind_run, (consume_any_here _ op _ H1).
      rewrite bind_run, Hf by lia. reflexivity. }
  destruct Hraise as (err & c & -> & Hrun).
  assert (He : Parses (handle_expression R) c0 (Raise err) c).
  { apply expression_of_additive; [exact Hfirst|]. now exists c. }
  destruct He as [c' He]. subst c0. now rewrite (outcome_with R _ _ _ _ He).
Qed.

Lemma missing_operand_witness :
  fst (calculate ExampleRuntime.runtime (Str "2 * 3 +") Calculator.init)
  = Raises (ValueError ExpectedOperand).
Proof.
  apply (missing_operand ExampleRuntime.runtime Calculator.init "2 * 3 +"
           (Mult "*" (Num "2") (Num "3")) "+").
  - simpl. repeat split; (lia || tauto || reflexivity).
  - reflexivity.
  - simpl. tauto.
  - reflexivity.
Defined.

(** X15: an expression behind an opening parenthesis that is never closed:
    once the expression is evaluated, [calculate] raises the error of the
    unexpected end. *)
Theorem unclosed_parenthesis (R : Runtime) (self : Calculator.t) (s : string)
        (e : expr) :
  well_formed e -> begins e ->
  Tokenizer.tokenize (_tokenizer self) (Str s) = Ok ("(" :: tokens e) ->
  fst (calculate R (Str s) self)
  = outcome_of (v <- eval R (_variables self) (_functions self) e ;;
                @inl exn value (ValueError (Template "unexpected_end" [])))%exn.
Proof.
  intros Hwf Hlet Htok. rewrite (calculate_run R _ _ _ Htok).
  set (c0 := start ("(" :: tokens e) self).
  assert (Hhere : here c0 = "(" :: tokens e) by reflexivity.
  assert (H1 : here (skip 1 c0) = (tokens e ++ [])%list).
  { rewrite app_nil_r. apply (here_after c0 ["("] _ Hhere). }
  pose proof (parsed_expression R e _ [] H1 Hlet (well_formed_parsed R e Hwf _ _ H1)
                                eq_refl) as He.
  pose proof (here_after _ _ _ H1) as H2.
  change (_variables (skip 1 c0)) with (_variables self) in He.
  change (_functions (skip 1 c0)) with (_functions self) in He.
  assert (Hraise : exists err c,
             outcome_of (v <- eval R (_variables self) (_functions self) e ;;
                         @inl exn value (ValueError (Template "unexpected_end" [])))%exn
             = Raises err
             /\ Runs (handle_primary_expression R) c0 (Raises err, c)).
  { assert (Hopen : forall fuel,
               handle_primary_expression R (S fuel) c0
               = match handle_expression R fuel (skip 1 c0) with
                 | (Returns v, c') =>
                     (consume_token (Some ")") ;; ret v)%M c'
                 | (Raises err, c') => (Raises err, c')
                 | (OutOfFuel, c') => (OutOfFuel, c')
                 end).
    { intros fuel.
      rewrite handle_primary_expression_eq, bind_run, get_current_token_here, Hhere.
      cbv beta iota. rewrite head_cons. cbv iota. simpl (_ =? _). cbv iota.
      rewrite bind_run, (consume_expected_here c0 "(" _ Hhere) by easy.
      now rewrite bind_run. }
    destruct (eval R (_variables self) (_functions self) e) as [err|v]; simpl in He |- *.
    - destruct He as (c & f & Hf). exists err, c. split; [reflexivity|].
      exists (S f). intros [|fuel] Hle; [lia|]. now rewrite Hopen, Hf by lia.
    - destruct He as (f & Hf). eexists. eexists. split; [reflexivity|].
      exists (S f). intros [|fuel] Hle; [lia|]. rewrite Hopen, Hf by lia.
      now rewrite bind_run, (consume_at_end _ _ H2). }
  destruct Hraise as (err & c & -> & Hrun).
  assert (Hu : Parses (handle_unary_expression R) c0 (Raise err) c).
  { apply unary_of_primary; [now rewrite Hhere|now exists c]. }
  destruct Hu as [c' Hu]. apply raise_from_unary in Hu; [|now rewrite Hhere].
  subst c0. now rewrite (outcome_with R _ _ _ _ Hu).
Qed.

Lemma unclosed_parenthesis_witness :
  fst (calculate ExampleRuntime.runtime (Str "(2 + 3") Calculator.init)
  = Raises (ValueError (Template "unexpected_end" [])).
Proof.
  apply (unclosed_parenthesis ExampleRuntime.runtime Calculator.init "(2 + 3"
           (Addn "+" (Num "2") (Num "3"))).
  - simpl. repeat split; (lia || tauto || reflexivity).
  - reflexivity.
  - reflexivity.
Defined.

(** ** The loop of [main] *)

Lemma starts_with_prefixes (p s : list ascii) :
  Repl.starts_with p s = true <-> In p (Repl.prefixes s).
Proof.
  revert p. induction s as [|y s IH]; intros [|x p]; simpl; try tauto.
  - split; [discriminate|]. intros [H|[]]. discriminate.
  - rewrite andb_true_iff, IH, in_map_iff. split.
    + intros [->%Ascii.eqb_eq H]. right. eauto.
    + intros [H|(p' & [= <- <-] & H)]; [discriminate|].
      split; [apply Ascii.eqb_refl|exact H].
Qed.

Lemma occurs_in_segments (p s : list ascii) :
  Repl.occurs_in p s = true <-> In p (Repl.segments s).
Proof.
  induction s as [|y s IH].
  - destruct p; simpl; intuition discriminate.
  - change (Repl.occurs_in p (y :: s))
      with (Repl.starts_with p (y :: s) || Repl.occurs_in p s).
    change (Repl.segments (y :: s))
      with (Repl.prefixes (y :: s) ++ Repl.segments s)%list.
    now rewrite orb_true_iff, in_app_iff, starts_with_prefixes, IH.
Qed.

Lemma text_in (s : list ascii) (l : list string) :
  In (text s) l <-> In s (map chars l).
Proof.
  rewrite in_map_iff. split.
  - intros H. exists (text s). split; [apply chars_text|exact H].
  - intros (x & <- & H). unfold text, chars.
    now rewrite string_of_list_ascii_of_string.
Qed.

(** X16: a line ends the session exactly when, stripped and in lower
    case, it occurs in the word [exit]: the test of line 15 is a test for a
    substring.  So the empty line and the single letters of the word end
    the session too, and the branch of the empty line on lines 19 and 20
    is never taken. *)
Theorem exit_by_substring (line : string) :
  (Repl.branch_of line = Repl.Exit
   <-> In (text (Repl.lower (strip (chars line))))
          [""; "e"; "x"; "i"; "t"; "ex"; "xi"; "it"; "exi"; "xit"; "exit"])
  /\ Repl.branch_of line <> Repl.Empty.
Proof.
  rewrite text_in. unfold Repl.branch_of.
  destruct (Repl.occurs_in _ (chars "exit")) eqn:E.
  - split; [|discriminate]. apply occurs_in_segments in E. simpl in E |- *. intuition.
  - assert (Hnot : ~ In (Repl.lower (strip (chars line)))
                        (map chars [""; "e"; "x"; "i"; "t"; "ex"; "xi"; "it"; "exi";
                                    "xit"; "exit"])).
    { intros H. assert (H' : In (Repl.lower (strip (chars line)))
                                (Repl.segments (chars "exit"))).
      { simpl in H |- *. intuition. }
      apply occurs_in_segments in H'. congruence. }
    destruct (strip (chars line)) as [|x l] eqn:Es.
    + exfalso. apply Hnot. simpl. auto.
    + split; [|repeat (destruct (_ =? _)%string; [discriminate|]); discriminate].
      split; [|intros H; now apply Hnot in H].
      repeat (destruct (_ =? _)%string; [discriminate|]). discriminate.
Qed.

(** The calculator of a session is the fresh one with other tokens and
    another cursor. *)
Lemma loop_state (R : Runtime) (lines : list string) (c : Calculator.t) :
  (exists ts position, c = set_current_position position (set_tokens ts Calculator.init)) ->
  exists ts position,
    Repl.loop R lines c = set_current_position position (set_tokens ts Calculator.init).
Proof.
  revert c. induction lines as [|line lines IH]; intros c Hc; [exact Hc|]. simpl.
  unfold Repl.iteration. destruct (Repl.branch_of line) as [| | | | |user_input]; auto.
  - apply IH. destruct Hc as (ts & position & ->). now exists ts, position.
  - apply IH. destruct (calculate_state R (Str user_input) c) as (ts' & position' & ->).
    destruct Hc as (ts & position & ->). now exists ts', position'.
Qed.

Lemma main_state (R : Runtime) (lines : list string) :
  exists ts position,
    Repl.main R lines = set_current_position position (set_tokens ts Calculator.init).
Proof. apply loop_state. now exists [], 0. Qed.

(** X17: a session of [main] declares no variable and keeps its functions:
    whatever lines are entered, the calculator holds no variable, so that
    the command [vars] finds none, and its functions are the built-in
    ones. *)
Theorem main_declares_nothing (R : Runtime) (lines : list string) :
  get_variables (Repl.main R lines) = ∅
  /\ _functions (Repl.main R lines) = initialize_functions.
Proof.
  destruct (main_state R lines) as (ts & position & ->). split; reflexivity.
Qed.

(** X18: the lines of a session do not depend on each other: whatever was
    entered before, [calculate] returns or raises on the calculator of the
    session what it does on a fresh calculator. *)
Theorem session_is_stateless (R : Runtime) (lines : list string) (expression : object) :
  fst (calculate R expression (Repl.main R lines))
  = fst (calculate R expression Calculator.init).
Proof.
  destruct (main_state R lines) as (ts & position & ->).
  destruct expression as [s| |]; try reflexivity.
  destruct (Tokenizer.tokenize Tokenizer.init (Str s)) as [e|ts'] eqn:H.
  - unfold calculate. simpl in H. destruct (strip (chars s)); [reflexivity|discriminate].
  - rewrite (calculate_run R s ts' Calculator.init H).
    rewrite (calculate_run R s ts'
               (set_current_position position (set_tokens ts Calculator.init)) H).
    reflexivity.
Qed.
